(** * Profit Pilot: the partner-settlement ledger

    A shallow embedding of the ledger logic of the Profit Pilot application:
    the [App] handlers, the user-scoped storage API, the two forms
    ([AddSaleForm], [PartnerManagement]) and the balance computation
    [partnerBalances].

    Numbers.  The source computes with JavaScript numbers, the binary64
    values of IEEE 754.  A number of the embedding is [NaN], an infinity or
    a rational; the sign of zero is not kept.  The first part of the
    development takes the result of an operation on finite numbers as the
    exact rational: it proves what the source does when it compares, copies,
    filters and stores numbers, and when it subtracts one amount.  Where the
    result depends on how a sum of several terms rounds (the balance of a
    partner, the total of the percentages), the functions are embedded again
    in [Rounded], over the arithmetic of [Binary64], which rounds every
    result to the nearest binary64 value and overflows to the infinities.

    Strings.  A string of the embedding is the UTF-8 encoding of the string
    of the source. *)

From Stdlib Require Import ZArith QArith Qcanon Ascii Floats.
From stdpp Require Import base numbers list strings gmap sorting.

Local Open Scope Qc_scope.

(** ** JavaScript numbers *)

Inductive number : Type :=
| NaN
| NegInf
| PosInf
| Fin (q : Qc).

Module Num.

Definition zero : number := Fin 0.
Definition hundred : number := Fin (Qc_of_Z 100).

Definition isNaN (x : number) : bool :=
  match x with NaN => true | _ => false end.

Definition isFinite (x : number) : bool :=
  match x with Fin _ => true | _ => false end.

(** Sign of a rational, as a [comparison] with zero. *)
Definition sgn (q : Qc) : comparison := q ?= 0.

Definition neg (x : number) : number :=
  match x with
  | NaN => NaN
  | NegInf => PosInf
  | PosInf => NegInf
  | Fin q => Fin (- q)
  end.

(** [x + y] *)
Definition add (x y : number) : number :=
  match x, y with
  | NaN, _ | _, NaN => NaN
  | PosInf, NegInf | NegInf, PosInf => NaN
  | PosInf, _ | _, PosInf => PosInf
  | NegInf, _ | _, NegInf => NegInf
  | Fin a, Fin b => Fin (a + b)
  end.

(** [x - y] *)
Definition sub (x y : number) : number := add x (neg y).

(** An infinity of the sign given by [c]; [NaN] for the sign of zero. *)
Definition inf_of_sign (c : comparison) : number :=
  match c with Gt => PosInf | Lt => NegInf | Eq => NaN end.

(** [x * y] *)
Definition mul (x y : number) : number :=
  match x, y with
  | NaN, _ | _, NaN => NaN
  | PosInf, PosInf | NegInf, NegInf => PosInf
  | PosInf, NegInf | NegInf, PosInf => NegInf
  | PosInf, Fin b | Fin b, PosInf => inf_of_sign (sgn b)
  | NegInf, Fin b | Fin b, NegInf => inf_of_sign (CompOpp (sgn b))
  | Fin a, Fin b => Fin (a * b)
  end.

(** [x / y].  The only divisor of the source is the literal [100]; for a
    zero divisor the quotient takes the sign of the dividend. *)
Definition div (x y : number) : number :=
  match x, y with
  | NaN, _ | _, NaN => NaN
  | (PosInf | NegInf), (PosInf | NegInf) => NaN
  | Fin _, (PosInf | NegInf) => Fin 0
  | PosInf, Fin b =>
      match sgn b with Lt => NegInf | _ => PosInf end
  | NegInf, Fin b =>
      match sgn b with Lt => PosInf | _ => NegInf end
  | Fin a, Fin b =>
      match sgn b with
      | Eq => inf_of_sign (sgn a)
      | _ => Fin (a / b)
      end
  end.

(** [x < y]; every comparison with [NaN] is false. *)
Definition lt (x y : number) : bool :=
  match x, y with
  | NaN, _ | _, NaN => false
  | _, NegInf => false
  | NegInf, _ => true
  | PosInf, _ => false
  | _, PosInf => true
  | Fin a, Fin b => match a ?= b with Lt => true | _ => false end
  end.

(** [x <= y] *)
Definition le (x y : number) : bool :=
  match x, y with
  | NaN, _ | _, NaN => false
  | NegInf, _ => true
  | _, PosInf => true
  | _, NegInf => false
  | PosInf, _ => false
  | Fin a, Fin b => match a ?= b with Gt => false | _ => true end
  end.

(** [x > y] and [x >= y] *)
Definition gt (x y : number) : bool := lt y x.
Definition ge (x y : number) : bool := le y x.

(** [x === 0] *)
Definition is_zero (x : number) : bool :=
  match x with
  | Fin q => match sgn q with Eq => true | _ => false end
  | _ => false
  end.

(** Truthiness of a number: [NaN] and zero are falsy. *)
Definition truthy (x : number) : bool := negb (isNaN x || is_zero x).

(** [v || 0] for [v] the result of [Map.prototype.get]: [undefined], [NaN]
    and zero all give [0]. *)
Definition or_zero (v : option number) : number :=
  match v with
  | Some x => if truthy x then x else zero
  | None => zero
  end.

End Num.

Declare Scope num_scope.
Delimit Scope num_scope with num.
Bind Scope num_scope with number.
Infix "+" := Num.add : num_scope.
Infix "-" := Num.sub : num_scope.
Infix "*" := Num.mul : num_scope.
Infix "/" := Num.div : num_scope.
Infix "<?" := Num.lt : num_scope.
Infix "<=?" := Num.le : num_scope.
Infix ">?" := Num.gt : num_scope.
Infix ">=?" := Num.ge : num_scope.
Notation "0" := Num.zero : num_scope.
Notation "100" := Num.hundred : num_scope.

(** A finite number from an integer literal. *)
Definition int (n : Z) : number := Fin (Qc_of_Z n).

(** ** Data model ([types.ts]) *)

Module Partner.
Record t : Type := mk {
  id : string;
  name : string;
  percentage : number
}.
End Partner.

Module Sale.
Record t : Type := mk {
  id : string;
  name : string;
  description : option string;
  purchasePrice : number;
  soldPrice : number;
  profit : number;
  timestamp : Z;
  partnerIds : list string
}.
End Sale.

Module Settlement.
Record t : Type := mk {
  id : string;
  partnerId : string;
  amount : number;
  timestamp : Z
}.
End Settlement.

Abbreviation Partner := Partner.t.
Abbreviation Sale := Sale.t.
Abbreviation Settlement := Settlement.t.

(** [Omit<Sale, 'id' | 'timestamp' | 'profit'>] *)
Record SaleData : Type := {
  sd_name : string;
  sd_description : option string;
  sd_purchasePrice : number;
  sd_soldPrice : number;
  sd_partnerIds : list string
}.

(** [Omit<Partner, 'id'>] *)
Record PartnerData : Type := {
  pd_name : string;
  pd_percentage : number
}.

(** [Omit<Settlement, 'id' | 'timestamp'>] *)
Record SettlementData : Type := {
  td_partnerId : string;
  td_amount : number
}.

(** What the environment supplies when a record is created:
    [crypto.randomUUID()] and [Date.now()]. *)
Record Stamp : Type := {
  uuid : string;
  now : Z
}.

(** ** The application state and its handlers ([App]) *)

Record AppState : Type := {
  sales : list Sale;
  partners : list Partner;
  settlements : list Settlement
}.

Definition initialState : AppState :=
  {| sales := []; partners := []; settlements := [] |}.

Definition newSale (env : Stamp) (saleData : SaleData) : Sale :=
  {| Sale.id := uuid env;
     Sale.name := sd_name saleData;
     Sale.description := sd_description saleData;
     Sale.purchasePrice := sd_purchasePrice saleData;
     Sale.soldPrice := sd_soldPrice saleData;
     Sale.profit := (sd_soldPrice saleData - sd_purchasePrice saleData)%num;
     Sale.timestamp := now env;
     Sale.partnerIds := sd_partnerIds saleData |}.

Definition newPartner (env : Stamp) (partnerData : PartnerData) : Partner :=
  {| Partner.id := uuid env;
     Partner.name := pd_name partnerData;
     Partner.percentage := pd_percentage partnerData |}.

Definition newSettlement (env : Stamp) (settlementData : SettlementData)
  : Settlement :=
  {| Settlement.id := uuid env;
     Settlement.partnerId := td_partnerId settlementData;
     Settlement.amount := td_amount settlementData;
     Settlement.timestamp := now env |}.

Definition handleAddSale (env : Stamp) (newSaleData : SaleData)
    (st : AppState) : AppState :=
  {| sales := newSale env newSaleData :: sales st;
     partners := partners st;
     settlements := settlements st |}.

Definition handleAddPartner (env : Stamp) (newPartnerData : PartnerData)
    (st : AppState) : AppState :=
  {| sales := sales st;
     partners := partners st ++ [newPartner env newPartnerData];
     settlements := settlements st |}.

(** The [sales.map] callback of the deletion: a sale that lists [id] is
    rebuilt without it, any other sale is returned as it is. *)
Definition stripPartner (id : string) (sale : Sale) : Sale :=
  if decide (id ∈ Sale.partnerIds sale) then
    {| Sale.id := Sale.id sale;
       Sale.name := Sale.name sale;
       Sale.description := Sale.description sale;
       Sale.purchasePrice := Sale.purchasePrice sale;
       Sale.soldPrice := Sale.soldPrice sale;
       Sale.profit := Sale.profit sale;
       Sale.timestamp := Sale.timestamp sale;
       Sale.partnerIds := filter (λ pid, pid ≠ id) (Sale.partnerIds sale) |}
  else sale.

Definition handleDeletePartner (id : string) (st : AppState) : AppState :=
  {| sales := stripPartner id <$> sales st;
     partners := filter (λ p, Partner.id p ≠ id) (partners st);
     settlements := filter (λ s, Settlement.partnerId s ≠ id) (settlements st) |}.

Definition handleAddSettlement (env : Stamp) (newSettlementData : SettlementData)
    (st : AppState) : AppState :=
  {| sales := sales st;
     partners := partners st;
     settlements := settlements st ++ [newSettlement env newSettlementData] |}.

(** ** The user-scoped storage API

    [localStorage] holds one JSON array under each of the keys
    [sales_<userId>], [partners_<userId>] and [settlements_<userId>]; the
    three key families are kept as three maps from the user id.  The maps
    hold the records themselves: [JSON.parse] gives back what
    [JSON.stringify] was given as long as the numbers of a record are
    finite; [NaN] and the infinities are written as [null]. *)

Record Storage : Type := {
  salesOf : gmap string (list Sale);
  partnersOf : gmap string (list Partner);
  settlementsOf : gmap string (list Settlement)
}.

Definition emptyStorage : Storage :=
  {| salesOf := ∅; partnersOf := ∅; settlementsOf := ∅ |}.

(** A missing key reads as the empty array. *)
Definition getUserData (userId : string) (ls : Storage) : AppState :=
  {| sales := default [] (salesOf ls !! userId);
     partners := default [] (partnersOf ls !! userId);
     settlements := default [] (settlementsOf ls !! userId) |}.

Definition addSale (userId : string) (saleData : SaleData) (env : Stamp)
    (ls : Storage) : Storage * Sale :=
  let sales := sales (getUserData userId ls) in
  let newSale := newSale env saleData in
  let updatedSales := newSale :: sales in
  ({| salesOf := <[userId := updatedSales]> (salesOf ls);
      partnersOf := partnersOf ls;
      settlementsOf := settlementsOf ls |}, newSale).

Definition addPartner (userId : string) (partnerData : PartnerData)
    (env : Stamp) (ls : Storage) : Storage * Partner :=
  let partners := partners (getUserData userId ls) in
  let newPartner := newPartner env partnerData in
  let updatedPartners := partners ++ [newPartner] in
  ({| salesOf := salesOf ls;
      partnersOf := <[userId := updatedPartners]> (partnersOf ls);
      settlementsOf := settlementsOf ls |}, newPartner).

Definition deletePartner (userId : string) (id : string) (ls : Storage)
  : Storage :=
  let data := getUserData userId ls in
  let partners := filter (λ p, Partner.id p ≠ id) (partners data) in
  let settlements :=
    filter (λ s, Settlement.partnerId s ≠ id) (settlements data) in
  let sales := stripPartner id <$> sales data in
  {| salesOf := <[userId := sales]> (salesOf ls);
     partnersOf := <[userId := partners]> (partnersOf ls);
     settlementsOf := <[userId := settlements]> (settlementsOf ls) |}.

Definition addSettlement (userId : string) (settlementData : SettlementData)
    (env : Stamp) (ls : Storage) : Storage * Settlement :=
  let settlements := settlements (getUserData userId ls) in
  let newSettlement := newSettlement env settlementData in
  let updatedSettlements := settlements ++ [newSettlement] in
  ({| salesOf := salesOf ls;
      partnersOf := partnersOf ls;
      settlementsOf := <[userId := updatedSettlements]> (settlementsOf ls) |},
   newSettlement).

(** ** Form validation *)

(** The string of the given bytes. *)
Definition bytes (l : list nat) : string :=
  foldr (λ n s, String (ascii_of_nat n) s) EmptyString l.

(** What [String.prototype.trim] removes: the white space and the line
    terminators of ECMAScript, each as the UTF-8 encoding of its code
    point. *)
Definition white_space : list string :=
  bytes <$>
    [ [9%nat]; [10%nat]; [11%nat]; [12%nat]; [13%nat]; [32%nat];
      [194; 160]%nat;      (* U+00A0 *)
      [225; 154; 128]%nat; (* U+1680 *)
      [226; 128; 128]%nat; [226; 128; 129]%nat; [226; 128; 130]%nat;
      [226; 128; 131]%nat; [226; 128; 132]%nat; [226; 128; 133]%nat;
      [226; 128; 134]%nat; [226; 128; 135]%nat; [226; 128; 136]%nat;
      [226; 128; 137]%nat; [226; 128; 138]%nat; (* U+2000 to U+200A *)
      [226; 128; 168]%nat; [226; 128; 169]%nat; (* U+2028, U+2029 *)
      [226; 128; 175]%nat; (* U+202F *)
      [226; 129; 159]%nat; (* U+205F *)
      [227; 128; 128]%nat; (* U+3000 *)
      [239; 187; 191]%nat  (* U+FEFF *) ].

(** [s] without the prefix [p], if [p] is a prefix of [s]. *)
Fixpoint strip_prefix (p s : string) : option string :=
  match p, s with
  | EmptyString, _ => Some s
  | String a p', String b s' =>
      if Ascii.eqb a b then strip_prefix p' s' else None
  | String _ _, EmptyString => None
  end.

(** [s] without the one of [spaces] it starts with, if it starts with
    one. *)
Definition strip_space (spaces : list string) (s : string)
  : option string :=
  foldr (λ p rest, match strip_prefix p s with
                   | Some s' => Some s'
                   | None => rest
                   end) None spaces.

(** At most [n] of [spaces] are removed from the start of [s]. *)
Fixpoint strip_spaces (spaces : list string) (n : nat) (s : string)
  : string :=
  match n with
  | O => s
  | S n =>
      match strip_space spaces s with
      | Some s' => strip_spaces spaces n s'
      | None => s
      end
  end.

Definition trimStart (s : string) : string :=
  strip_spaces white_space (String.length s) s.

Definition trimEnd (s : string) : string :=
  String.rev
    (strip_spaces (String.rev <$> white_space) (String.length s)
       (String.rev s)).

Definition trim (s : string) : string := trimEnd (trimStart s).

(** [s.length], the number of UTF-16 code units of the string that [s]
    encodes: a code point takes two when its encoding has four bytes, and
    one otherwise. *)
Definition utf16_units (c : ascii) : nat :=
  let n := nat_of_ascii c in
  if (n <? 128)%nat then 1%nat
  else if (n <? 192)%nat then 0%nat
  else if (n <? 240)%nat then 1%nat
  else 2%nat.

Fixpoint utf16_length (s : string) : nat :=
  match s with
  | EmptyString => 0%nat
  | String c s' => (utf16_units c + utf16_length s')%nat
  end.

(** [!s] for a string [s]: only the empty string is falsy. *)
Definition is_empty (s : string) : bool :=
  match s with EmptyString => true | _ => false end.

(** A piece of an error message: literal text, an interpolated number
    ([${x}]) or a number printed with two decimals ([${x.toFixed(2)}]). *)
Inductive fragment : Type :=
| Text (s : string)
| Value (x : number)
| Fixed2 (x : number).

(** The errors the forms set, named by the kind of rejection; [message]
    gives the text of each in the source. *)
Inductive FormError : Type :=
| InvalidName
| InvalidPrice
| InvalidMargin
| InvalidPartnerName
| InvalidPercentage
| AllocationExceeded (totalPercentage : number)
| InvalidAmount
| ExceedsOwed (owed : number).

Definition message (e : FormError) : list fragment :=
  match e with
  | InvalidName => [Text "Please enter a name for the sale."]
  | InvalidPrice => [Text "Please enter valid positive numbers for prices."]
  | InvalidMargin => [Text "Sold price cannot be less than purchase price."]
  | InvalidPartnerName => [Text "Partner name cannot be empty."]
  | InvalidPercentage => [Text "Percentage must be a number between 1 and 100."]
  | AllocationExceeded totalPercentage =>
      [Text "Adding this partner would exceed 100%. Current total: ";
       Value totalPercentage; Text "%"]
  | InvalidAmount => [Text "Please enter a valid positive amount."]
  | ExceedsOwed owed =>
      [Text "Cannot settle more than the owed amount of $";
       Fixed2 owed; Text "."]
  end.

(** What a submit handler does: nothing at all, [setError] and return, or
    call its [on...] callback with the payload. *)
Inductive outcome (A : Type) : Type :=
| Ignored
| Rejected (e : FormError)
| Submitted (a : A).

Arguments Ignored {A}.
Arguments Rejected {A} e.
Arguments Submitted {A} a.

(** ** [AddSaleForm] *)

Module AddSaleForm.

(** [pPrice] and [sPrice] are the results of [parseFloat] on the two price
    fields. *)
Definition handleSubmit (name : string) (description : string)
    (pPrice sPrice : number) (selectedPartnerIds : list string)
  : outcome SaleData :=
  if is_empty (trim name) then Rejected InvalidName
  else if Num.isNaN pPrice || Num.isNaN sPrice
          || (pPrice <? 0)%num || (sPrice <? 0)%num
  then Rejected InvalidPrice
  else if (sPrice <? pPrice)%num then Rejected InvalidMargin
  else Submitted {| sd_name := name;
                    sd_description := Some description;
                    sd_purchasePrice := pPrice;
                    sd_soldPrice := sPrice;
                    sd_partnerIds := selectedPartnerIds |}.

End AddSaleForm.

(** ** [PartnerManagement] *)

Module PartnerManagement.

(** [partners.reduce((sum, p) => sum + p.percentage, 0)] *)
Definition totalPercentage (partners : list Partner) : number :=
  fold_left (λ sum p, (sum + Partner.percentage p)%num) partners 0%num.

(** [perc] is [parseFloat(percentage)]. *)
Definition handleSubmit (partners : list Partner)
    (name : string) (perc : number) : outcome PartnerData :=
  if is_empty (trim name) then Rejected InvalidPartnerName
  else if Num.isNaN perc || (perc <=? 0)%num || (perc >? 100)%num
  then Rejected InvalidPercentage
  else if (totalPercentage partners + perc >? 100)%num
  then Rejected (AllocationExceeded (totalPercentage partners))
  else Submitted {| pd_name := name; pd_percentage := perc |}.

(** The share of [partner] in the profit of [sale]. *)
Definition cut (sale : Sale) (partner : Partner) : number :=
  (Sale.profit sale * Partner.percentage partner / 100)%num.

(** The body of [assignedPartners.forEach]. *)
Definition creditPartner (sale : Sale) (balances : gmap string number)
    (partner : Partner) : gmap string number :=
  let currentBalance := Num.or_zero (balances !! Partner.id partner) in
  <[Partner.id partner := (currentBalance + cut sale partner)%num]> balances.

(** The body of [sales.forEach].  A [partnerIds] array is always truthy, so
    the guard [if (sale.partnerIds)] of the source is passed. *)
Definition creditSale (partners : list Partner)
    (balances : gmap string number) (sale : Sale) : gmap string number :=
  let assignedPartners :=
    filter (λ p, Partner.id p ∈ Sale.partnerIds sale) partners in
  if (0 <? length assignedPartners)%nat
  then fold_left (creditPartner sale) assignedPartners balances
  else balances.

(** The body of [settlements.forEach]. *)
Definition debitSettlement (balances : gmap string number)
    (settlement : Settlement) : gmap string number :=
  let currentBalance :=
    Num.or_zero (balances !! Settlement.partnerId settlement) in
  <[Settlement.partnerId settlement :=
      (currentBalance - Settlement.amount settlement)%num]> balances.

Definition partnerBalances (partners : list Partner) (sales : list Sale)
    (settlements : list Settlement) : gmap string number :=
  let balances := fold_left (λ b p, <[Partner.id p := 0%num]> b) partners ∅ in
  let balances := fold_left (creditSale partners) sales balances in
  fold_left debitSettlement settlements balances.

(** [amount] is [parseFloat(settlementAmount)]. *)
Definition handleSettle (partners : list Partner) (sales : list Sale)
    (settlements : list Settlement) (settlementPartner : option Partner)
    (amount : number) : outcome SettlementData :=
  match settlementPartner with
  | None => Ignored
  | Some settlementPartner =>
      let owed :=
        Num.or_zero (partnerBalances partners sales settlements
                       !! Partner.id settlementPartner) in
      if Num.isNaN amount || (amount <=? 0)%num then Rejected InvalidAmount
      else if (amount >? owed)%num then Rejected (ExceedsOwed owed)
      else Submitted {| td_partnerId := Partner.id settlementPartner;
                        td_amount := amount |}
  end.

End PartnerManagement.

Import PartnerManagement.

(** ** The ledger as a transition system

    One step is one committed user action: a form whose handler called its
    callback, or a confirmed deletion. *)

Inductive step : AppState → AppState → Prop :=
| step_add_sale st env name description pPrice sPrice selected saleData :
    AddSaleForm.handleSubmit name description pPrice sPrice selected
      = Submitted saleData →
    step st (handleAddSale env saleData st)
| step_add_partner st env name perc partnerData :
    PartnerManagement.handleSubmit (partners st) name perc
      = Submitted partnerData →
    step st (handleAddPartner env partnerData st)
| step_delete_partner st id :
    step st (handleDeletePartner id st)
| step_settle st env partner amount settlementData :
    handleSettle (partners st) (sales st) (settlements st) (Some partner) amount
      = Submitted settlementData →
    step st (handleAddSettlement env settlementData st).

Definition reachable (st : AppState) : Prop := rtc step initialState st.

(** ** Specification-side definitions *)

(** [Σ] over a list of numbers. *)
Definition total (xs : list number) : number := foldr Num.add 0%num xs.

(** The balance of a partner as the specification writes it: the partner's
    share of the profit of every sale that lists the partner, minus the
    amount of every settlement that names the partner. *)
Definition balance (partner : Partner) (sales : list Sale)
    (settlements : list Settlement) : number :=
  (total ((λ sale, Sale.profit sale * Partner.percentage partner / 100)%num <$>
            filter (λ sale, Partner.id partner ∈ Sale.partnerIds sale) sales)
   - total (Settlement.amount <$>
              filter (λ t, Settlement.partnerId t = Partner.id partner)
                settlements))%num.

(** A snapshot whose amounts are all finite numbers. *)
Definition finite_amounts (partners : list Partner) (sales : list Sale)
    (settlements : list Settlement) : Prop :=
  Forall (λ p, Num.isFinite (Partner.percentage p) = true) partners
  ∧ Forall (λ s, Num.isFinite (Sale.profit s) = true) sales
  ∧ Forall (λ t, Num.isFinite (Settlement.amount t) = true) settlements.

(** Partner identities are unique. *)
Definition unique_ids (partners : list Partner) : Prop :=
  NoDup (Partner.id <$> partners).

(** *** The entry of one key

    Every write of [partnerBalances] to a key [k] has the shape
    [balances.set(k, (balances.get(k) || 0) + x)]; what the map holds at [k]
    in the end is determined by the list of these [x], in order. *)

Definition bump (entry : option number) (x : number) : option number :=
  Some (Num.or_zero entry + x)%num.

(** The entry of [k] after the initialisation pass. *)
Definition initial (k : string) (partners : list Partner) : option number :=
  if decide (k ∈ Partner.id <$> partners) then Some 0%num else None.

(** What one sale adds to the entry of [k]. *)
Definition shares (k : string) (partners : list Partner) (sale : Sale)
  : list number :=
  cut sale <$>
    filter (λ p, Partner.id p = k)
      (filter (λ p, Partner.id p ∈ Sale.partnerIds sale) partners).

(** What the settlements add to the entry of [k]. *)
Definition payments (k : string) (settlements : list Settlement)
  : list number :=
  (λ t, Num.neg (Settlement.amount t)) <$>
    filter (λ t, Settlement.partnerId t = k) settlements.

Definition deltas (k : string) (partners : list Partner) (sales : list Sale)
    (settlements : list Settlement) : list number :=
  (sales ≫= shares k partners) ++ payments k settlements.

(** A sale with the margin of the specification: the stored profit is the
    difference of the two prices and is not negative. *)
Definition has_margin (sale : Sale) : Prop :=
  Sale.profit sale = (Sale.soldPrice sale - Sale.purchasePrice sale)%num
  ∧ (Sale.profit sale <? 0)%num = false.

(** Every field of a sale but [partnerIds] is as in the other. *)
Definition same_record (sale sale' : Sale) : Prop :=
  Sale.id sale' = Sale.id sale
  ∧ Sale.name sale' = Sale.name sale
  ∧ Sale.description sale' = Sale.description sale
  ∧ Sale.purchasePrice sale' = Sale.purchasePrice sale
  ∧ Sale.soldPrice sale' = Sale.soldPrice sale
  ∧ Sale.profit sale' = Sale.profit sale
  ∧ Sale.timestamp sale' = Sale.timestamp sale.

(** ** A worked ledger

    The example of the specification: partners A (60%) and B (40%), one
    sale of profit 100 shared by both, a payment of 30 to A. *)

Module Example.

Definition A : Partner := Partner.mk "A" "Ann" (int 60).
Definition B : Partner := Partner.mk "B" "Bob" (int 40).

Definition sale1 : Sale :=
  newSale {| uuid := "s1"; now := 1 |}
    {| sd_name := "phone"; sd_description := None;
       sd_purchasePrice := int 50; sd_soldPrice := int 150;
       sd_partnerIds := ["A"; "B"] |}.

(** A second sale, of profit 40, for A alone. *)
Definition sale2 : Sale :=
  newSale {| uuid := "s2"; now := 2 |}
    {| sd_name := "case"; sd_description := None;
       sd_purchasePrice := int 10; sd_soldPrice := int 50;
       sd_partnerIds := ["A"] |}.

Definition pay (pid : string) (x : number) : Settlement :=
  Settlement.mk "t" pid x 3.

Definition ledger : AppState :=
  {| sales := [sale1]; partners := [A; B]; settlements := [] |}.

Definition settled : AppState :=
  {| sales := [sale1]; partners := [A; B];
     settlements := [pay "A" (int 30)] |}.

(** What the partner form and the environment supply when A and B are
    added. *)
Definition envA : Stamp := {| uuid := "A"; now := 1 |}.
Definition envB : Stamp := {| uuid := "B"; now := 2 |}.
Definition dataA : PartnerData :=
  {| pd_name := "Ann"; pd_percentage := int 60 |}.
Definition dataB : PartnerData :=
  {| pd_name := "Bob"; pd_percentage := int 40 |}.

(** A sale whose two prices are both [Infinity]: the sale form lets it
    through, and its profit is [NaN]. *)
Definition saleNaN : Sale :=
  newSale {| uuid := "s3"; now := 4 |}
    {| sd_name := "void"; sd_description := Some "";
       sd_purchasePrice := PosInf; sd_soldPrice := PosInf;
       sd_partnerIds := ["A"] |}.

End Example.

(** ** The partner list of [PartnerManagement]

    What the list shows for each partner: the owed amount, and a settle
    button that is disabled when nothing is owed. *)

(** [const totalOwed = partnerBalances.get(partner.id) || 0] *)
Definition totalOwed (partners : list Partner) (sales : list Sale)
    (settlements : list Settlement) (partner : Partner) : number :=
  Num.or_zero (partnerBalances partners sales settlements
                 !! Partner.id partner).

(** [disabled={totalOwed <= 0}] *)
Definition settleDisabled (partners : list Partner) (sales : list Sale)
    (settlements : list Settlement) (partner : Partner) : bool :=
  (totalOwed partners sales settlements partner <=? 0)%num.

(** A finite number that is not below zero. *)
Definition nonneg (x : number) : Prop :=
  Num.isFinite x = true ∧ (0 <=? x)%num = true.

(** ** A ledger built through the forms *)

Module Demo.

Definition saleData : SaleData :=
  {| sd_name := "phone"; sd_description := Some "";
     sd_purchasePrice := int 50; sd_soldPrice := int 150;
     sd_partnerIds := ["A"; "B"] |}.

Definition payA : SettlementData :=
  {| td_partnerId := "A"; td_amount := int 30 |}.

Definition env1 : Stamp := {| uuid := "s1"; now := 3 |}.
Definition env2 : Stamp := {| uuid := "t1"; now := 4 |}.

(** A and B are added, a sale of profit 100 is shared by both, 30 is paid
    to A. *)
Definition joined : AppState :=
  handleAddPartner Example.envB Example.dataB
    (handleAddPartner Example.envA Example.dataA initialState).

Definition sold : AppState := handleAddSale env1 saleData joined.

Definition paid : AppState := handleAddSettlement env2 payA sold.

End Demo.

(** ** User management of the storage API

    [localStorage] holds the array of users under the key [users] and the
    session [{ userId }] under the key [currentUser]. *)

(** The fields [signUp] writes to a user. *)
Module User.
Record t : Type := mk {
  id : string;
  name : string;
  email : string;
  passwordHash : string
}.
End User.

Abbreviation User := User.t.

Record AuthStorage : Type := {
  users : list User;
  currentUser : option string
}.

Definition noUsers : AuthStorage := {| users := []; currentUser := None |}.

(** What a promise of the API settles to. *)
Inductive promise (A : Type) : Type :=
| Resolve (a : A)
| Reject (message : string).

Arguments Resolve {A} a.
Arguments Reject {A} message.

(** [`hashed_${password}`] *)
Definition hashed (password : string) : string := "hashed_" +:+ password.

(** [setCurrentUserSession] *)
Definition setCurrentUserSession (user : option User) (ls : AuthStorage)
  : AuthStorage :=
  match user with
  | Some user => {| users := users ls; currentUser := Some (User.id user) |}
  | None => {| users := users ls; currentUser := None |}
  end.

(** [saveUsers] *)
Definition saveUsers (us : list User) (ls : AuthStorage) : AuthStorage :=
  {| users := us; currentUser := currentUser ls |}.

Definition signUp (name email password : string) (uuid : string)
    (ls : AuthStorage) : AuthStorage * promise User :=
  let users := users ls in
  if decide (Exists (λ u, User.email u = email) users) then
    (ls, Reject "An account with this email already exists.")
  else
    let passwordHash := hashed password in
    let newUser :=
      {| User.id := uuid; User.name := name; User.email := email;
         User.passwordHash := passwordHash |} in
    let users := users ++ [newUser] in
    (setCurrentUserSession (Some newUser) (saveUsers users ls),
     Resolve newUser).

Definition signIn (email password : string) (ls : AuthStorage)
  : AuthStorage * promise User :=
  let user := snd <$> list_find (λ u, User.email u = email) (users ls) in
  let passwordHash := hashed password in
  match user with
  | Some user =>
      if decide (User.passwordHash user = passwordHash)
      then (setCurrentUserSession (Some user) ls, Resolve user)
      else (ls, Reject "Invalid email or password.")
  | None => (ls, Reject "Invalid email or password.")
  end.

Definition signOut (ls : AuthStorage) : AuthStorage :=
  setCurrentUserSession None ls.

Definition getCurrentUser (ls : AuthStorage) : option User :=
  match currentUser ls with
  | None => None
  | Some userId => snd <$> list_find (λ u, User.id u = userId) (users ls)
  end.

(** [fetchAllData] *)
Definition fetchAllData (userId : string) (ls : Storage) : AppState :=
  getUserData userId ls.

(** ** The application with accounts

    The second [App] keeps the signed-in user beside the three lists and
    goes through the storage API for every change. *)

Record Session : Type := {
  sessionUser : option User;
  shown : AppState
}.

Record World : Type := {
  auth : AuthStorage;
  store : Storage;
  app : Session
}.

Definition signedOut : Session :=
  {| sessionUser := None; shown := initialState |}.

Definition initialWorld : World :=
  {| auth := noUsers; store := emptyStorage; app := signedOut |}.

Module UserApp.

(** [checkAuthAndLoadData], the effect that runs when the application is
    mounted, on the initial component state. *)
Definition checkAuthAndLoadData (w : World) : World :=
  match getCurrentUser (auth w) with
  | Some user =>
      {| auth := auth w; store := store w;
         app := {| sessionUser := Some user;
                   shown := fetchAllData (User.id user) (store w) |} |}
  | None => {| auth := auth w; store := store w; app := signedOut |}
  end.

Definition handleAuthSuccess (user : User) (w : World) : World :=
  {| auth := auth w; store := store w;
     app := {| sessionUser := Some user;
               shown := fetchAllData (User.id user) (store w) |} |}.

Definition handleSignOut (w : World) : World :=
  {| auth := signOut (auth w); store := store w; app := signedOut |}.

Definition handleAddSale (env : Stamp) (newSaleData : SaleData) (w : World)
  : World :=
  match sessionUser (app w) with
  | None => w
  | Some currentUser =>
      let '(ls, newSale) :=
        addSale (User.id currentUser) newSaleData env (store w) in
      {| auth := auth w; store := ls;
         app := {| sessionUser := sessionUser (app w);
                   shown := {| sales := newSale :: sales (shown (app w));
                               partners := partners (shown (app w));
                               settlements := settlements (shown (app w)) |}
                |} |}
  end.

Definition handleAddPartner (env : Stamp) (newPartnerData : PartnerData)
    (w : World) : World :=
  match sessionUser (app w) with
  | None => w
  | Some currentUser =>
      let '(ls, newPartner) :=
        addPartner (User.id currentUser) newPartnerData env (store w) in
      {| auth := auth w; store := ls;
         app := {| sessionUser := sessionUser (app w);
                   shown := {| sales := sales (shown (app w));
                               partners :=
                                 partners (shown (app w)) ++ [newPartner];
                               settlements := settlements (shown (app w)) |}
                |} |}
  end.

Definition handleDeletePartner (id : string) (w : World) : World :=
  match sessionUser (app w) with
  | None => w
  | Some currentUser =>
      {| auth := auth w;
         store := deletePartner (User.id currentUser) id (store w);
         app := {| sessionUser := sessionUser (app w);
                   shown :=
                     {| sales := stripPartner id <$> sales (shown (app w));
                        partners :=
                          filter (λ p, Partner.id p ≠ id)
                            (partners (shown (app w)));
                        settlements :=
                          filter (λ s, Settlement.partnerId s ≠ id)
                            (settlements (shown (app w))) |} |} |}
  end.

Definition handleAddSettlement (env : Stamp)
    (newSettlementData : SettlementData) (w : World) : World :=
  match sessionUser (app w) with
  | None => w
  | Some currentUser =>
      let '(ls, newSettlement) :=
        addSettlement (User.id currentUser) newSettlementData env (store w) in
      {| auth := auth w; store := ls;
         app := {| sessionUser := sessionUser (app w);
                   shown := {| sales := sales (shown (app w));
                               partners := partners (shown (app w));
                               settlements :=
                                 settlements (shown (app w))
                                   ++ [newSettlement] |} |} |}
  end.

End UserApp.

(** ** [Auth] *)

Module Auth.

Inductive AuthView : Type := signin | signup.

(** The submit handler of the sign-in form, with [onAuthSuccess] bound to
    [handleAuthSuccess]; the second component is the [error] it leaves. *)
Definition handleSubmit (view : AuthView) (name email password : string)
    (uuid : string) (w : World) : World * string :=
  match view with
  | signup =>
      if is_empty (trim name) then (w, "Name is required.")
      else if (utf16_length password <? 6)%nat
      then (w, "Password must be at least 6 characters.")
      else
        match signUp name email password uuid (auth w) with
        | (ls, Resolve user) =>
            (UserApp.handleAuthSuccess user
               {| auth := ls; store := store w; app := app w |}, "")
        | (ls, Reject message) =>
            ({| auth := ls; store := store w; app := app w |}, message)
        end
  | signin =>
      match signIn email password (auth w) with
      | (ls, Resolve user) =>
          (UserApp.handleAuthSuccess user
             {| auth := ls; store := store w; app := app w |}, "")
      | (ls, Reject message) =>
          ({| auth := ls; store := store w; app := app w |}, message)
      end
  end.

End Auth.

(** One step of the application with accounts: a reload, a submitted
    sign-in form (the id of a new user is fresh), a sign-out, or one of the
    four changes of the ledger. *)
Inductive wstep : World → World → Prop :=
| wstep_reload w :
    wstep w (UserApp.checkAuthAndLoadData w)
| wstep_auth w view name email password uuid :
    uuid ∉ User.id <$> users (auth w) →
    wstep w (Auth.handleSubmit view name email password uuid w).1
| wstep_sign_out w :
    wstep w (UserApp.handleSignOut w)
| wstep_add_sale w env saleData :
    wstep w (UserApp.handleAddSale env saleData w)
| wstep_add_partner w env partnerData :
    wstep w (UserApp.handleAddPartner env partnerData w)
| wstep_delete_partner w id :
    wstep w (UserApp.handleDeletePartner id w)
| wstep_add_settlement w env settlementData :
    wstep w (UserApp.handleAddSettlement env settlementData w).

Definition wreachable (w : World) : Prop := rtc wstep initialWorld w.

(** What holds of the stored accounts: ids and emails are pairwise
    different, names are not blank, passwords have a [length] of at least
    6. *)
Definition accounts_ok (ls : AuthStorage) : Prop :=
  NoDup (User.id <$> users ls)
  ∧ NoDup (User.email <$> users ls)
  ∧ Forall (λ u, is_empty (trim (User.name u)) = false
                 ∧ ∃ p, User.passwordHash u = hashed p
                        ∧ (6 ≤ utf16_length p)%nat) (users ls).

(** The application shows what is stored: the session of the storage is
    the user of the application, and the three lists are the stored
    collections of that user (the empty ledger when nobody is signed in). *)
Definition coherent (w : World) : Prop :=
  match sessionUser (app w) with
  | Some u =>
      u ∈ users (auth w)
      ∧ currentUser (auth w) = Some (User.id u)
      ∧ shown (app w) = fetchAllData (User.id u) (store w)
  | None => currentUser (auth w) = None ∧ shown (app w) = initialState
  end.

Module Accounts.

(** Ann signs up, adds a partner and a sale, and signs out. *)
Definition w1 : World :=
  (Auth.handleSubmit Auth.signup "Ann" "ann@example.org" "secret1" "u1"
     initialWorld).1.
Definition w2 : World :=
  UserApp.handleAddPartner Example.envA Example.dataA w1.
Definition w3 : World := UserApp.handleAddSale Demo.env1 Demo.saleData w2.
Definition w4 : World := UserApp.handleSignOut w3.

End Accounts.

(** ** The rest of [AddSaleForm] *)

Module SaleForm.

(** [handlePartnerToggle], as a function of the previous selection. *)
Definition handlePartnerToggle (partnerId : string) (prev : list string)
  : list string :=
  if decide (partnerId ∈ prev)
  then filter (λ id, id ≠ partnerId) prev
  else prev ++ [partnerId].

(** The estimated profit under the form; [p] and [s] are the parsed price
    fields. *)
Definition profit (p s : number) : fragment :=
  if negb (Num.isNaN p) && negb (Num.isNaN s) && (s >=? p)%num
  then Fixed2 (s - p)%num
  else Text "0.00".

End SaleForm.

(** ** [SaleList] *)

Module SaleList.

Inductive SortOption : Type :=
| date_desc | date_asc | profit_desc | profit_asc | sold_desc | sold_asc.

(** The comparison function that each sort option passes to [sort]. *)
Definition compareFn (sortOption : SortOption) (a b : Sale) : number :=
  match sortOption with
  | date_asc => int (Sale.timestamp a - Sale.timestamp b)
  | profit_desc => (Sale.profit b - Sale.profit a)%num
  | profit_asc => (Sale.profit a - Sale.profit b)%num
  | sold_desc => (Sale.soldPrice b - Sale.soldPrice a)%num
  | sold_asc => (Sale.soldPrice a - Sale.soldPrice b)%num
  | date_desc => int (Sale.timestamp b - Sale.timestamp a)
  end.

(** [Array.prototype.sort] with a comparison function.  The sort of
    JavaScript is stable, and for a consistent comparison function its
    result is the one stable sorted arrangement of the array; this is what
    inserting the elements one after the other, each behind its equals,
    computes.  (For a comparison function that is not consistent the
    language leaves the order to the implementation.) *)
Fixpoint insert {A} (comparefn : A → A → number) (x : A) (l : list A)
  : list A :=
  match l with
  | [] => [x]
  | y :: l' =>
      if (comparefn y x >? 0)%num then x :: l
      else y :: insert comparefn x l'
  end.

Definition sort {A} (comparefn : A → A → number) (l : list A) : list A :=
  fold_left (λ sorted x, insert comparefn x sorted) l [].

(** [filteredAndSortedSales].  [startTimestamp] and [endTimestamp] are the
    bounds computed from the two date fields, [None] for an empty field. *)
Definition filteredAndSortedSales (sales : list Sale)
    (sortOption : SortOption) (startTimestamp endTimestamp : option Z)
  : list Sale :=
  let processedSales := sales in
  let processedSales :=
    match startTimestamp with
    | Some startTimestamp =>
        filter (λ sale, (startTimestamp ≤ Sale.timestamp sale)%Z)
          processedSales
    | None => processedSales
    end in
  let processedSales :=
    match endTimestamp with
    | Some endTimestamp =>
        filter (λ sale, (Sale.timestamp sale ≤ endTimestamp)%Z)
          processedSales
    | None => processedSales
    end in
  sort (compareFn sortOption) processedSales.

(** Whether a sale is inside the date range. *)
Definition in_range (startTimestamp endTimestamp : option Z) (sale : Sale)
  : bool :=
  match startTimestamp with
  | Some t => bool_decide (t ≤ Sale.timestamp sale)%Z
  | None => true
  end
  && match endTimestamp with
     | Some t => bool_decide (Sale.timestamp sale ≤ t)%Z
     | None => true
     end.

(** The order that a sort option asks for. *)
Definition ordered (sortOption : SortOption) (a b : Sale) : Prop :=
  match sortOption with
  | date_asc => (Sale.timestamp a ≤ Sale.timestamp b)%Z
  | date_desc => (Sale.timestamp b ≤ Sale.timestamp a)%Z
  | profit_asc => (Sale.profit a <=? Sale.profit b)%num = true
  | profit_desc => (Sale.profit b <=? Sale.profit a)%num = true
  | sold_asc => (Sale.soldPrice a <=? Sale.soldPrice b)%num = true
  | sold_desc => (Sale.soldPrice b <=? Sale.soldPrice a)%num = true
  end.

(** The sort keys of the sales are finite numbers (the timestamps always
    are). *)
Definition finite_keys (sortOption : SortOption) (sales : list Sale) : Prop :=
  match sortOption with
  | date_asc | date_desc => True
  | profit_asc | profit_desc =>
      Forall (λ s, Num.isFinite (Sale.profit s) = true) sales
  | sold_asc | sold_desc =>
      Forall (λ s, Num.isFinite (Sale.soldPrice s) = true) sales
  end.

(** The domain on which the comparison function of an option is
    consistent. *)
Definition finite_key (sortOption : SortOption) (a : Sale) : Prop :=
  match sortOption with
  | date_asc | date_desc => True
  | profit_asc | profit_desc => Num.isFinite (Sale.profit a) = true
  | sold_asc | sold_desc => Num.isFinite (Sale.soldPrice a) = true
  end.

(** [escapeCSV]: the string between double quotes, with every double quote
    of it doubled. *)
Definition quote : ascii := ascii_of_nat 34.

Fixpoint doubleQuotes (str : string) : string :=
  match str with
  | EmptyString => EmptyString
  | String c rest =>
      if decide (c = quote)
      then String quote (String quote (doubleQuotes rest))
      else String c (doubleQuotes rest)
  end.

Definition escapeCSV (str : string) : string :=
  String quote (doubleQuotes str +:+ String quote EmptyString).

End SaleList.

(** ** [Analytics] *)

Module Analytics.

Record Stats : Type := {
  profit : number;
  revenue : number
}.

Definition calculateStats (filteredSales : list Sale) : Stats :=
  fold_left
    (λ acc sale, {| profit := (profit acc + Sale.profit sale)%num;
                    revenue := (revenue acc + Sale.soldPrice sale)%num |})
    filteredSales {| profit := 0%num; revenue := 0%num |}.

(** The statistics of the day and of the month.  [todayStart] and
    [monthStart] are the timestamps of the last local midnight and of the
    first midnight of the month, which the source takes from [new Date()]. *)
Definition dailyStats (todayStart : Z) (sales : list Sale) : Stats :=
  calculateStats (filter (λ sale, (todayStart ≤ Sale.timestamp sale)%Z) sales).

Definition monthlyStats (monthStart : Z) (sales : list Sale) : Stats :=
  calculateStats (filter (λ sale, (monthStart ≤ Sale.timestamp sale)%Z) sales).

End Analytics.

(** ** [SalesHistoryChart] *)

Module SalesHistoryChart.

(** [Math.max] of two numbers and of a spread array: [NaN] if an argument
    is [NaN], [-Infinity] for no argument. *)
Definition max2 (a b : number) : number :=
  if Num.isNaN a || Num.isNaN b then NaN
  else if (a <? b)%num then b else a.

Definition mathMax (xs : list number) : number := fold_left max2 xs NegInf.

(** [maxValue], from the values [chartData.map(d => d[dataType])]. *)
Definition maxValue (values : list number) : number :=
  if decide (length values = 0%nat) then int 1
  else
    let max := mathMax values in
    if (max >? 0)%num then max else int 1.

(** The height of the bar of one value. *)
Definition barHeight (value maxValue : number) : number :=
  if (value >? 0)%num then (value / maxValue * int 180)%num else 0%num.

End SalesHistoryChart.

(** A sale as the sale form lets it through: the margin of the
    specification, and a purchase price that is a number and not negative. *)
Definition valid_prices (sale : Sale) : Prop :=
  has_margin sale
  ∧ Num.isNaN (Sale.purchasePrice sale) = false
  ∧ (Sale.purchasePrice sale <? 0)%num = false.

(** The two prices of every sale of a state are finite. *)
Definition finite_prices (st : AppState) : Prop :=
  Forall (λ s, Num.isFinite (Sale.purchasePrice s) = true
               ∧ Num.isFinite (Sale.soldPrice s) = true) (sales st).


(** Every settlement of a state names a partner of the state. *)
Definition referenced (st : AppState) : Prop :=
  Forall (λ t, Settlement.partnerId t ∈ Partner.id <$> partners st)
    (settlements st).

(** ** Double precision

    The numbers of the source are IEEE 754 binary64 values, and every
    [+], [-], [*] and [/] of the source rounds its exact result to the nearest
    of them, ties to the even significand.  [Num.add] and its companions
    above give the exact result; the operations of this module round it.

    The finite binary64 values are the multiples [R * 2^-1074] of the least
    subnormal whose count [R] has at most 53 significant bits and lies below
    [2^2098] (the value [2^1024]).  The sign of zero is not kept. *)

Module Binary64.

(** [a / b] rounded to the nearest integer, ties to even, for [0 <= a] and
    [0 < b]. *)
Definition rne_div (a b : Z) : Z :=
  let f := (a / b)%Z in
  match (2 * (a mod b) ?= b)%Z with
  | Lt => f
  | Gt => (f + 1)%Z
  | Eq => if Z.even f then f else (f + 1)%Z
  end.

(** The exponent of the last place, counted from [2^-1074], of a value of
    [F] units and a fraction: the count keeps 53 bits. *)
Definition ulp_exp (F : Z) : Z := Z.max (Z.log2 F - 52) 0.

(** The count of the binary64 value nearest to [n / d], for [0 <= n] and
    [0 < d]. *)
Definition round_units (n d : Z) : Z :=
  let N := (n * 2 ^ 1074)%Z in
  let e := ulp_exp (N / d) in
  (rne_div N (d * 2 ^ e) * 2 ^ e)%Z.

(** The counts of the binary64 values: nothing below the last place. *)
Definition exact_units (R : Z) : Prop := (R mod 2 ^ ulp_exp R = 0)%Z.

(** A count of units as a number: [2^2098] units and more overflow to the
    infinity of the sign. *)
Definition of_units (negative : bool) (R : Z) : number :=
  if (2 ^ 2098 <=? R)%Z then (if negative then NegInf else PosInf)
  else Fin (Q2Qc ((if negative then - R else R)%Z # 2 ^ 1074)).

(** The binary64 value nearest to [q]. *)
Definition round (q : Qc) : number :=
  match Qnum q with
  | Z0 => Fin 0
  | Zpos n => of_units false (round_units (Zpos n) (Zpos (Qden q)))
  | Zneg n => of_units true (round_units (Zpos n) (Zpos (Qden q)))
  end.

(** Rounding of a result: the special values are kept. *)
Definition fl (x : number) : number :=
  match x with Fin q => round q | _ => x end.

Definition add (x y : number) : number := fl (Num.add x y).
Definition sub (x y : number) : number := fl (Num.sub x y).
Definition mul (x y : number) : number := fl (Num.mul x y).
Definition div (x y : number) : number := fl (Num.div x y).

(** [parseFloat] of a decimal literal: [decimal 1840 2] is [18.40]. *)
Definition decimal (digits : Z) (places : positive) : number :=
  round (Q2Qc (digits # 10 ^ places)).

(** Equality of numbers, decided on the fractions. *)
Definition eqb (x y : number) : bool :=
  match x, y with
  | NaN, NaN | NegInf, NegInf | PosInf, PosInf => true
  | Fin a, Fin b => Qc_eq_bool a b
  | _, _ => false
  end.

(** A value of the kernel's hardware floats as a number. *)
Definition of_spec_float (x : spec_float) : number :=
  match x with
  | S754_zero _ => Fin 0
  | S754_infinity s => if s then NegInf else PosInf
  | S754_nan => NaN
  | S754_finite s m e =>
      let m := (if s then Zneg m else Zpos m) in
      Fin (Q2Qc (match e with
                 | Z0 => m # 1
                 | Zpos e => (m * 2 ^ Zpos e)%Z # 1
                 | Zneg e => m # 2 ^ e
                 end))
  end.

Definition of_float (x : float) : number := of_spec_float (Prim2SF x).

End Binary64.

(** ** The ledger in double precision

    The part of the source whose results depend on how its sums round,
    with the arithmetic of [Binary64]: the creation of a sale, the partner
    form, the balance computation and the settle check.  The records, the
    other handlers and the comparisons are those above. *)

Module Rounded.

(** [profit: newSaleData.soldPrice - newSaleData.purchasePrice] *)
Definition newSale (env : Stamp) (saleData : SaleData) : Sale :=
  {| Sale.id := uuid env;
     Sale.name := sd_name saleData;
     Sale.description := sd_description saleData;
     Sale.purchasePrice := sd_purchasePrice saleData;
     Sale.soldPrice := sd_soldPrice saleData;
     Sale.profit :=
       Binary64.sub (sd_soldPrice saleData) (sd_purchasePrice saleData);
     Sale.timestamp := now env;
     Sale.partnerIds := sd_partnerIds saleData |}.

Definition handleAddSale (env : Stamp) (newSaleData : SaleData)
    (st : AppState) : AppState :=
  {| sales := newSale env newSaleData :: sales st;
     partners := partners st;
     settlements := settlements st |}.

Module PartnerManagement.

(** [partners.reduce((sum, p) => sum + p.percentage, 0)] *)
Definition totalPercentage (partners : list Partner) : number :=
  fold_left (λ sum p, Binary64.add sum (Partner.percentage p)) partners 0%num.

(** [perc] is [parseFloat(percentage)]. *)
Definition handleSubmit (partners : list Partner)
    (name : string) (perc : number) : outcome PartnerData :=
  if is_empty (trim name) then Rejected InvalidPartnerName
  else if Num.isNaN perc || (perc <=? 0)%num || (perc >? 100)%num
  then Rejected InvalidPercentage
  else if (Binary64.add (totalPercentage partners) perc >? 100)%num
  then Rejected (AllocationExceeded (totalPercentage partners))
  else Submitted {| pd_name := name; pd_percentage := perc |}.

(** [(sale.profit * partner.percentage) / 100] *)
Definition cut (sale : Sale) (partner : Partner) : number :=
  Binary64.div
    (Binary64.mul (Sale.profit sale) (Partner.percentage partner)) 100%num.

(** The body of [assignedPartners.forEach]. *)
Definition creditPartner (sale : Sale) (balances : gmap string number)
    (partner : Partner) : gmap string number :=
  let currentBalance := Num.or_zero (balances !! Partner.id partner) in
  <[Partner.id partner := Binary64.add currentBalance (cut sale partner)]>
    balances.

(** The body of [sales.forEach]. *)
Definition creditSale (partners : list Partner)
    (balances : gmap string number) (sale : Sale) : gmap string number :=
  let assignedPartners :=
    filter (λ p, Partner.id p ∈ Sale.partnerIds sale) partners in
  if (0 <? length assignedPartners)%nat
  then fold_left (creditPartner sale) assignedPartners balances
  else balances.

(** The body of [settlements.forEach]. *)
Definition debitSettlement (balances : gmap string number)
    (settlement : Settlement) : gmap string number :=
  let currentBalance :=
    Num.or_zero (balances !! Settlement.partnerId settlement) in
  <[Settlement.partnerId settlement :=
      Binary64.sub currentBalance (Settlement.amount settlement)]> balances.

Definition partnerBalances (partners : list Partner) (sales : list Sale)
    (settlements : list Settlement) : gmap string number :=
  let balances := fold_left (λ b p, <[Partner.id p := 0%num]> b) partners ∅ in
  let balances := fold_left (creditSale partners) sales balances in
  fold_left debitSettlement settlements balances.

(** [amount] is [parseFloat(settlementAmount)]. *)
Definition handleSettle (partners : list Partner) (sales : list Sale)
    (settlements : list Settlement) (settlementPartner : option Partner)
    (amount : number) : outcome SettlementData :=
  match settlementPartner with
  | None => Ignored
  | Some settlementPartner =>
      let owed :=
        Num.or_zero (partnerBalances partners sales settlements
                       !! Partner.id settlementPartner) in
      if Num.isNaN amount || (amount <=? 0)%num then Rejected InvalidAmount
      else if (amount >? owed)%num then Rejected (ExceedsOwed owed)
      else Submitted {| td_partnerId := Partner.id settlementPartner;
                        td_amount := amount |}
  end.

End PartnerManagement.

(** One committed action of the user. *)
Inductive step : AppState → AppState → Prop :=
| step_add_sale st env name description pPrice sPrice selected saleData :
    AddSaleForm.handleSubmit name description pPrice sPrice selected
      = Submitted saleData →
    step st (handleAddSale env saleData st)
| step_add_partner st env name perc partnerData :
    PartnerManagement.handleSubmit (partners st) name perc
      = Submitted partnerData →
    step st (handleAddPartner env partnerData st)
| step_delete_partner st id :
    step st (handleDeletePartner id st)
| step_settle st env partner amount settlementData :
    PartnerManagement.handleSettle (partners st) (sales st) (settlements st)
      (Some partner) amount = Submitted settlementData →
    step st (handleAddSettlement env settlementData st).

Definition reachable (st : AppState) : Prop := rtc step initialState st.

(** *** Specification-side definitions *)

(** The sum of the percentages of a partner list, added up from the left. *)
Definition percentage_sum (partners : list Partner) : number :=
  fold_left Binary64.add (Partner.percentage <$> partners) 0%num.

(** The balance of a partner as a running total: from [0], the share of
    every sale that lists the partner is added in the order of the sales,
    then the amount of every settlement that names the partner is taken off
    in the order of the settlements.  Each step reads the total it continues
    with [|| 0]. *)
Definition running_balance (partner : Partner) (sales : list Sale)
    (settlements : list Settlement) : number :=
  fold_left
    (λ total t,
       Binary64.sub (Num.or_zero (Some total)) (Settlement.amount t))
    (filter (λ t, Settlement.partnerId t = Partner.id partner) settlements)
    (fold_left
       (λ total sale,
          Binary64.add (Num.or_zero (Some total))
            (Binary64.div
               (Binary64.mul (Sale.profit sale) (Partner.percentage partner))
               100%num))
       (filter (λ sale, Partner.id partner ∈ Sale.partnerIds sale) sales)
       0%num).

(** The closed formula of the specification, computed in double precision:
    the sum of the shares minus the sum of the amounts. *)
Definition balance (partner : Partner) (sales : list Sale)
    (settlements : list Settlement) : number :=
  Binary64.sub
    (fold_left Binary64.add
       ((λ sale,
           Binary64.div
             (Binary64.mul (Sale.profit sale) (Partner.percentage partner))
             100%num) <$>
          filter (λ sale, Partner.id partner ∈ Sale.partnerIds sale) sales)
       0%num)
    (fold_left Binary64.add
       (Settlement.amount <$>
          filter (λ t, Settlement.partnerId t = Partner.id partner)
            settlements)
       0%num).

(** What the writes of [partnerBalances] do to one key: [bump] and
    [shares] with the rounded operations; [payments] is as above, a
    subtraction being the addition of the opposite. *)
Definition bump (entry : option number) (x : number) : option number :=
  Some (Binary64.add (Num.or_zero entry) x).

Definition shares (k : string) (partners : list Partner) (sale : Sale)
  : list number :=
  PartnerManagement.cut sale <$>
    filter (λ p, Partner.id p = k)
      (filter (λ p, Partner.id p ∈ Sale.partnerIds sale) partners).

Definition deltas (k : string) (partners : list Partner) (sales : list Sale)
    (settlements : list Settlement) : list number :=
  (sales ≫= shares k partners) ++ payments k settlements.

(** *** Worked ledgers *)

(** A partner with the whole profit. *)
Definition P : Partner := Partner.mk "P" "Pat" (int 100).

(** A sale bought for nothing and sold for [sold], as the sale form and
    [handleAddSale] create it. *)
Definition sale (id : string) (sold : number) : Sale :=
  newSale {| uuid := id; now := 1 |}
    {| sd_name := "item"; sd_description := Some "";
       sd_purchasePrice := int 0; sd_soldPrice := sold;
       sd_partnerIds := ["P"] |}.

Definition pay (amount : number) : Settlement :=
  Settlement.mk "t" "P" amount 2.

(** One sale of 18.40 and two payments, of 3.54 and of 3.79. *)
Definition sales1 : list Sale := [sale "s" (Binary64.decimal 1840 2)].
Definition settlements1 : list Settlement :=
  [pay (Binary64.decimal 354 2); pay (Binary64.decimal 379 2)].

(** Three sales, of 0.10, 0.20 and 0.30, in two orders. *)
Definition sales2 : list Sale :=
  [sale "a" (Binary64.decimal 10 2); sale "b" (Binary64.decimal 20 2);
   sale "c" (Binary64.decimal 30 2)].
Definition sales2' : list Sale :=
  [sale "c" (Binary64.decimal 30 2); sale "b" (Binary64.decimal 20 2);
   sale "a" (Binary64.decimal 10 2)].

(** Partners of 0.1% and 0.2% are added through the form, then one of
    99.7%; then the first is deleted. *)
Definition two : AppState :=
  handleAddPartner {| uuid := "b"; now := 2 |}
    {| pd_name := "Bo"; pd_percentage := Binary64.decimal 2 1 |}
    (handleAddPartner {| uuid := "a"; now := 1 |}
       {| pd_name := "Al"; pd_percentage := Binary64.decimal 1 1 |}
       initialState).

Definition three : AppState :=
  handleAddPartner {| uuid := "c"; now := 3 |}
    {| pd_name := "Cy"; pd_percentage := Binary64.decimal 997 1 |} two.

Definition fractions : AppState := handleDeletePartner "a" three.

End Rounded.

(** * Properties *)

(** Closed equations between numbers: evaluate both sides, then compare the
    fractions. *)
Ltac num_eq :=
  vm_compute;
  repeat first
    [ reflexivity
    | apply (f_equal (@Some number))
    | apply (f_equal Fin)
    | apply (f_equal (@Rejected SettlementData))
    | apply (f_equal (@Rejected PartnerData))
    | apply (f_equal ExceedsOwed)
    | apply (f_equal AllocationExceeded)
    | apply Qc_is_canon ].

(** ** Arithmetic of [number] *)

Section Arithmetic.

Implicit Types x y z : number.

Lemma Qccompare_antisym (a b : Qc) : (b ?= a) = CompOpp (a ?= b).
Proof. unfold Qccompare. symmetry. apply Qcompare_antisym. Qed.

Lemma num_add_comm x y : (x + y)%num = (y + x)%num.
Proof. destruct x, y; simpl; try done. by rewrite Qcplus_comm. Qed.

Lemma num_add_assoc x y z : (x + (y + z))%num = (x + y + z)%num.
Proof. destruct x, y, z; simpl; try done. by rewrite Qcplus_assoc. Qed.

Lemma num_add_0_l x : (0 + x)%num = x.
Proof. destruct x; simpl; try done. by rewrite Qcplus_0_l. Qed.

Lemma num_add_0_r x : (x + 0)%num = x.
Proof. by rewrite num_add_comm, num_add_0_l. Qed.

(** Apart from [NaN], [>] is the negation of [<=]. *)
Lemma num_gt_not_le x y :
  Num.isNaN x = false → Num.isNaN y = false →
  (x >? y)%num = negb (x <=? y)%num.
Proof.
  destruct x, y; simpl; try done. intros _ _.
  rewrite (Qccompare_antisym q). by destruct (q ?= q0).
Qed.


Lemma num_lt_not_NaN x y : (x <? y)%num = true → Num.isNaN x = false ∧ Num.isNaN y = false.
Proof. by destruct x, y. Qed.

Lemma finite_not_NaN x : Num.isFinite x = true → Num.isNaN x = false.
Proof. by destruct x. Qed.

Lemma or_zero_Some x : Num.isNaN x = false → Num.or_zero (Some x) = x.
Proof.
  destruct x; simpl; try done. intros _.
  unfold Num.truthy, Num.is_zero, Num.sgn; simpl.
  destruct (q ?= 0) eqn:E; try done.
  apply Qceq_alt in E. by subst.
Qed.

Lemma num_add_finite x y :
  Num.isFinite x = true → Num.isFinite y = true → Num.isFinite (x + y) = true.
Proof. by destruct x, y. Qed.

Lemma num_neg_finite x : Num.isFinite x = true → Num.isFinite (Num.neg x) = true.
Proof. by destruct x. Qed.

Lemma cut_finite sale p :
  Num.isFinite (Sale.profit sale) = true →
  Num.isFinite (Partner.percentage p) = true →
  Num.isFinite (cut sale p) = true.
Proof.
  unfold cut. by destruct (Sale.profit sale), (Partner.percentage p).
Qed.

End Arithmetic.

(** ** Sums *)

Section Totals.

Implicit Types xs ys : list number.

Lemma total_cons x xs : total (x :: xs) = (x + total xs)%num.
Proof. reflexivity. Qed.

Lemma total_finite xs :
  Forall (λ x, Num.isFinite x = true) xs → Num.isFinite (total xs) = true.
Proof.
  induction 1 as [|x xs Hx _ IH]; [done|].
  rewrite total_cons. by apply num_add_finite.
Qed.

End Totals.

(** ** The balance map, one key at a time *)

Section Entries.

Implicit Types (k : string) (balances : gmap string number).
Implicit Types (partners : list Partner) (sales : list Sale).
Implicit Types (settlements : list Settlement).

(** A loop over a map, seen from one key. *)
Lemma fold_left_lookup {A} (f : gmap string number → A → gmap string number)
    (g : option number → A → option number) k (l : list A) balances :
  (∀ m a, f m a !! k = g (m !! k) a) →
  fold_left f l balances !! k = fold_left g l (balances !! k).
Proof.
  intros Hfg. revert balances.
  induction l as [|a l IH]; intros balances; simpl; [done|].
  by rewrite IH, Hfg.
Qed.

(** Skipping the elements that leave the accumulator alone. *)
Lemma fold_left_filter {A B} (P : A → Prop) `{!∀ x, Decision (P x)}
    (g : B → A → B) (h : B → A → B) (l : list A) (b : B) :
  (∀ b a, P a → g b a = h b a) →
  (∀ b a, ¬ P a → g b a = b) →
  fold_left g l b = fold_left h (filter P l) b.
Proof.
  intros Hin Hout. revert b.
  induction l as [|a l IH]; intros b; simpl; [done|].
  rewrite filter_cons. case_decide.
  - simpl. by rewrite Hin, IH.
  - by rewrite Hout, IH.
Qed.

Lemma fold_left_fmap {A B C} (f : A → B) (g : C → B → C) (l : list A) (c : C) :
  fold_left g (f <$> l) c = fold_left (λ c a, g c (f a)) l c.
Proof. revert c. induction l; intros c; simpl; auto. Qed.

Lemma initial_lookup k partners balances :
  fold_left (λ b p, <[Partner.id p := 0%num]> b) partners balances !! k
  = if decide (k ∈ Partner.id <$> partners) then Some 0%num else balances !! k.
Proof.
  revert balances.
  induction partners as [|p partners IH]; intros balances.
  - destruct (decide _) as [H|]; [|done]. by apply elem_of_nil in H.
  - change (fold_left _ (p :: partners) balances)
      with (fold_left (λ b p, <[Partner.id p := 0%num]> b) partners
              (<[Partner.id p := 0%num]> balances)).
    rewrite IH, fmap_cons.
    destruct (decide (k ∈ Partner.id <$> partners)) as [Hin|Hout].
    + rewrite decide_True; [done|]. by apply list_elem_of_further.
    + rewrite lookup_insert.
      destruct (decide (Partner.id p = k)) as [<-|Hne].
      * rewrite decide_True; [done|]. apply list_elem_of_here.
      * rewrite decide_False; [done|].
        intros [?|?]%elem_of_cons; congruence.
Qed.

Lemma creditPartner_lookup sale balances p k :
  creditPartner sale balances p !! k
  = if decide (Partner.id p = k) then bump (balances !! k) (cut sale p)
    else balances !! k.
Proof.
  unfold creditPartner. rewrite lookup_insert.
  case_decide; by subst.
Qed.

(** The length guard of [creditSale] guards a loop that an empty list would
    not enter anyway. *)
Lemma creditSale_unguarded partners balances sale :
  creditSale partners balances sale
  = fold_left (creditPartner sale)
      (filter (λ p, Partner.id p ∈ Sale.partnerIds sale) partners) balances.
Proof.
  unfold creditSale.
  by destruct (filter _ partners).
Qed.

Lemma creditSale_lookup partners balances sale k :
  creditSale partners balances sale !! k
  = fold_left bump (shares k partners sale) (balances !! k).
Proof.
  rewrite creditSale_unguarded. unfold shares.
  rewrite fold_left_fmap.
  rewrite (fold_left_lookup _
    (λ o p, if decide (Partner.id p = k) then bump o (cut sale p) else o))
    by (intros; apply creditPartner_lookup).
  apply fold_left_filter; intros; by case_decide.
Qed.

Lemma fold_left_bind {A B C} (f : A → list B) (g : C → B → C) (l : list A) (c : C) :
  fold_left g (l ≫= f) c = fold_left (λ c a, fold_left g (f a) c) l c.
Proof.
  revert c. induction l as [|a l IH]; intros c; [done|].
  rewrite bind_cons, fold_left_app. apply IH.
Qed.

Lemma debitSettlement_lookup balances t k :
  debitSettlement balances t !! k
  = if decide (Settlement.partnerId t = k)
    then bump (balances !! k) (Num.neg (Settlement.amount t))
    else balances !! k.
Proof.
  unfold debitSettlement. rewrite lookup_insert.
  case_decide; by subst.
Qed.

Lemma settlements_lookup settlements balances k :
  fold_left debitSettlement settlements balances !! k
  = fold_left bump (payments k settlements) (balances !! k).
Proof.
  unfold payments. rewrite fold_left_fmap.
  rewrite (fold_left_lookup _
    (λ o t, if decide (Settlement.partnerId t = k)
            then bump o (Num.neg (Settlement.amount t)) else o))
    by (intros; apply debitSettlement_lookup).
  apply fold_left_filter; intros; by case_decide.
Qed.

(** The entry of [k] in the computed balances. *)
Lemma partnerBalances_lookup partners sales settlements k :
  partnerBalances partners sales settlements !! k
  = fold_left bump (deltas k partners sales settlements) (initial k partners).
Proof.
  unfold partnerBalances, deltas, initial.
  rewrite settlements_lookup, fold_left_app. f_equal.
  rewrite fold_left_bind.
  rewrite (fold_left_lookup _ (λ o sale, fold_left bump (shares k partners sale) o))
    by (intros; apply creditSale_lookup).
  f_equal. rewrite initial_lookup. by rewrite lookup_empty.
Qed.

(** On finite amounts no entry is ever reset by [|| 0]: the entry is the
    starting value plus the sum of what was added. *)
Lemma bump_finite (xs : list number) (x : number) :
  Num.isFinite x = true →
  Forall (λ y, Num.isFinite y = true) xs →
  fold_left bump xs (Some x) = Some (x + total xs)%num.
Proof.
  intros Hx Hxs. revert x Hx.
  induction Hxs as [|y ys Hy _ IH]; intros x Hx.
  - cbn [fold_left total foldr]. by rewrite num_add_0_r.
  - cbn [fold_left]. unfold bump at 2.
    rewrite or_zero_Some by by apply finite_not_NaN.
    rewrite IH by by apply num_add_finite.
    by rewrite total_cons, num_add_assoc.
Qed.

Lemma bump_finite_None (xs : list number) :
  xs ≠ [] →
  Forall (λ y, Num.isFinite y = true) xs →
  fold_left bump xs None = Some (total xs).
Proof.
  intros Hne Hxs. destruct Hxs as [|y ys Hy Hys]; [done|].
  cbn [fold_left]. unfold bump at 2. cbn [Num.or_zero].
  rewrite num_add_0_l, bump_finite by done.
  by rewrite total_cons.
Qed.

End Entries.

(** ** The entry of a partner *)

Section Balance.

Implicit Types (partners : list Partner) (sales : list Sale).
Implicit Types (settlements : list Settlement) (p : Partner).

Lemma filter_absent_id partners k (Q : Partner → Prop) `{!∀ x, Decision (Q x)} :
  k ∉ Partner.id <$> partners →
  filter (λ x, Partner.id x = k ∧ Q x) partners = [].
Proof.
  intros Hk. induction partners as [|a partners IH]; [done|].
  rewrite fmap_cons in Hk. apply not_elem_of_cons in Hk as [Hne Hk].
  rewrite filter_cons, decide_False by (intros [? _]; congruence).
  by apply IH.
Qed.

(** With unique identities, the partners of identity [id p] are [p] alone. *)
Lemma filter_unique_id partners p (Q : Partner → Prop) `{!∀ x, Decision (Q x)} :
  unique_ids partners → p ∈ partners →
  filter (λ x, Partner.id x = Partner.id p ∧ Q x) partners
  = if decide (Q p) then [p] else [].
Proof.
  unfold unique_ids. intros Hnd Hp.
  induction partners as [|a partners IH]; [by apply elem_of_nil in Hp|].
  rewrite fmap_cons in Hnd. apply NoDup_cons in Hnd as [Ha Hnd].
  rewrite filter_cons.
  apply elem_of_cons in Hp as [->|Hp].
  - rewrite (filter_absent_id partners (Partner.id a)) by done.
    destruct (decide (Q a)).
    + by rewrite decide_True.
    + rewrite decide_False; [done|]. by intros [_ ?].
  - rewrite decide_False.
    + by apply IH.
    + intros [Heq _]. apply Ha. rewrite Heq.
      by apply list_elem_of_fmap_2.
Qed.

Lemma shares_absent k partners sales :
  k ∉ Partner.id <$> partners → sales ≫= shares k partners = [].
Proof.
  intros Hk. induction sales as [|s sales IH]; [done|].
  rewrite bind_cons, IH, app_nil_r. unfold shares.
  by rewrite list_filter_filter, filter_absent_id.
Qed.

Lemma shares_finite k partners sales :
  Forall (λ p, Num.isFinite (Partner.percentage p) = true) partners →
  Forall (λ s, Num.isFinite (Sale.profit s) = true) sales →
  Forall (λ x, Num.isFinite x = true) (sales ≫= shares k partners).
Proof.
  rewrite !Forall_forall. intros HP HS x Hx.
  apply list_elem_of_bind in Hx as (s & Hx & Hs).
  unfold shares in Hx. apply list_elem_of_fmap in Hx as (p & -> & Hp).
  apply list_elem_of_filter in Hp as [_ Hp].
  apply list_elem_of_filter in Hp as [_ Hp].
  apply cut_finite; auto.
Qed.

Lemma payments_finite k settlements :
  Forall (λ t, Num.isFinite (Settlement.amount t) = true) settlements →
  Forall (λ x, Num.isFinite x = true) (payments k settlements).
Proof.
  rewrite !Forall_forall. intros HT x Hx.
  unfold payments in Hx. apply list_elem_of_fmap in Hx as (t & -> & Ht).
  apply list_elem_of_filter in Ht as [_ Ht].
  apply num_neg_finite; auto.
Qed.

Lemma deltas_finite k partners sales settlements :
  finite_amounts partners sales settlements →
  Forall (λ x, Num.isFinite x = true) (deltas k partners sales settlements).
Proof.
  intros (HP & HS & HT). apply Forall_app.
  auto using shares_finite, payments_finite.
Qed.

Lemma initial_member p partners :
  p ∈ partners → initial (Partner.id p) partners = Some 0%num.
Proof.
  intros Hp. unfold initial. rewrite decide_True; [done|].
  by apply list_elem_of_fmap_2.
Qed.

(** The entry of every key the map has, on finite amounts. *)
Lemma partnerBalances_finite partners sales settlements k :
  finite_amounts partners sales settlements →
  partnerBalances partners sales settlements !! k
  = if decide (k ∈ Partner.id <$> partners
               ∨ k ∈ Settlement.partnerId <$> settlements)
    then Some (total (deltas k partners sales settlements))
    else None.
Proof.
  intros Hfin. rewrite partnerBalances_lookup.
  pose proof (deltas_finite k _ _ _ Hfin) as Hd.
  unfold initial. destruct (decide (k ∈ Partner.id <$> partners)) as [Hk|Hk].
  - rewrite decide_True by auto.
    by rewrite bump_finite, num_add_0_l.
  - destruct (decide (k ∈ Settlement.partnerId <$> settlements)) as [Ht|Ht].
    + rewrite decide_True by auto.
      apply bump_finite_None; [|done].
      apply list_elem_of_fmap in Ht as (t & -> & Ht).
      unfold deltas, payments. intros Hnil.
      apply app_eq_nil in Hnil as [_ Hnil].
      apply fmap_nil_inv in Hnil.
      assert (t ∈ filter (λ t', Settlement.partnerId t' = Settlement.partnerId t)
                settlements) as Hin by by apply list_elem_of_filter.
      rewrite Hnil in Hin. by apply elem_of_nil in Hin.
    + rewrite decide_False by tauto.
      assert (deltas k partners sales settlements = []) as ->; [|done].
      unfold deltas, payments.
      rewrite shares_absent by done.
      assert (filter (λ t, Settlement.partnerId t = k) settlements = []) as ->;
        [|done].
      apply elem_of_nil_inv. intros t [Heq Hin]%list_elem_of_filter.
      apply Ht. subst k. by apply list_elem_of_fmap_2.
Qed.

End Balance.

Lemma shares_unassigned k partners sales :
  (∀ s, s ∈ sales → k ∉ Sale.partnerIds s) →
  sales ≫= shares k partners = [].
Proof.
  intros Hs. induction sales as [|s sales IH]; [done|].
  rewrite bind_cons, IH, app_nil_r
    by (intros; apply Hs; by apply list_elem_of_further).
  unfold shares. rewrite list_filter_filter.
  apply elem_of_nil_inv. intros x.
  rewrite list_elem_of_fmap. intros (p & _ & [[<- Hin] _]%list_elem_of_filter).
  by apply (Hs s); [apply list_elem_of_here|].
Qed.

Lemma payments_unsettled k settlements :
  (∀ t, t ∈ settlements → Settlement.partnerId t ≠ k) →
  payments k settlements = [].
Proof.
  intros Ht. unfold payments.
  assert (filter (λ t, Settlement.partnerId t = k) settlements = []) as ->;
    [|done].
  apply elem_of_nil_inv. intros t [Heq Hin]%list_elem_of_filter.
  by apply (Ht t).
Qed.

(** ** Settling (C2, C7) *)

Section Settling.

Implicit Types (partners : list Partner) (sales : list Sale).
Implicit Types (settlements : list Settlement) (p : Partner).

(** The amount guard of [handleSettle] lets through exactly the numbers
    above zero. *)
Lemma amount_guard (a : number) :
  Num.isNaN a || (a <=? 0)%num = negb (0 <? a)%num.
Proof.
  destruct (Num.isNaN a) eqn:Ha.
  - by destruct a.
  - change (0 <? a)%num with (a >? 0)%num.
    by rewrite num_gt_not_le, negb_involutive.
Qed.

(** What [handleSettle] compares the amount with. *)
Lemma owed_guard (a b : number) :
  (0 <? a)%num = true →
  (a >? Num.or_zero (Some b))%num = negb (a <=? b)%num.
Proof.
  intros Ha. destruct (Num.isNaN b) eqn:Hb.
  - destruct b; try done. by destruct a.
  - rewrite or_zero_Some by done.
    apply num_gt_not_le; [|done]. by apply num_lt_not_NaN in Ha as [_ ?].
Qed.

Lemma handleSettle_Submitted partners sales settlements p a b d :
  partnerBalances partners sales settlements !! Partner.id p = Some b →
  handleSettle partners sales settlements (Some p) a = Submitted d ↔
  ((0 <? a)%num = true ∧ (a <=? b)%num = true)
  ∧ d = {| td_partnerId := Partner.id p; td_amount := a |}.
Proof.
  intros Hb. unfold handleSettle. rewrite Hb, amount_guard.
  destruct (0 <? a)%num eqn:Ha; cbn [negb].
  - rewrite owed_guard by done.
    destruct (a <=? b)%num; cbn [negb].
    + split; [by intros [= <-]|by intros [_ ->]].
    + split; [done|]. by intros [[_ ?] _].
  - split; [done|]. by intros [[? _] _].
Qed.

Lemma partnerBalances_snoc partners sales settlements t :
  partnerBalances partners sales (settlements ++ [t])
  = debitSettlement (partnerBalances partners sales settlements) t.
Proof. unfold partnerBalances. by rewrite fold_left_app. Qed.

End Settling.




(** ** The order of numbers and the percentage guard *)

Section Allocation.

Implicit Types (x y z : number) (partners : list Partner).

Lemma num_le_Fin (a b : Qc) : (Fin a <=? Fin b)%num = true ↔ (a ≤ b)%Qc.
Proof.
  simpl. rewrite Qcle_alt.
  destruct (a ?= b); split; congruence.
Qed.

Lemma num_lt_Fin (a b : Qc) : (Fin a <? Fin b)%num = true ↔ (a < b)%Qc.
Proof.
  simpl. rewrite Qclt_alt.
  destruct (a ?= b); split; congruence.
Qed.

Lemma num_le_trans x y z :
  (x <=? y)%num = true → (y <=? z)%num = true → (x <=? z)%num = true.
Proof.
  destruct x, y, z; try done.
  rewrite !num_le_Fin. apply Qcle_trans.
Qed.

Lemma percentage_guard x :
  Num.isNaN x || (x <=? 0)%num || (x >? 100)%num = false ↔
  (0 <? x)%num = true ∧ (x <=? 100)%num = true.
Proof.
  rewrite amount_guard. destruct (0 <? x)%num eqn:Hx; cbn [negb orb].
  - rewrite num_gt_not_le; [|by apply num_lt_not_NaN in Hx as [_ ?]|done].
    destruct (x <=? 100)%num; cbn [negb]; split; try done. by intros [_ ?].
  - split; [done|]. by intros [? _].
Qed.

Lemma Forall_filter_keep {A} (P Q : A → Prop) `{!∀ a, Decision (P a)}
    (l : list A) : Forall Q l → Forall Q (filter P l).
Proof.
  rewrite !Forall_forall. intros Hall a [_ Ha]%list_elem_of_filter. auto.
Qed.

End Allocation.

(** ** Creating a sale (C9) *)

Lemma price_guard (pPrice sPrice : number) :
  Num.isNaN pPrice || Num.isNaN sPrice || (pPrice <? 0)%num || (sPrice <? 0)%num
    = false ↔
  Num.isNaN pPrice = false ∧ Num.isNaN sPrice = false
  ∧ (pPrice <? 0)%num = false ∧ (sPrice <? 0)%num = false.
Proof. rewrite !orb_false_iff. tauto. Qed.

Lemma AddSaleForm_Submitted name description pPrice sPrice selected d :
  AddSaleForm.handleSubmit name description pPrice sPrice selected
    = Submitted d ↔
  is_empty (trim name) = false
  ∧ (Num.isNaN pPrice = false ∧ Num.isNaN sPrice = false
     ∧ (pPrice <? 0)%num = false ∧ (sPrice <? 0)%num = false)
  ∧ (sPrice <? pPrice)%num = false
  ∧ d = {| sd_name := name; sd_description := Some description;
           sd_purchasePrice := pPrice; sd_soldPrice := sPrice;
           sd_partnerIds := selected |}.
Proof.
  unfold AddSaleForm.handleSubmit. rewrite <- price_guard.
  destruct (is_empty (trim name)).
  { split; [done|]. by intros [? _]. }
  destruct (_ || _ || _ || _).
  { split; [done|]. by intros (_ & ? & _). }
  destruct (_ <? _)%num.
  - split; [done|]. by intros (_ & _ & ? & _).
  - split; [by intros [= <-]|by intros (_ & _ & _ & ->)].
Qed.

(** A difference of two non-negative numbers in the right order is not
    negative ([Infinity - Infinity] is [NaN], which is not negative
    either). *)
Lemma margin_not_negative (pPrice sPrice : number) :
  (pPrice <? 0)%num = false → (sPrice <? pPrice)%num = false →
  Num.isNaN pPrice = false → Num.isNaN sPrice = false →
  (sPrice - pPrice <? 0)%num = false.
Proof.
  destruct pPrice as [| | |b], sPrice as [| | |a]; try done.
  intros _ Hab _ _. unfold Num.sub, Num.zero. cbn [Num.neg Num.add].
  apply not_true_is_false. rewrite num_lt_Fin. intros Hlt.
  apply not_true_iff_false in Hab. apply Hab, num_lt_Fin.
  apply (Qcplus_lt_mono_r _ _ (- b)). by rewrite Qcplus_opp_r.
Qed.

Lemma newSale_has_margin name description pPrice sPrice selected d env :
  AddSaleForm.handleSubmit name description pPrice sPrice selected
    = Submitted d →
  has_margin (newSale env d).
Proof.
  intros (_ & (Hp & Hs & Hp0 & Hs0) & Hsp & ->)%AddSaleForm_Submitted.
  split; [done|]. by apply margin_not_negative.
Qed.




(** ** Deleting a partner (C4, C10) *)

Section Deletion.

Implicit Types (id d k : string) (sale : Sale) (st : AppState).

Lemma filter_all {A} (P : A → Prop) `{!∀ a, Decision (P a)} (l : list A) :
  Forall P l → filter P l = l.
Proof.
  induction 1 as [|a l Ha _ IH]; [done|].
  by rewrite filter_cons, decide_True, IH.
Qed.

Lemma stripPartner_partnerIds d sale :
  Sale.partnerIds (stripPartner d sale)
  = filter (λ pid, pid ≠ d) (Sale.partnerIds sale).
Proof.
  unfold stripPartner. destruct (decide _) as [|Hout]; [done|].
  symmetry. apply filter_all.
  rewrite Forall_forall. intros pid Hin ->. by apply Hout.
Qed.

Lemma stripPartner_elem d sale pid :
  pid ∈ Sale.partnerIds (stripPartner d sale)
  ↔ pid ∈ Sale.partnerIds sale ∧ pid ≠ d.
Proof. rewrite stripPartner_partnerIds, list_elem_of_filter. tauto. Qed.

Lemma stripPartner_same_record d sale : same_record sale (stripPartner d sale).
Proof. unfold stripPartner. by destruct (decide _). Qed.

Lemma stripPartner_absent d sale :
  d ∉ Sale.partnerIds sale → stripPartner d sale = sale.
Proof. intros Hout. unfold stripPartner. by rewrite decide_False. Qed.

Lemma stripPartner_idemp d sale :
  stripPartner d (stripPartner d sale) = stripPartner d sale.
Proof.
  apply stripPartner_absent. rewrite stripPartner_elem. by intros [_ ?].
Qed.

Lemma filter_idemp {A} (P : A → Prop) `{!∀ a, Decision (P a)} (l : list A) :
  filter P (filter P l) = filter P l.
Proof.
  apply filter_all. rewrite Forall_forall.
  by intros a [? _]%list_elem_of_filter.
Qed.

Lemma handleDeletePartner_idemp d st :
  handleDeletePartner d (handleDeletePartner d st) = handleDeletePartner d st.
Proof.
  unfold handleDeletePartner. cbn [sales partners settlements].
  rewrite !filter_idemp, <- list_fmap_compose.
  f_equal. apply list_fmap_ext. intros _ sale _. apply stripPartner_idemp.
Qed.

(** The storage API deletes as the application state does. *)
Lemma deletePartner_getUserData userId d ls :
  getUserData userId (deletePartner userId d ls)
  = handleDeletePartner d (getUserData userId ls).
Proof.
  unfold deletePartner, handleDeletePartner, getUserData at 1.
  cbn [salesOf partnersOf settlementsOf].
  by rewrite !lookup_insert_eq.
Qed.

Lemma deletePartner_idemp userId d ls :
  deletePartner userId d (deletePartner userId d ls)
  = deletePartner userId d ls.
Proof.
  unfold deletePartner at 1. rewrite deletePartner_getUserData.
  unfold handleDeletePartner at 1 2 3. cbn [sales partners settlements].
  rewrite !filter_idemp, <- list_fmap_compose.
  unfold deletePartner. cbn [salesOf partnersOf settlementsOf].
  rewrite !insert_insert_eq. f_equal. f_equal.
  apply list_fmap_ext. intros _ sale _. apply stripPartner_idemp.
Qed.

End Deletion.

(** C4.  Deleting the partner [d] keeps exactly the partners whose id is not
    [d] and the settlements whose [partnerId] is not [d], and maps every
    sale to a sale with [d] removed from its [partnerIds] and every other
    field as before.  Deleting is idempotent, and for an id that no partner
    has it returns the partner list as it was; the storage function
    [deletePartner] does the same to the stored collections of the user. *)
Theorem delete_partner_cascade st d :
  let st' := handleDeletePartner d st in
  (∀ p, p ∈ partners st' ↔ p ∈ partners st ∧ Partner.id p ≠ d)
  ∧ (∀ t, t ∈ settlements st' ↔ t ∈ settlements st ∧ Settlement.partnerId t ≠ d)
  ∧ Forall2 (λ sale sale',
       Sale.partnerIds sale' = filter (λ pid, pid ≠ d) (Sale.partnerIds sale)
       ∧ (d ∉ Sale.partnerIds sale')
       ∧ same_record sale sale')
      (sales st) (sales st')
  ∧ handleDeletePartner d st' = st'
  ∧ (d ∉ Partner.id <$> partners st → partners st' = partners st)
  ∧ (∀ userId ls,
       getUserData userId (deletePartner userId d ls)
         = handleDeletePartner d (getUserData userId ls)
       ∧ deletePartner userId d (deletePartner userId d ls)
         = deletePartner userId d ls).
Proof.
  intros st'. subst st'. split_and!.
  - intros p. unfold handleDeletePartner. cbn [partners].
    rewrite list_elem_of_filter. tauto.
  - intros t. unfold handleDeletePartner. cbn [settlements].
    rewrite list_elem_of_filter. tauto.
  - unfold handleDeletePartner. cbn [sales].
    apply Forall2_fmap_r, Forall_Forall2_diag, Forall_forall.
    intros sale _. split_and!.
    + apply stripPartner_partnerIds.
    + rewrite stripPartner_elem. by intros [_ ?].
    + apply stripPartner_same_record.
  - apply handleDeletePartner_idemp.
  - intros Hout. unfold handleDeletePartner. cbn [partners].
    apply filter_all. rewrite Forall_forall.
    intros p Hp Heq. apply Hout. rewrite <- Heq. by apply list_elem_of_fmap_2.
  - intros userId ls. split.
    + apply deletePartner_getUserData.
    + apply deletePartner_idemp.
Qed.

Section Frame.

Implicit Types (d k : string) (partners : list Partner) (sales : list Sale).
Implicit Types (settlements : list Settlement).

Lemma cut_stripPartner d sale p : cut (stripPartner d sale) p = cut sale p.
Proof.
  unfold cut.
  by destruct (stripPartner_same_record d sale) as (_ & _ & _ & _ & _ & -> & _).
Qed.

Lemma initial_delete d k partners :
  k ≠ d →
  initial k (filter (λ p, Partner.id p ≠ d) partners) = initial k partners.
Proof.
  intros Hk. unfold initial. apply decide_ext.
  rewrite !list_elem_of_fmap. split.
  - intros (p & -> & [_ ?]%list_elem_of_filter). eauto.
  - intros (p & -> & ?). exists p. split; [done|]. by apply list_elem_of_filter.
Qed.

Lemma shares_delete d k partners sale :
  k ≠ d →
  shares k (filter (λ p, Partner.id p ≠ d) partners) (stripPartner d sale)
  = shares k partners sale.
Proof.
  intros Hk. unfold shares. rewrite !list_filter_filter.
  erewrite list_filter_iff.
  - apply list_fmap_ext. intros _ p _. apply cut_stripPartner.
  - intros p. cbn beta. rewrite stripPartner_elem.
    split; [tauto|]. intros [-> ?]. tauto.
Qed.

Lemma payments_delete d k settlements :
  k ≠ d →
  payments k (filter (λ t, Settlement.partnerId t ≠ d) settlements)
  = payments k settlements.
Proof.
  intros Hk. unfold payments. rewrite list_filter_filter. f_equal.
  apply list_filter_iff. intros t. split; [tauto|]. intros ->. tauto.
Qed.

Lemma payments_app k settlements settlements' :
  payments k (settlements ++ settlements')
  = payments k settlements ++ payments k settlements'.
Proof. unfold payments. by rewrite filter_app, fmap_app. Qed.

Lemma payments_cons k t settlements :
  payments k (t :: settlements)
  = if decide (Settlement.partnerId t = k)
    then Num.neg (Settlement.amount t) :: payments k settlements
    else payments k settlements.
Proof. unfold payments. rewrite filter_cons. by destruct (decide _). Qed.

Lemma bump_is_Some (xs : list number) (entry : option number) :
  is_Some entry ∨ xs ≠ [] → is_Some (fold_left bump xs entry).
Proof.
  revert entry. induction xs as [|x xs IH]; intros entry.
  - by intros [?|?].
  - intros _. cbn [fold_left]. apply IH. left. by eexists.
Qed.

End Frame.

(** C10.  Deleting the partner [d] leaves the computed balance of every
    other id [q] as it was: the balances of the state after the cascade and
    of the state before it agree on [q], in particular when [q] is the id of
    a partner that remains. *)
Theorem delete_partner_frame st d q :
  q ≠ d →
  let st' := handleDeletePartner d st in
  partnerBalances (partners st') (sales st') (settlements st') !! q
  = partnerBalances (partners st) (sales st) (settlements st) !! q.
Proof.
  intros Hq st'. subst st'. unfold handleDeletePartner.
  cbn [partners sales settlements].
  rewrite !partnerBalances_lookup. unfold deltas.
  rewrite initial_delete, payments_delete, list_fmap_bind by done.
  do 2 f_equal. apply list_bind_ext; [|done].
  intros sale. by apply shares_delete.
Qed.

Lemma delete_partner_frame_witness :
  "A" ≠ "B"
  ∧ partnerBalances (partners (handleDeletePartner "B" Example.settled))
      (sales (handleDeletePartner "B" Example.settled))
      (settlements (handleDeletePartner "B" Example.settled)) !! "A"
    = partnerBalances (partners Example.settled) (sales Example.settled)
        (settlements Example.settled) !! "A".
Proof.
  assert ("A" ≠ "B") as Hne by discriminate.
  split; [exact Hne|].
  exact (delete_partner_frame Example.settled "B" "A" Hne).
Defined.


(** ** Settlements of unknown partners (C5) *)

(** C5, as the code has it.  A settlement whose [partnerId] is the id of no
    partner changes the balance of no partner of the list: with and without
    it the balance map agrees on every other key.  The map does get an
    entry for the unknown id. *)
Theorem unknown_partner_settlement partners sales before t after :
  Settlement.partnerId t ∉ Partner.id <$> partners →
  (∀ p, p ∈ partners →
     partnerBalances partners sales (before ++ t :: after) !! Partner.id p
     = partnerBalances partners sales (before ++ after) !! Partner.id p)
  ∧ (∀ k, k ≠ Settlement.partnerId t →
     partnerBalances partners sales (before ++ t :: after) !! k
     = partnerBalances partners sales (before ++ after) !! k)
  ∧ is_Some (partnerBalances partners sales (before ++ t :: after)
               !! Settlement.partnerId t).
Proof.
  intros Hghost.
  assert (∀ k, k ≠ Settlement.partnerId t →
     partnerBalances partners sales (before ++ t :: after) !! k
     = partnerBalances partners sales (before ++ after) !! k) as Hother.
  { intros k Hk. rewrite !partnerBalances_lookup. unfold deltas.
    rewrite !payments_app, payments_cons. by rewrite decide_False. }
  split_and!.
  - intros p Hp. apply Hother. intros Heq. apply Hghost.
    rewrite <- Heq. by apply list_elem_of_fmap_2.
  - done.
  - rewrite partnerBalances_lookup. apply bump_is_Some. right.
    unfold deltas. rewrite payments_app, payments_cons, decide_True by done.
    intros Hnil. apply app_eq_nil in Hnil as [_ Hnil].
    by apply app_eq_nil in Hnil as [_ Hnil].
Qed.

Lemma unknown_partner_settlement_witness :
  (Settlement.partnerId (Example.pay "Z" (int 5))
     ∉ Partner.id <$> [Example.A; Example.B])
  ∧ (∀ p, p ∈ [Example.A; Example.B] →
       partnerBalances [Example.A; Example.B] [Example.sale1]
         ([Example.pay "A" (int 30)] ++ Example.pay "Z" (int 5) :: [])
         !! Partner.id p
       = partnerBalances [Example.A; Example.B] [Example.sale1]
           ([Example.pay "A" (int 30)] ++ []) !! Partner.id p)
  ∧ (∀ k, k ≠ Settlement.partnerId (Example.pay "Z" (int 5)) →
       partnerBalances [Example.A; Example.B] [Example.sale1]
         ([Example.pay "A" (int 30)] ++ Example.pay "Z" (int 5) :: []) !! k
       = partnerBalances [Example.A; Example.B] [Example.sale1]
           ([Example.pay "A" (int 30)] ++ []) !! k)
  ∧ is_Some (partnerBalances [Example.A; Example.B] [Example.sale1]
               ([Example.pay "A" (int 30)] ++ Example.pay "Z" (int 5) :: [])
               !! Settlement.partnerId (Example.pay "Z" (int 5))).
Proof.
  assert (Settlement.partnerId (Example.pay "Z" (int 5))
            ∉ Partner.id <$> [Example.A; Example.B]) as Hghost.
  { apply (bool_decide_unpack _). vm_compute. exact I. }
  split; [exact Hghost|].
  exact (unknown_partner_settlement [Example.A; Example.B] [Example.sale1]
           [Example.pay "A" (int 30)] (Example.pay "Z" (int 5)) [] Hghost).
Defined.

(** C5, the claim as stated fails: a settlement that names no partner of
    the list changes the result of [partnerBalances], which gets an entry
    for the unknown id. *)
Lemma unknown_partner_entry_created :
  (Settlement.partnerId (Example.pay "Z" (int 5))
     ∉ Partner.id <$> [Example.A; Example.B])
  ∧ partnerBalances [Example.A; Example.B] [Example.sale1]
      [Example.pay "Z" (int 5)]
    ≠ partnerBalances [Example.A; Example.B] [Example.sale1] []
  ∧ partnerBalances [Example.A; Example.B] [Example.sale1]
      [Example.pay "Z" (int 5)] !! "Z" = Some (int (-5))
  ∧ partnerBalances [Example.A; Example.B] [Example.sale1] [] !! "Z" = None.
Proof.
  split_and!.
  - apply (bool_decide_unpack _). vm_compute. exact I.
  - intros Heq. apply (f_equal (λ m, m !! "Z")) in Heq.
    vm_compute in Heq. discriminate.
  - num_eq.
  - num_eq.
Qed.


(** ** A total that is not a number *)

(** The sale form submits a sale whose prices are both [Infinity]; its
    profit is [NaN], and since [NaN || 0] is [0] the balance of A then
    depends on where that sale stands in the list. *)
Remark nan_profit_resets_balance :
  AddSaleForm.handleSubmit "void" "" PosInf PosInf ["A"]
    = Submitted {| sd_name := "void"; sd_description := Some "";
                   sd_purchasePrice := PosInf; sd_soldPrice := PosInf;
                   sd_partnerIds := ["A"] |}
  ∧ Sale.profit Example.saleNaN = NaN
  ∧ partnerBalances [Example.A; Example.B]
      [Example.saleNaN; Example.sale1] [] !! "A" = Some (int 60)
  ∧ partnerBalances [Example.A; Example.B]
      [Example.sale1; Example.saleNaN] [] !! "A" = Some NaN.
Proof. split_and!; num_eq. Qed.

(** C7, as the code has it.  [handleSettle] rejects with [InvalidAmount]
    exactly the amounts that are not a number or are at most zero (negative
    infinity among them).  Positive infinity passes this check. *)
Theorem handleSettle_InvalidAmount partners sales settlements p a :
  (handleSettle partners sales settlements (Some p) a = Rejected InvalidAmount
   ↔ Num.isNaN a = true ∨ (a <=? 0)%num = true)
  ∧ handleSettle partners sales settlements (Some p) PosInf
    ≠ Rejected InvalidAmount.
Proof.
  split.
  - unfold handleSettle. rewrite <- orb_true_iff.
    destruct (_ || _); [done|].
    split; [|done]. by destruct (_ >? _)%num.
  - unfold handleSettle. cbn [Num.isNaN Num.le orb].
    by destruct (_ >? _)%num.
Qed.

(** C7, the claim as stated fails: an infinite amount is not rejected as an
    invalid amount; against a finite balance it is rejected for exceeding
    the owed amount. *)
Lemma infinite_amount_not_InvalidAmount :
  Num.isFinite PosInf = false
  ∧ handleSettle (partners Example.ledger) (sales Example.ledger)
      (settlements Example.ledger) (Some Example.A) PosInf
    = Rejected (ExceedsOwed (int 60)).
Proof. split; [reflexivity|num_eq]. Qed.


(** ** The examples of the specification *)

Example example_balances :
  partnerBalances [Example.A; Example.B] [Example.sale1] [] !! "A"
    = Some (int 60)
  ∧ partnerBalances [Example.A; Example.B] [Example.sale1] [] !! "B"
    = Some (int 40).
Proof. split; num_eq. Qed.

Example example_settlement :
  handleSettle [Example.A; Example.B] [Example.sale1] [] (Some Example.A)
    (int 30)
    = Submitted {| td_partnerId := "A"; td_amount := int 30 |}
  ∧ partnerBalances [Example.A; Example.B] [Example.sale1]
      [Example.pay "A" (int 30)] !! "A" = Some (int 30)
  ∧ partnerBalances [Example.A; Example.B] [Example.sale1]
      [Example.pay "A" (int 30)] !! "B" = Some (int 40)
  ∧ handleSettle [Example.A; Example.B] [Example.sale1]
      [Example.pay "A" (int 30)] (Some Example.A) (int 50)
    = Rejected (ExceedsOwed (int 30)).
Proof. split_and!; num_eq. Qed.

Example example_deletion :
  partners (handleDeletePartner "B" Example.settled) = [Example.A]
  ∧ Sale.partnerIds <$> sales (handleDeletePartner "B" Example.settled)
    = [["A"]]
  ∧ partnerBalances (partners (handleDeletePartner "B" Example.settled))
      (sales (handleDeletePartner "B" Example.settled))
      (settlements (handleDeletePartner "B" Example.settled)) !! "A"
    = Some (int 30)
  ∧ partnerBalances (partners (handleDeletePartner "B" Example.settled))
      (sales (handleDeletePartner "B" Example.settled))
      (settlements (handleDeletePartner "B" Example.settled)) !! "B"
    = None.
Proof. split_and!; num_eq. Qed.

Example example_allocation :
  PartnerManagement.handleSubmit [Example.A; Example.B] "C" (int 50)
  = Rejected (AllocationExceeded (int 100)).
Proof. num_eq. Qed.

Example example_sale :
  AddSaleForm.handleSubmit "phone" "" (int 50) (int 150) ["A"; "B"]
    = Submitted {| sd_name := "phone"; sd_description := Some "";
                   sd_purchasePrice := int 50; sd_soldPrice := int 150;
                   sd_partnerIds := ["A"; "B"] |}
  ∧ AddSaleForm.handleSubmit "phone" "" (int 150) (int 50) ["A"; "B"]
    = Rejected InvalidMargin
  ∧ AddSaleForm.handleSubmit "phone" "" NaN (int 50) ["A"; "B"]
    = Rejected InvalidPrice
  ∧ AddSaleForm.handleSubmit "  " "" (int 50) (int 150) ["A"; "B"]
    = Rejected InvalidName.
Proof. split_and!; vm_compute; reflexivity. Qed.

(** * Further properties of the ledger *)

(** ** Finite numbers and their order *)

Section FiniteOrder.

Implicit Types x y z : number.

Lemma finite_inv x : Num.isFinite x = true → ∃ q, x = Fin q.
Proof. destruct x; try done. eauto. Qed.

Lemma or_zero_not_NaN o : Num.isNaN (Num.or_zero o) = false.
Proof.
  destruct o as [x|]; [|done]. unfold Num.or_zero, Num.truthy.
  destruct x; try done. by destruct (Num.is_zero _).
Qed.

Lemma num_lt_le_trans x y z :
  (x <? y)%num = true → (y <=? z)%num = true → (x <? z)%num = true.
Proof.
  destruct x, y, z; try done.
  rewrite !num_lt_Fin, num_le_Fin. apply Qclt_le_trans.
Qed.

Lemma num_lt_not_le x y : (x <? y)%num = true → (y <=? x)%num = false.
Proof.
  intros H. pose proof (num_lt_not_NaN _ _ H) as [Hx Hy].
  change (x <? y)%num with (y >? x)%num in H.
  rewrite num_gt_not_le in H by done. by apply negb_true_iff in H.
Qed.

Lemma num_le_refl x : Num.isNaN x = false → (x <=? x)%num = true.
Proof. destruct x; try done. intros _. by apply num_le_Fin. Qed.

Lemma nonneg_Fin (q : Qc) : nonneg (Fin q) ↔ (0 ≤ q)%Qc.
Proof.
  unfold nonneg, Num.zero. rewrite num_le_Fin. cbn [Num.isFinite]. tauto.
Qed.

Lemma nonneg_inv x : nonneg x → ∃ q, x = Fin q ∧ (0 ≤ q)%Qc.
Proof.
  intros Hx. destruct (finite_inv x (proj1 Hx)) as [q ->].
  exists q. split; [done|]. by apply nonneg_Fin.
Qed.

Lemma nonneg_0 : nonneg 0%num.
Proof. by split. Qed.

Lemma nonneg_add x y : nonneg x → nonneg y → nonneg (x + y).
Proof.
  intros (a & -> & Ha)%nonneg_inv (b & -> & Hb)%nonneg_inv.
  change (Fin a + Fin b)%num with (Fin (a + b)).
  apply nonneg_Fin. by apply Qcplus_nonneg_nonneg.
Qed.

End FiniteOrder.

(** ** The settle button *)

(** The settle button of a partner is enabled exactly when [handleSettle]
    would accept some amount for that partner; the owed amount itself is
    then accepted. *)
Theorem settle_button_enabled_iff partners sales settlements p :
  (settleDisabled partners sales settlements p = false
   ↔ ∃ a d, handleSettle partners sales settlements (Some p) a = Submitted d)
  ∧ (settleDisabled partners sales settlements p = false →
     handleSettle partners sales settlements (Some p)
       (totalOwed partners sales settlements p)
     = Submitted {| td_partnerId := Partner.id p;
                    td_amount := totalOwed partners sales settlements p |}).
Proof.
  unfold settleDisabled, totalOwed, handleSettle.
  set (owed := Num.or_zero _).
  pose proof (or_zero_not_NaN
    (partnerBalances partners sales settlements !! Partner.id p)) as Hnan.
  fold owed in Hnan.
  assert ((owed <=? 0)%num = false →
          (if Num.isNaN owed || (owed <=? 0)%num
           then Rejected InvalidAmount
           else if (owed >? owed)%num then Rejected (ExceedsOwed owed)
           else Submitted {| td_partnerId := Partner.id p;
                             td_amount := owed |})
          = Submitted {| td_partnerId := Partner.id p; td_amount := owed |})
    as Hfull.
  { intros Hpos. rewrite Hnan, Hpos. cbn [orb].
    by rewrite num_gt_not_le, num_le_refl. }
  split; [split|done].
  - intros Hpos. eexists _, _. by apply Hfull.
  - intros (a & d & Hd). rewrite amount_guard in Hd.
    destruct (0 <? a)%num eqn:Ha; [|done]. cbn [negb] in Hd.
    destruct (a >? owed)%num eqn:Hgt; [done|].
    rewrite num_gt_not_le in Hgt;
      [|by apply num_lt_not_NaN in Ha as [_ ?]|done].
    apply negb_false_iff in Hgt.
    apply num_lt_not_le. by eapply num_lt_le_trans.
Qed.

Lemma settle_button_enabled_iff_witness :
  settleDisabled (partners Demo.paid) (sales Demo.paid)
    (settlements Demo.paid) Example.A = false
  ∧ handleSettle (partners Demo.paid) (sales Demo.paid)
      (settlements Demo.paid) (Some Example.A)
      (totalOwed (partners Demo.paid) (sales Demo.paid)
         (settlements Demo.paid) Example.A)
    = Submitted
        {| td_partnerId := Partner.id Example.A;
           td_amount := totalOwed (partners Demo.paid) (sales Demo.paid)
                          (settlements Demo.paid) Example.A |}.
Proof.
  assert (settleDisabled (partners Demo.paid) (sales Demo.paid)
            (settlements Demo.paid) Example.A = false) as Hon
    by (vm_compute; reflexivity).
  split; [exact Hon|].
  exact (proj2 (settle_button_enabled_iff (partners Demo.paid)
                  (sales Demo.paid) (settlements Demo.paid) Example.A) Hon).
Defined.

(** ** The entry of a deleted partner *)

Section DeletedKey.

Implicit Types (k : string) (partners : list Partner) (sales : list Sale).
Implicit Types (settlements : list Settlement) (st : AppState).

Lemma filter_none {A} (P : A → Prop) `{!∀ a, Decision (P a)} (l : list A) :
  (∀ a, a ∈ l → ¬ P a) → filter P l = [].
Proof.
  intros Hnone. apply elem_of_nil_inv.
  intros a [? ?]%list_elem_of_filter. by apply (Hnone a).
Qed.

Lemma shares_app k partners partners' sale :
  shares k (partners ++ partners') sale
  = shares k partners sale ++ shares k partners' sale.
Proof. unfold shares. by rewrite !filter_app, fmap_app. Qed.

Lemma deltas_delete_self (d : string) partners sales settlements :
  deltas d (filter (λ p, Partner.id p ≠ d) partners)
    (stripPartner d <$> sales)
    (filter (λ t, Settlement.partnerId t ≠ d) settlements)
  = [].
Proof.
  unfold deltas. rewrite shares_absent.
  - unfold payments. rewrite filter_none; [done|].
    by intros t [? _]%list_elem_of_filter.
  - rewrite list_elem_of_fmap.
    by intros (p & -> & [? _]%list_elem_of_filter).
Qed.

End DeletedKey.

Lemma paid_reachable : reachable Demo.paid.
Proof.
  unfold reachable, Demo.paid, Demo.sold, Demo.joined.
  eapply rtc_r; [eapply rtc_r; [eapply rtc_r; [eapply rtc_r;
    [apply rtc_refl|]|]|]|].
  - apply (step_add_partner initialState Example.envA "Ann" (int 60)).
    vm_compute. reflexivity.
  - apply (step_add_partner _ Example.envB "Bob" (int 40)).
    vm_compute. reflexivity.
  - apply (step_add_sale _ Demo.env1 "phone" "" (int 50) (int 150) ["A"; "B"]).
    vm_compute. reflexivity.
  - apply (step_settle _ Demo.env2 Example.A (int 30)).
    vm_compute. reflexivity.
Defined.

(** * The storage API and the application with accounts *)

(** ** The stored collections of one user *)

Section Storage.

Implicit Types (userId other : string) (ls : Storage) (env : Stamp).

Lemma getUserData_addSale userId d env ls :
  getUserData userId (addSale userId d env ls).1
  = handleAddSale env d (getUserData userId ls).
Proof.
  unfold addSale, getUserData, handleAddSale.
  cbn [fst salesOf partnersOf settlementsOf sales partners settlements].
  by rewrite lookup_insert_eq.
Qed.

Lemma getUserData_addPartner userId d env ls :
  getUserData userId (addPartner userId d env ls).1
  = handleAddPartner env d (getUserData userId ls).
Proof.
  unfold addPartner, getUserData, handleAddPartner.
  cbn [fst salesOf partnersOf settlementsOf sales partners settlements].
  by rewrite lookup_insert_eq.
Qed.

Lemma getUserData_addSettlement userId d env ls :
  getUserData userId (addSettlement userId d env ls).1
  = handleAddSettlement env d (getUserData userId ls).
Proof.
  unfold addSettlement, getUserData, handleAddSettlement.
  cbn [fst salesOf partnersOf settlementsOf sales partners settlements].
  by rewrite lookup_insert_eq.
Qed.

Lemma getUserData_other userId other ls ls' :
  (∀ k, k ≠ userId → salesOf ls' !! k = salesOf ls !! k) →
  (∀ k, k ≠ userId → partnersOf ls' !! k = partnersOf ls !! k) →
  (∀ k, k ≠ userId → settlementsOf ls' !! k = settlementsOf ls !! k) →
  other ≠ userId → getUserData other ls' = getUserData other ls.
Proof.
  intros Hs Hp Ht Hne. unfold getUserData.
  by rewrite Hs, Hp, Ht.
Qed.

End Storage.

(** The four writing functions of the storage API change the stored
    collections of the user they are called for and of nobody else. *)
Theorem storage_user_isolation userId other ls :
  other ≠ userId →
  (∀ d env, getUserData other (addSale userId d env ls).1
            = getUserData other ls)
  ∧ (∀ d env, getUserData other (addPartner userId d env ls).1
              = getUserData other ls)
  ∧ (∀ id, getUserData other (deletePartner userId id ls)
           = getUserData other ls)
  ∧ (∀ d env, getUserData other (addSettlement userId d env ls).1
              = getUserData other ls).
Proof.
  intros Hne. split_and!; intros;
    (apply (getUserData_other userId); [..|done]);
    intros k Hk; cbn; by rewrite ?lookup_insert_ne.
Qed.

Lemma storage_user_isolation_witness :
  "bob" ≠ "ann"
  ∧ (∀ d env, getUserData "bob" (addSale "ann" d env emptyStorage).1
              = getUserData "bob" emptyStorage)
  ∧ (∀ d env, getUserData "bob" (addPartner "ann" d env emptyStorage).1
              = getUserData "bob" emptyStorage)
  ∧ (∀ id, getUserData "bob" (deletePartner "ann" id emptyStorage)
           = getUserData "bob" emptyStorage)
  ∧ (∀ d env, getUserData "bob" (addSettlement "ann" d env emptyStorage).1
              = getUserData "bob" emptyStorage).
Proof.
  assert ("bob" ≠ "ann") as Hne by discriminate.
  split; [exact Hne|].
  exact (storage_user_isolation "ann" "bob" emptyStorage Hne).
Defined.

(** ** Accounts *)

Section Accounts.

Implicit Types (ls : AuthStorage) (u : User) (w : World).

Lemma first_match_elem {A} (P : A → Prop) `{!∀ a, Decision (P a)}
    (l : list A) (x : A) :
  snd <$> list_find P l = Some x → x ∈ l ∧ P x.
Proof.
  destruct (list_find P l) as [[i y]|] eqn:Hfind; [|done].
  intros [= <-]. apply list_find_Some in Hfind as (Hi & HP & _).
  split; [|done]. by eapply list_elem_of_lookup_2.
Qed.

Lemma first_match_app_l {A} (P : A → Prop) `{!∀ a, Decision (P a)}
    (l l' : list A) (x : A) :
  snd <$> list_find P l = Some x → snd <$> list_find P (l ++ l') = Some x.
Proof.
  destruct (list_find P l) as [[i y]|] eqn:Hfind; [|done].
  intros [= <-]. by erewrite list_find_app_l.
Qed.

Lemma first_match_snoc {A} (P : A → Prop) `{!∀ a, Decision (P a)}
    (l : list A) (x : A) :
  ¬ Exists P l → P x → snd <$> list_find P (l ++ [x]) = Some x.
Proof.
  intros Hnone HP. rewrite list_find_app_r.
  - cbn. by rewrite decide_True.
  - apply list_find_None, Forall_forall. intros y Hy HPy.
    apply Hnone, Exists_exists. eauto.
Qed.


Lemma hashed_inj p p' : hashed p = hashed p' → p = p'.
Proof. unfold hashed. cbn. by intros [=]. Qed.

Lemma signUp_Resolve name email password uuid ls ls' u :
  signUp name email password uuid ls = (ls', Resolve u) ↔
  ¬ Exists (λ v, User.email v = email) (users ls)
  ∧ u = {| User.id := uuid; User.name := name; User.email := email;
           User.passwordHash := hashed password |}
  ∧ ls' = {| users := users ls ++ [u]; currentUser := Some uuid |}.
Proof.
  unfold signUp. destruct (decide _) as [Hex|Hex].
  - split; [done|]. by intros [? _].
  - cbn. split.
    + by intros [= <- <-].
    + by intros (_ & -> & ->).
Qed.

(** What [signIn] answers for the email of a user that is the first of
    that email in the list. *)
Lemma signIn_first ls u password :
  snd <$> list_find (λ v, User.email v = User.email u) (users ls) = Some u →
  signIn (User.email u) password ls
  = if decide (User.passwordHash u = hashed password)
    then (setCurrentUserSession (Some u) ls, Resolve u)
    else (ls, Reject "Invalid email or password.").
Proof. unfold signIn. by intros ->. Qed.

End Accounts.

Section Worlds.

Implicit Types (w : World) (u : User).

Lemma accounts_ok_signUp name email password uuid ls ls' u :
  accounts_ok ls → uuid ∉ User.id <$> users ls →
  is_empty (trim name) = false → (6 ≤ utf16_length password)%nat →
  signUp name email password uuid ls = (ls', Resolve u) →
  accounts_ok ls'.
Proof.
  intros (Hid & Hemail & Hall) Hfresh Hname Hlen
    (Hnew & -> & ->)%signUp_Resolve.
  unfold accounts_ok. cbn [users]. rewrite !fmap_app. split_and!.
  - apply NoDup_app. split_and!; [done| |apply NoDup_singleton].
    intros x Hx ->%list_elem_of_singleton. done.
  - apply NoDup_app. split_and!; [done| |apply NoDup_singleton].
    intros x Hx ->%list_elem_of_singleton. apply Hnew, Exists_exists.
    apply list_elem_of_fmap in Hx as (v & Hv & ?). eauto.
  - apply Forall_app. split; [done|]. apply Forall_singleton.
    split; [done|]. by exists password.
Qed.

Lemma signIn_cases email password ls :
  (∃ u, signIn email password ls
        = (setCurrentUserSession (Some u) ls, Resolve u) ∧ u ∈ users ls)
  ∨ signIn email password ls = (ls, Reject "Invalid email or password.").
Proof.
  unfold signIn.
  destruct (snd <$> list_find _ (users ls)) as [u|] eqn:Hfind; [|by right].
  apply first_match_elem in Hfind as [Hin _].
  destruct (decide _); [left|by right]. eauto.
Qed.

Lemma coherent_handleAuthSuccess u ls st sess :
  u ∈ users ls → currentUser ls = Some (User.id u) →
  coherent (UserApp.handleAuthSuccess u {| auth := ls; store := st; app := sess |}).
Proof. by intros Hin Hcur. Qed.

Lemma wstep_keeps w w' :
  accounts_ok (auth w) ∧ coherent w → wstep w w' →
  accounts_ok (auth w') ∧ coherent w'.
Proof.
  intros [Hacc Hcoh] Hstep.
  destruct Hstep as [w|w view name email password uuid Hfresh|w|w env d
                    |w env d|w id|w env d].
  - (* reload *)
    split; [by destruct w; unfold UserApp.checkAuthAndLoadData;
            destruct (getCurrentUser _)|].
    unfold UserApp.checkAuthAndLoadData.
    destruct (getCurrentUser (auth w)) as [u'|] eqn:Hget.
    + unfold getCurrentUser in Hget.
      destruct (currentUser (auth w)) as [userId|] eqn:Hcur; [|done].
      apply first_match_elem in Hget as [Hin Hid].
      unfold coherent. cbn. by rewrite Hcur, Hid.
    + unfold coherent. cbn. split; [|done].
      unfold getCurrentUser in Hget.
      destruct (currentUser (auth w)) as [userId|] eqn:Hcur; [|done].
      unfold coherent in Hcoh.
      destruct (sessionUser (app w)) as [u|]; [|destruct Hcoh; congruence].
      destruct Hcoh as (Hin & Hsess & _).
      assert (userId = User.id u) as -> by congruence.
      destruct (list_find _ _) eqn:Hfind; [done|].
      apply list_find_None in Hfind. rewrite Forall_forall in Hfind.
      by destruct (Hfind u Hin).
  - (* the sign-in form *)
    unfold Auth.handleSubmit. destruct view.
    + destruct (signIn_cases email password (auth w))
        as [(u & Hu & Hin)|Hu]; rewrite Hu; cbn [fst].
      * split; [done|]. by apply coherent_handleAuthSuccess.
      * by destruct w.
    + destruct (is_empty (trim name)) eqn:Hname; [done|].
      destruct (utf16_length password <? 6)%nat eqn:Hlen; [done|].
      apply Nat.ltb_ge in Hlen.
      destruct (signUp name email password uuid (auth w)) as [ls [u|msg]]
        eqn:Hup; cbn [fst].
      * split; [by eapply accounts_ok_signUp|].
        apply signUp_Resolve in Hup as (_ & -> & ->).
        apply coherent_handleAuthSuccess; cbn; [|done].
        apply elem_of_app. right. apply list_elem_of_here.
      * unfold signUp in Hup. destruct (decide _); [|done].
        injection Hup as <- _. by destruct w.
  - (* sign out *)
    split; [done|]. by unfold coherent.
  - (* add sale *)
    unfold UserApp.handleAddSale, coherent in *.
    destruct (sessionUser (app w)) as [u|] eqn:Hu; [|by rewrite Hu].
    destruct Hcoh as (Hin & Hcur & Hshown). cbn. split; [done|].
    split_and!; try done. rewrite Hshown.
    unfold fetchAllData, getUserData. cbn. by rewrite lookup_insert_eq.
  - (* add partner *)
    unfold UserApp.handleAddPartner, coherent in *.
    destruct (sessionUser (app w)) as [u|] eqn:Hu; [|by rewrite Hu].
    destruct Hcoh as (Hin & Hcur & Hshown). cbn. split; [done|].
    split_and!; try done. rewrite Hshown.
    unfold fetchAllData, getUserData. cbn. by rewrite lookup_insert_eq.
  - (* delete partner *)
    unfold UserApp.handleDeletePartner, coherent in *.
    destruct (sessionUser (app w)) as [u|] eqn:Hu; [|by rewrite Hu].
    destruct Hcoh as (Hin & Hcur & Hshown). cbn. split; [done|].
    split_and!; try done. rewrite Hshown.
    unfold fetchAllData. by rewrite deletePartner_getUserData.
  - (* add settlement *)
    unfold UserApp.handleAddSettlement, coherent in *.
    destruct (sessionUser (app w)) as [u|] eqn:Hu; [|by rewrite Hu].
    destruct Hcoh as (Hin & Hcur & Hshown). cbn. split; [done|].
    split_and!; try done. rewrite Hshown.
    unfold fetchAllData, getUserData. cbn. by rewrite lookup_insert_eq.
Qed.

Lemma wreachable_keeps w : wreachable w → accounts_ok (auth w) ∧ coherent w.
Proof.
  unfold wreachable. revert w.
  apply (rtc_ind_r (λ w, accounts_ok (auth w) ∧ coherent w)).
  - split; [|done]. split_and!; constructor.
  - intros w w' _ Hstep IH. by eapply wstep_keeps.
Qed.

End Worlds.

(** In every reachable world the stored accounts have pairwise different
    ids and emails, names that are not blank and passwords of at least six
    characters. *)
Theorem accounts_stay_valid w : wreachable w → accounts_ok (auth w).
Proof. intros Hw. by apply wreachable_keeps in Hw as [? _]. Qed.



Lemma w4_reachable : wreachable Accounts.w4.
Proof.
  unfold wreachable, Accounts.w4, Accounts.w3, Accounts.w2, Accounts.w1.
  eapply rtc_r; [eapply rtc_r; [eapply rtc_r; [eapply rtc_r;
    [apply rtc_refl|]|]|]|].
  - apply wstep_auth. cbn. apply not_elem_of_nil.
  - apply wstep_add_partner.
  - apply wstep_add_sale.
  - apply wstep_sign_out.
Defined.


Lemma accounts_stay_valid_witness :
  wreachable Accounts.w4 ∧ accounts_ok (auth Accounts.w4).
Proof.
  split; [exact w4_reachable|].
  exact (accounts_stay_valid Accounts.w4 w4_reachable).
Defined.




(** Without a signed-in user the four handlers of the ledger leave the
    world as it is; and no step changes the stored collections of a user
    other than the one signed in before the step. *)
Theorem handlers_touch_only_session_user w :
  (sessionUser (app w) = None →
   ∀ env saleData partnerData settlementData id,
     UserApp.handleAddSale env saleData w = w
     ∧ UserApp.handleAddPartner env partnerData w = w
     ∧ UserApp.handleDeletePartner id w = w
     ∧ UserApp.handleAddSettlement env settlementData w = w)
  ∧ (∀ w' userId,
       wstep w w' →
       (∀ u, sessionUser (app w) = Some u → User.id u ≠ userId) →
       getUserData userId (store w') = getUserData userId (store w)).
Proof.
  split.
  - intros Hnone env saleData partnerData settlementData id.
    unfold UserApp.handleAddSale, UserApp.handleAddPartner,
      UserApp.handleDeletePartner, UserApp.handleAddSettlement.
    by rewrite Hnone.
  - intros w' userId Hstep Hother.
    destruct Hstep as [w|w view name email password uuid Hfresh|w|w env d
                      |w env d|w id|w env d].
    + unfold UserApp.checkAuthAndLoadData. by destruct (getCurrentUser _).
    + unfold Auth.handleSubmit. destruct view.
      * by destruct (signIn _ _ _) as [ls [u|msg]].
      * destruct (is_empty _); [done|]. destruct (_ <? _)%nat; [done|].
        by destruct (signUp _ _ _ _ _) as [ls [u|msg]].
    + done.
    + unfold UserApp.handleAddSale.
      destruct (sessionUser (app w)) as [u|] eqn:Hu; [|done].
      cbn. apply (getUserData_other (User.id u));
        [..|by apply not_eq_sym, Hother];
        intros k Hk; cbn; by rewrite ?lookup_insert_ne.
    + unfold UserApp.handleAddPartner.
      destruct (sessionUser (app w)) as [u|] eqn:Hu; [|done].
      cbn. apply (getUserData_other (User.id u));
        [..|by apply not_eq_sym, Hother];
        intros k Hk; cbn; by rewrite ?lookup_insert_ne.
    + unfold UserApp.handleDeletePartner.
      destruct (sessionUser (app w)) as [u|] eqn:Hu; [|done].
      cbn. apply (getUserData_other (User.id u));
        [..|by apply not_eq_sym, Hother];
        intros k Hk; cbn; by rewrite ?lookup_insert_ne.
    + unfold UserApp.handleAddSettlement.
      destruct (sessionUser (app w)) as [u|] eqn:Hu; [|done].
      cbn. apply (getUserData_other (User.id u));
        [..|by apply not_eq_sym, Hother];
        intros k Hk; cbn; by rewrite ?lookup_insert_ne.
Qed.

Lemma handlers_touch_only_session_user_witness :
  sessionUser (app initialWorld) = None
  ∧ UserApp.handleAddSale Demo.env1 Demo.saleData initialWorld = initialWorld
  ∧ UserApp.handleAddPartner Example.envA Example.dataA initialWorld
    = initialWorld
  ∧ UserApp.handleDeletePartner "A" initialWorld = initialWorld
  ∧ UserApp.handleAddSettlement Demo.env2 Demo.payA initialWorld
    = initialWorld.
Proof.
  split; [reflexivity|].
  exact (proj1 (handlers_touch_only_session_user initialWorld) eq_refl
           Demo.env1 Demo.saleData Example.dataA Demo.payA "A").
Defined.

Section Persistence.

Implicit Types (w : World) (u : User).

Lemma wstep_users_grow w w' :
  wstep w w' → ∃ more, users (auth w') = users (auth w) ++ more.
Proof.
  intros Hstep. exists (drop (length (users (auth w))) (users (auth w'))).
  destruct Hstep as [w|w view name email password uuid Hfresh|w|w env d
                    |w env d|w id|w env d].
  - unfold UserApp.checkAuthAndLoadData. destruct (getCurrentUser _); cbn;
      by rewrite drop_all, app_nil_r.
  - unfold Auth.handleSubmit. destruct view.
    + destruct (signIn_cases email password (auth w))
        as [(u & Hu & Hin)|Hu]; rewrite Hu; cbn;
        by rewrite drop_all, app_nil_r.
    + destruct (is_empty _); [by rewrite drop_all, app_nil_r|].
      destruct (_ <? _)%nat; [by rewrite drop_all, app_nil_r|].
      destruct (signUp name email password uuid (auth w)) as [ls [u|msg]]
        eqn:Hup; cbn.
      * apply signUp_Resolve in Hup as (_ & _ & ->). cbn.
        by rewrite drop_app_length.
      * unfold signUp in Hup. destruct (decide _); [|done].
        injection Hup as <- _. by rewrite drop_all, app_nil_r.
  - cbn. by rewrite drop_all, app_nil_r.
  - unfold UserApp.handleAddSale. destruct (sessionUser _); cbn;
      by rewrite drop_all, app_nil_r.
  - unfold UserApp.handleAddPartner. destruct (sessionUser _); cbn;
      by rewrite drop_all, app_nil_r.
  - unfold UserApp.handleDeletePartner. destruct (sessionUser _); cbn;
      by rewrite drop_all, app_nil_r.
  - unfold UserApp.handleAddSettlement. destruct (sessionUser _); cbn;
      by rewrite drop_all, app_nil_r.
Qed.

Lemma rtc_wstep_users_grow w w' :
  rtc wstep w w' → ∃ more, users (auth w') = users (auth w) ++ more.
Proof.
  induction 1 as [w|w w1 w2 Hstep _ [more2 IH]].
  - exists []. by rewrite app_nil_r.
  - destruct (wstep_users_grow _ _ Hstep) as [more1 H1].
    exists (more1 ++ more2). by rewrite IH, H1, app_assoc.
Qed.

End Persistence.

(** An account, once created by [signUp], stays: in every later world
    [signIn] with its email and password resolves with that user and sets
    the session to it, [signIn] with its email and any other password is
    rejected and changes nothing, and [signUp] with its email is rejected
    and changes nothing. *)
Theorem account_persists name email password uuid ls0 ls1 u w1 w2 :
  signUp name email password uuid ls0 = (ls1, Resolve u) →
  auth w1 = ls1 → rtc wstep w1 w2 →
  signIn email password (auth w2)
    = (setCurrentUserSession (Some u) (auth w2), Resolve u)
  ∧ (∀ other, other ≠ password →
       signIn email other (auth w2)
       = (auth w2, Reject "Invalid email or password."))
  ∧ (∀ name' password' uuid',
       signUp name' email password' uuid' (auth w2)
       = (auth w2, Reject "An account with this email already exists.")).
Proof.
  intros (Hnew & Hu & Hls)%signUp_Resolve Hauth Hlater.
  destruct (rtc_wstep_users_grow _ _ Hlater) as [more Hmore].
  rewrite Hauth, Hls in Hmore. cbn [users] in Hmore.
  assert (User.email u = email) as Hemail by by rewrite Hu.
  assert (snd <$> list_find (λ v, User.email v = User.email u)
                    (users (auth w2)) = Some u) as Hfirst.
  { rewrite Hmore. apply first_match_app_l, first_match_snoc; [|done].
    by rewrite Hemail. }
  assert (User.passwordHash u = hashed password) as Hhash by by rewrite Hu.
  rewrite <- Hemail. split_and!.
  - rewrite signIn_first by done. by rewrite decide_True.
  - intros other Hother. rewrite signIn_first by done.
    rewrite decide_False; [done|].
    rewrite Hhash. by intros ?%hashed_inj.
  - intros name' password' uuid'. unfold signUp.
    rewrite decide_True; [done|].
    apply Exists_exists. exists u. split; [|done].
    by apply first_match_elem in Hfirst as [? _].
Qed.

Lemma account_persists_witness :
  (signUp "Ann" "ann@example.org" "secret1" "u1" noUsers
     = (auth Accounts.w1,
        Resolve (User.mk "u1" "Ann" "ann@example.org" (hashed "secret1")))
   ∧ rtc wstep Accounts.w1 Accounts.w4)
  ∧ signIn "ann@example.org" "secret1" (auth Accounts.w4)
    = (setCurrentUserSession
         (Some (User.mk "u1" "Ann" "ann@example.org" (hashed "secret1")))
         (auth Accounts.w4),
       Resolve (User.mk "u1" "Ann" "ann@example.org" (hashed "secret1")))
  ∧ (∀ other, other ≠ "secret1" →
       signIn "ann@example.org" other (auth Accounts.w4)
       = (auth Accounts.w4, Reject "Invalid email or password."))
  ∧ (∀ name' password' uuid',
       signUp name' "ann@example.org" password' uuid' (auth Accounts.w4)
       = (auth Accounts.w4,
          Reject "An account with this email already exists.")).
Proof.
  assert (signUp "Ann" "ann@example.org" "secret1" "u1" noUsers
          = (auth Accounts.w1,
             Resolve (User.mk "u1" "Ann" "ann@example.org"
                        (hashed "secret1")))) as Hup by reflexivity.
  assert (rtc wstep Accounts.w1 Accounts.w4) as Hlater.
  { unfold Accounts.w4, Accounts.w3, Accounts.w2.
    eapply rtc_r; [eapply rtc_r; [eapply rtc_r; [apply rtc_refl|]|]|].
    - apply wstep_add_partner.
    - apply wstep_add_sale.
    - apply wstep_sign_out. }
  split; [by split|].
  exact (account_persists _ _ _ _ _ _ _ _ _ Hup eq_refl Hlater).
Defined.

(** * The sale form, the sale list and the analytics *)

(** ** Selecting partners *)

(** Toggling a partner id flips whether it is selected and leaves every
    other id as it was; a selection without duplicates stays without
    duplicates. *)
Theorem handlePartnerToggle_flips partnerId prev :
  (partnerId ∈ SaleForm.handlePartnerToggle partnerId prev
   ↔ partnerId ∉ prev)
  ∧ (∀ id, id ≠ partnerId →
       id ∈ SaleForm.handlePartnerToggle partnerId prev ↔ id ∈ prev)
  ∧ (NoDup prev → NoDup (SaleForm.handlePartnerToggle partnerId prev)).
Proof.
  unfold SaleForm.handlePartnerToggle.
  destruct (decide (partnerId ∈ prev)) as [Hin|Hout]; split_and!.
  - rewrite list_elem_of_filter. tauto.
  - intros id Hid. rewrite list_elem_of_filter. tauto.
  - apply NoDup_filter.
  - rewrite elem_of_app, list_elem_of_singleton. tauto.
  - intros id Hid. rewrite elem_of_app, list_elem_of_singleton. tauto.
  - intros Hnd. apply NoDup_app. split_and!; [done| |apply NoDup_singleton].
    by intros id Hid ->%list_elem_of_singleton.
Qed.

Lemma handlePartnerToggle_flips_witness :
  NoDup ["A"; "B"]
  ∧ NoDup (SaleForm.handlePartnerToggle "B" ["A"; "B"]).
Proof.
  assert (NoDup ["A"; "B"]) as Hnd.
  { apply NoDup_cons. split.
    - intros ?%list_elem_of_singleton. discriminate.
    - apply NoDup_singleton. }
  split; [exact Hnd|].
  exact (proj2 (proj2 (handlePartnerToggle_flips "B" ["A"; "B"])) Hnd).
Defined.

(** The estimate under the sale form and the stored profit agree: when the
    form is submitted, the estimate shown is the profit of the sale that is
    created; and the estimate is [0.00] whenever the sold price is below
    the purchase price or a price is not a number. *)
Theorem estimate_is_stored_profit name description pPrice sPrice selected :
  (∀ d env,
     AddSaleForm.handleSubmit name description pPrice sPrice selected
       = Submitted d →
     SaleForm.profit pPrice sPrice = Fixed2 (Sale.profit (newSale env d)))
  ∧ ((sPrice <? pPrice)%num = true
     ∨ Num.isNaN pPrice = true ∨ Num.isNaN sPrice = true →
     SaleForm.profit pPrice sPrice = Text "0.00").
Proof.
  unfold SaleForm.profit. split.
  - intros d env (_ & (Hp & Hs & _ & _) & Hlt & ->)%AddSaleForm_Submitted.
    cbn [newSale Sale.profit sd_soldPrice sd_purchasePrice].
    rewrite Hp, Hs. cbn [negb andb].
    change (sPrice >=? pPrice)%num with (pPrice <=? sPrice)%num.
    change (sPrice <? pPrice)%num with (pPrice >? sPrice)%num in Hlt.
    rewrite num_gt_not_le in Hlt by done.
    apply negb_false_iff in Hlt. by rewrite Hlt.
  - intros [Hlt|[Hp|Hs]].
    + apply num_lt_not_le in Hlt.
      change (sPrice >=? pPrice)%num with (pPrice <=? sPrice)%num.
      rewrite Hlt. by rewrite andb_false_r.
    + by rewrite Hp.
    + rewrite Hs. by rewrite andb_false_r.
Qed.

Lemma estimate_is_stored_profit_witness :
  AddSaleForm.handleSubmit "phone" "" (int 50) (int 150) ["A"; "B"]
  = Submitted Demo.saleData
  ∧ SaleForm.profit (int 50) (int 150)
    = Fixed2 (Sale.profit (newSale Demo.env1 Demo.saleData)).
Proof.
  assert (AddSaleForm.handleSubmit "phone" "" (int 50) (int 150) ["A"; "B"]
          = Submitted Demo.saleData) as Hsub by (vm_compute; reflexivity).
  split; [exact Hsub|].
  exact (proj1 (estimate_is_stored_profit "phone" "" (int 50) (int 150)
                  ["A"; "B"]) Demo.saleData Demo.env1 Hsub).
Defined.

(** ** Sorting *)

Section Sorting.

Context {A : Type} (comparefn : A → A → number).
Context (R : A → A → Prop) (D : A → Prop).

(** The comparison function decides the order [R] on the elements of [D]. *)
Hypothesis before : ∀ x y, D x → D y → (comparefn y x >? 0)%num = true → R x y.
Hypothesis behind : ∀ x y, D x → D y → (comparefn y x >? 0)%num = false → R y x.
Hypothesis R_trans : ∀ x y z, R x y → R y z → R x z.

Lemma insert_perm x (l : list A) : SaleList.insert comparefn x l ≡ₚ x :: l.
Proof.
  induction l as [|y l IH]; [done|]. cbn [SaleList.insert].
  destruct (_ >? _)%num; [done|]. rewrite IH. apply perm_swap.
Qed.

Lemma sort_perm_acc (l acc : list A) :
  fold_left (λ sorted x, SaleList.insert comparefn x sorted) l acc ≡ₚ l ++ acc.
Proof.
  revert acc. induction l as [|x l IH]; intros acc; [done|].
  cbn [fold_left]. rewrite IH, insert_perm. symmetry. apply Permutation_middle.
Qed.

Lemma sort_perm (l : list A) : SaleList.sort comparefn l ≡ₚ l.
Proof. unfold SaleList.sort. by rewrite sort_perm_acc, app_nil_r. Qed.

Lemma insert_sorted x (l : list A) :
  D x → Forall D l → StronglySorted R l →
  StronglySorted R (SaleList.insert comparefn x l).
Proof.
  intros Hx HD Hsorted.
  induction Hsorted as [|y l Hsorted IH Hy]; cbn [SaleList.insert].
  - by repeat constructor.
  - apply Forall_cons in HD as [HDy HD].
    destruct (comparefn y x >? 0)%num eqn:Hcmp.
    + constructor; [by constructor|]. constructor; [by apply before|].
      eapply Forall_impl; [exact Hy|]. intros z Hz.
      eapply R_trans; [|exact Hz]. by apply before.
    + constructor; [by apply IH|].
      rewrite insert_perm. constructor; [by apply behind|done].
Qed.

Lemma sort_sorted_acc (l acc : list A) :
  Forall D l → Forall D acc → StronglySorted R acc →
  StronglySorted R
    (fold_left (λ sorted x, SaleList.insert comparefn x sorted) l acc).
Proof.
  revert acc. induction l as [|x l IH]; intros acc Hl Hacc Hsorted; [done|].
  apply Forall_cons in Hl as [Hx Hl]. cbn [fold_left]. apply IH; [done| |].
  - rewrite insert_perm. by constructor.
  - by apply insert_sorted.
Qed.

Lemma sort_sorted (l : list A) :
  Forall D l → StronglySorted R (SaleList.sort comparefn l).
Proof. intros Hl. apply sort_sorted_acc; [done|constructor..]. Qed.

End Sorting.

(** ** The sale list *)

Section SaleListFacts.

Implicit Types (sales : list Sale) (a b : Sale).

Lemma filter_in_range sales startTimestamp endTimestamp :
  match endTimestamp with
  | Some t =>
      filter (λ sale, (Sale.timestamp sale ≤ t)%Z)
        match startTimestamp with
        | Some t' => filter (λ sale, (t' ≤ Sale.timestamp sale)%Z) sales
        | None => sales
        end
  | None =>
      match startTimestamp with
      | Some t' => filter (λ sale, (t' ≤ Sale.timestamp sale)%Z) sales
      | None => sales
      end
  end
  = filter (λ sale, SaleList.in_range startTimestamp endTimestamp sale) sales.
Proof.
  unfold SaleList.in_range.
  destruct startTimestamp as [t'|], endTimestamp as [t|].
  - rewrite list_filter_filter. apply list_filter_iff. intros sale.
    rewrite andb_True, !bool_decide_spec. tauto.
  - apply list_filter_iff. intros sale.
    rewrite andb_True, bool_decide_spec. cbn. tauto.
  - apply list_filter_iff. intros sale.
    rewrite andb_True, bool_decide_spec. cbn. tauto.
  - symmetry. apply filter_all, Forall_forall. by intros.
Qed.

Lemma int_pos (z : Z) : (int z >? 0)%num = true ↔ (0 < z)%Z.
Proof.
  unfold int, Num.gt, Num.zero. rewrite num_lt_Fin, Z2Qc_inj_lt.
  by rewrite Z2Qc_inj_0.
Qed.

Lemma int_not_pos (z : Z) : (int z >? 0)%num = false ↔ (z ≤ 0)%Z.
Proof.
  rewrite <- not_true_iff_false, int_pos. lia.
Qed.

(** The sign of a difference of finite numbers. *)
Lemma sub_pos (x y : number) :
  Num.isFinite x = true → Num.isFinite y = true →
  (x - y >? 0)%num = (y <? x)%num.
Proof.
  intros [a ->]%finite_inv [b ->]%finite_inv.
  unfold Num.gt, Num.sub, Num.zero. cbn [Num.neg Num.add].
  apply eq_true_iff_eq. rewrite !num_lt_Fin, (Qclt_minus_iff b a). done.
Qed.

Lemma num_lt_le (x y : number) : (x <? y)%num = true → (x <=? y)%num = true.
Proof.
  destruct x, y; try done. rewrite num_lt_Fin, num_le_Fin.
  apply Qclt_le_weak.
Qed.

Lemma num_not_lt_le (x y : number) :
  Num.isFinite x = true → Num.isFinite y = true →
  (x <? y)%num = false → (y <=? x)%num = true.
Proof.
  intros Hx Hy Hlt. change (x <? y)%num with (y >? x)%num in Hlt.
  rewrite num_gt_not_le in Hlt by by apply finite_not_NaN.
  by apply negb_false_iff in Hlt.
Qed.

Lemma ordered_trans sortOption a b c :
  SaleList.ordered sortOption a b → SaleList.ordered sortOption b c →
  SaleList.ordered sortOption a c.
Proof.
  destruct sortOption; cbn [SaleList.ordered]; intros Hab Hbc;
    first [lia | by eapply num_le_trans].
Qed.

Lemma finite_keys_Forall sortOption sales :
  SaleList.finite_keys sortOption sales → Forall (SaleList.finite_key sortOption) sales.
Proof.
  destruct sortOption; cbn [SaleList.finite_keys SaleList.finite_key];
    try done; intros _; apply Forall_forall; done.
Qed.

Lemma compareFn_before sortOption a b :
  SaleList.finite_key sortOption a → SaleList.finite_key sortOption b →
  (SaleList.compareFn sortOption b a >? 0)%num = true →
  SaleList.ordered sortOption a b.
Proof.
  destruct sortOption;
    cbn [SaleList.compareFn SaleList.ordered SaleList.finite_key];
    intros Ha Hb; rewrite ?int_pos, ?sub_pos by done;
    first [lia | apply num_lt_le].
Qed.

Lemma compareFn_behind sortOption a b :
  SaleList.finite_key sortOption a → SaleList.finite_key sortOption b →
  (SaleList.compareFn sortOption b a >? 0)%num = false →
  SaleList.ordered sortOption b a.
Proof.
  destruct sortOption;
    cbn [SaleList.compareFn SaleList.ordered SaleList.finite_key];
    intros Ha Hb; rewrite ?int_not_pos, ?sub_pos by done;
    first [lia | by apply num_not_lt_le].
Qed.

End SaleListFacts.

(** The sale list shows exactly the sales inside the date range, each one
    once: the list is a permutation of the sales of the range, whatever the
    sort option. *)
Theorem sale_list_shows_range sales sortOption startTimestamp endTimestamp :
  SaleList.filteredAndSortedSales sales sortOption startTimestamp endTimestamp
  ≡ₚ filter (λ sale, SaleList.in_range startTimestamp endTimestamp sale) sales.
Proof.
  unfold SaleList.filteredAndSortedSales.
  rewrite sort_perm, <- filter_in_range.
  by destruct startTimestamp, endTimestamp.
Qed.

(** The sale list is in the order of the sort option: by timestamp for the
    two date options, and by profit or sold price when those are finite
    numbers. *)
Theorem sale_list_sorted sales sortOption startTimestamp endTimestamp :
  SaleList.finite_keys sortOption sales →
  StronglySorted (SaleList.ordered sortOption)
    (SaleList.filteredAndSortedSales sales sortOption
       startTimestamp endTimestamp).
Proof.
  intros Hkeys%finite_keys_Forall. unfold SaleList.filteredAndSortedSales.
  apply (sort_sorted _ _ (SaleList.finite_key sortOption)).
  - intros x y. apply compareFn_before.
  - intros x y. apply compareFn_behind.
  - apply ordered_trans.
  - destruct startTimestamp, endTimestamp;
      repeat apply Forall_filter_keep; done.
Qed.

Lemma sale_list_sorted_witness :
  SaleList.finite_keys SaleList.profit_desc [Example.sale2; Example.sale1]
  ∧ StronglySorted (SaleList.ordered SaleList.profit_desc)
      (SaleList.filteredAndSortedSales [Example.sale2; Example.sale1]
         SaleList.profit_desc (Some 1%Z) None).
Proof.
  assert (SaleList.finite_keys SaleList.profit_desc
            [Example.sale2; Example.sale1]) as Hkeys by repeat constructor.
  split; [exact Hkeys|].
  exact (sale_list_sorted _ _ _ _ Hkeys).
Defined.

Example sale_list_example :
  Sale.id <$> SaleList.filteredAndSortedSales [Example.sale2; Example.sale1]
                SaleList.profit_desc None None = ["s1"; "s2"]
  ∧ Sale.id <$> SaleList.filteredAndSortedSales [Example.sale2; Example.sale1]
                  SaleList.date_desc None None = ["s2"; "s1"]
  ∧ Sale.id <$> SaleList.filteredAndSortedSales [Example.sale2; Example.sale1]
                  SaleList.date_desc None (Some 1%Z) = ["s1"].
Proof. split_and!; vm_compute; reflexivity. Qed.

(** ** Analytics *)

Section AnalyticsFacts.

Implicit Types (sales : list Sale) (st : AppState).

Lemma calculateStats_fold sales (p r : number) :
  fold_left
    (λ acc sale,
       {| Analytics.profit := (Analytics.profit acc + Sale.profit sale)%num;
          Analytics.revenue := (Analytics.revenue acc + Sale.soldPrice sale)%num |})
    sales {| Analytics.profit := p; Analytics.revenue := r |}
  = {| Analytics.profit := (p + total (Sale.profit <$> sales))%num;
       Analytics.revenue := (r + total (Sale.soldPrice <$> sales))%num |}.
Proof.
  revert p r. induction sales as [|s sales IH]; intros p r.
  - cbn [fold_left fmap list_fmap]. by rewrite !num_add_0_r.
  - cbn [fold_left Analytics.profit Analytics.revenue].
    by rewrite IH, !fmap_cons, !total_cons, !num_add_assoc.
Qed.

Lemma calculateStats_total sales :
  Analytics.calculateStats sales
  = {| Analytics.profit := total (Sale.profit <$> sales);
       Analytics.revenue := total (Sale.soldPrice <$> sales) |}.
Proof.
  unfold Analytics.calculateStats.
  by rewrite calculateStats_fold, !num_add_0_l.
Qed.

Lemma total_filter_le {A} (f : A → number) (P : A → Prop)
    `{!∀ a, Decision (P a)} (l : list A) :
  Forall (λ a, nonneg (f a)) l →
  nonneg (total (f <$> filter P l))
  ∧ nonneg (total (f <$> l))
  ∧ (total (f <$> filter P l) <=? total (f <$> l))%num = true.
Proof.
  induction 1 as [|a l Ha _ (Hsub & Hall & IH)].
  - split_and!; [apply nonneg_0..|done].
  - rewrite filter_cons, fmap_cons, total_cons.
    destruct (nonneg_inv _ Ha) as (x & Hx & Hx0).
    destruct (nonneg_inv _ Hsub) as (y & Hy & Hy0).
    destruct (nonneg_inv _ Hall) as (z & Hz & Hz0).
    assert (y ≤ z)%Qc as Hyz by (apply num_le_Fin; by rewrite <- Hy, <- Hz).
    destruct (decide (P a)).
    + rewrite fmap_cons, total_cons. split_and!; try by apply nonneg_add.
      rewrite Hx, Hy, Hz. change (Fin ?u + Fin ?v)%num with (Fin (u + v)).
      by apply num_le_Fin, Qcplus_le_mono_l.
    + split_and!; [done|by apply nonneg_add|].
      rewrite Hx, Hy, Hz. change (Fin ?u + Fin ?v)%num with (Fin (u + v)).
      apply num_le_Fin. rewrite <- (Qcplus_0_l y).
      by apply Qcplus_le_compat.
Qed.

Lemma total_le_pointwise {A} (f g : A → number) (l : list A) :
  Forall (λ a, Num.isFinite (f a) = true ∧ Num.isFinite (g a) = true
               ∧ (f a <=? g a)%num = true) l →
  Num.isFinite (total (f <$> l)) = true
  ∧ Num.isFinite (total (g <$> l)) = true
  ∧ (total (f <$> l) <=? total (g <$> l))%num = true.
Proof.
  induction 1 as [|a l (Hf & Hg & Hle) _ (Hfs & Hgs & IH)]; [done|].
  rewrite !fmap_cons, !total_cons.
  apply finite_inv in Hf as [x Hx]. apply finite_inv in Hg as [y Hy].
  apply finite_inv in Hfs as [u Hu]. apply finite_inv in Hgs as [v Hv].
  rewrite Hx, Hy in Hle. rewrite Hu, Hv in IH. rewrite Hx, Hy, Hu, Hv.
  change (Fin ?u + Fin ?v)%num with (Fin (u + v)).
  split_and!; [done..|].
  apply num_le_Fin in Hle, IH. by apply num_le_Fin, Qcplus_le_compat.
Qed.

Lemma newSale_valid_prices name description pPrice sPrice selected d env :
  AddSaleForm.handleSubmit name description pPrice sPrice selected
    = Submitted d →
  valid_prices (newSale env d).
Proof.
  intros Hd. split; [by eapply newSale_has_margin|].
  by apply AddSaleForm_Submitted in Hd as (_ & (Hp & _ & Hp0 & _) & _ & ->).
Qed.

Lemma stripPartner_valid_prices id sale :
  valid_prices sale → valid_prices (stripPartner id sale).
Proof. unfold stripPartner. by destruct (decide _). Qed.

Lemma reachable_valid_prices st : reachable st → Forall valid_prices (sales st).
Proof.
  unfold reachable. revert st.
  apply (rtc_ind_r (λ st, Forall valid_prices (sales st))).
  - constructor.
  - intros st st' _ Hstep IH.
    destruct Hstep as [st env name description pPrice sPrice selected d Hd
                      |st|st id|st]; cbn [sales handleAddSale handleAddPartner
      handleDeletePartner handleAddSettlement]; try done.
    + constructor; [|done]. by eapply newSale_valid_prices.
    + apply Forall_fmap. eapply Forall_impl; [exact IH|].
      intros sale. apply stripPartner_valid_prices.
Qed.

(** The profit of a sale with valid finite prices is at most what it sold
    for. *)
Lemma profit_le_soldPrice sale :
  valid_prices sale →
  Num.isFinite (Sale.purchasePrice sale) = true →
  Num.isFinite (Sale.soldPrice sale) = true →
  Num.isFinite (Sale.profit sale) = true
  ∧ (Sale.profit sale <=? Sale.soldPrice sale)%num = true.
Proof.
  intros ([-> _] & _ & Hneg) [p Hp]%finite_inv [s ->]%finite_inv.
  rewrite Hp in *. unfold Num.sub. cbn [Num.neg Num.add].
  split; [done|]. apply num_le_Fin.
  assert (0 ≤ p)%Qc as Hp0.
  { apply Qcnot_lt_le. intros Hlt. apply num_lt_Fin in Hlt.
    unfold Num.zero in Hneg. congruence. }
  rewrite <- (Qcplus_0_r s) at 2. apply Qcplus_le_mono_l.
  rewrite <- (Qcopp_involutive 0). apply Qcopp_le_compat.
  by replace (- 0)%Qc with 0%Qc by ring.
Qed.

End AnalyticsFacts.

(** When the month starts no later than the day and no sale has a negative
    profit or sold price (all finite), the profit and the revenue of the
    day are at most those of the month. *)
Theorem daily_within_monthly todayStart monthStart sales :
  (monthStart ≤ todayStart)%Z →
  Forall (λ s, nonneg (Sale.profit s) ∧ nonneg (Sale.soldPrice s)) sales →
  (Analytics.profit (Analytics.dailyStats todayStart sales)
   <=? Analytics.profit (Analytics.monthlyStats monthStart sales))%num = true
  ∧ (Analytics.revenue (Analytics.dailyStats todayStart sales)
     <=? Analytics.revenue (Analytics.monthlyStats monthStart sales))%num
    = true.
Proof.
  intros Hstart Hsales.
  unfold Analytics.dailyStats, Analytics.monthlyStats.
  rewrite !calculateStats_total. cbn [Analytics.profit Analytics.revenue].
  rewrite <- (list_filter_filter_l
    (λ sale, (todayStart ≤ Sale.timestamp sale)%Z)
    (λ sale, (monthStart ≤ Sale.timestamp sale)%Z)) by (intros; lia).
  split; apply total_filter_le, Forall_filter_keep;
    (eapply Forall_impl; [exact Hsales|]); by intros s [? ?].
Qed.

Lemma daily_within_monthly_witness :
  ((0 ≤ 2)%Z
   ∧ Forall (λ s, nonneg (Sale.profit s) ∧ nonneg (Sale.soldPrice s))
       [Example.sale2; Example.sale1])
  ∧ (Analytics.profit
       (Analytics.dailyStats 2 [Example.sale2; Example.sale1])
     <=? Analytics.profit
           (Analytics.monthlyStats 0 [Example.sale2; Example.sale1]))%num
    = true
  ∧ (Analytics.revenue
       (Analytics.dailyStats 2 [Example.sale2; Example.sale1])
     <=? Analytics.revenue
           (Analytics.monthlyStats 0 [Example.sale2; Example.sale1]))%num
    = true.
Proof.
  assert (0 ≤ 2)%Z as Hstart by lia.
  assert (Forall (λ s, nonneg (Sale.profit s) ∧ nonneg (Sale.soldPrice s))
            [Example.sale2; Example.sale1]) as Hsales
    by (repeat constructor).
  split; [by split|].
  exact (daily_within_monthly 2 0 _ Hstart Hsales).
Defined.

(** In every reachable state with finite prices, the profit that the
    analytics show for the day and for the month is at most the revenue
    they show. *)
Theorem profit_within_revenue st todayStart monthStart :
  reachable st → finite_prices st →
  (Analytics.profit (Analytics.dailyStats todayStart (sales st))
   <=? Analytics.revenue (Analytics.dailyStats todayStart (sales st)))%num
    = true
  ∧ (Analytics.profit (Analytics.monthlyStats monthStart (sales st))
     <=? Analytics.revenue (Analytics.monthlyStats monthStart (sales st)))%num
    = true.
Proof.
  intros Hprices%reachable_valid_prices Hfin.
  unfold Analytics.dailyStats, Analytics.monthlyStats.
  rewrite !calculateStats_total. cbn [Analytics.profit Analytics.revenue].
  unfold finite_prices in Hfin. rewrite Forall_forall in Hprices, Hfin.
  split; apply total_le_pointwise, Forall_forall;
    intros s [_ Hs]%list_elem_of_filter;
    destruct (Hfin s Hs) as [Hp Hsold];
    destruct (profit_le_soldPrice s (Hprices s Hs) Hp Hsold); done.
Qed.

Lemma profit_within_revenue_witness :
  (reachable Demo.paid ∧ finite_prices Demo.paid)
  ∧ (Analytics.profit (Analytics.dailyStats 3 (sales Demo.paid))
     <=? Analytics.revenue (Analytics.dailyStats 3 (sales Demo.paid)))%num
    = true
  ∧ (Analytics.profit (Analytics.monthlyStats 0 (sales Demo.paid))
     <=? Analytics.revenue (Analytics.monthlyStats 0 (sales Demo.paid)))%num
    = true.
Proof.
  assert (finite_prices Demo.paid) as Hfin by repeat constructor.
  split; [split; [exact paid_reachable|exact Hfin]|].
  exact (profit_within_revenue Demo.paid 3 0 paid_reachable Hfin).
Defined.

(** ** The chart *)

Section ChartFacts.

Implicit Types (values : list number) (x y m : number).

(** Over finite values [Math.max] keeps what it started from or takes one
    of the values, and is at least every value. *)
Lemma mathMax_fold values m :
  Forall (λ x, Num.isFinite x = true) values →
  Num.isNaN m = false →
  let r := fold_left SalesHistoryChart.max2 values m in
  (r = m ∨ r ∈ values) ∧ (m <=? r)%num = true
  ∧ ∀ x, x ∈ values → (x <=? r)%num = true.
Proof.
  intros Hvalues. revert m.
  induction Hvalues as [|y values Hy _ IH]; intros m Hm r.
  - split_and!; [by left|by apply num_le_refl|].
    by intros x ?%elem_of_nil.
  - subst r. cbn [fold_left].
    assert (Num.isNaN y = false) as Hy' by by apply finite_not_NaN.
    assert (Num.isNaN (SalesHistoryChart.max2 m y) = false
            ∧ (SalesHistoryChart.max2 m y = m
               ∨ SalesHistoryChart.max2 m y = y)
            ∧ (m <=? SalesHistoryChart.max2 m y)%num = true
            ∧ (y <=? SalesHistoryChart.max2 m y)%num = true)
      as (Hnan & Hcase & Hm' & Hy'').
    { unfold SalesHistoryChart.max2. rewrite Hm, Hy'. cbn [orb].
      destruct (m <? y)%num eqn:Hlt.
      - split_and!; [done|by right|by apply num_lt_le|by apply num_le_refl].
      - split_and!; [done|by left|by apply num_le_refl|].
        change (m <? y)%num with (y >? m)%num in Hlt.
        rewrite num_gt_not_le in Hlt by done.
        by apply negb_false_iff in Hlt. }
    destruct (IH _ Hnan) as (Hr & Hle & Hall). split_and!.
    + destruct Hr as [->|Hr]; [|right; by apply list_elem_of_further].
      destruct Hcase as [->| ->]; [by left|right; apply list_elem_of_here].
    + by eapply num_le_trans.
    + intros x [->|Hx]%elem_of_cons; [by eapply num_le_trans|by apply Hall].
Qed.

Lemma maxValue_pos values : (0 <? SalesHistoryChart.maxValue values)%num = true.
Proof.
  unfold SalesHistoryChart.maxValue. destruct (decide _); [done|].
  by destruct (_ >? 0)%num eqn:Hmax.
Qed.

(** A positive share of a positive whole, scaled to 180. *)
Lemma bar_bounds (v m : Qc) :
  (0 < v)%Qc → (v ≤ m)%Qc →
  (0 ≤ v / m * Qc_of_Z 180)%Qc ∧ (v / m * Qc_of_Z 180 ≤ Qc_of_Z 180)%Qc.
Proof.
  intros Hv Hvm.
  assert (0 < m)%Qc as Hm by by eapply Qclt_le_trans.
  assert (0 < / m)%Qc as Hinv by by apply Qcinv_pos.
  assert (0 ≤ Qc_of_Z 180)%Qc as H180 by by apply Qcle_alt.
  assert (0 ≤ v / m)%Qc as Hq.
  { apply Qcmult_nonneg_nonneg; by apply Qclt_le_weak. }
  split.
  - by apply Qcmult_nonneg_nonneg.
  - rewrite <- (Qcmult_1_l (Qc_of_Z 180)) at 2.
    apply Qcmult_le_mono_nonneg_r; [done|].
    rewrite <- (Qcmult_inv_r m) by (symmetry; by apply Qclt_not_eq).
    unfold Qcdiv. apply Qcmult_le_mono_nonneg_r; [|done].
    by apply Qclt_le_weak.
Qed.

End ChartFacts.

(** The scale of the chart is never zero, negative or [NaN]; and for finite
    values every bar is at least 0 and at most 180 high, so it fits the
    chart. *)
Theorem chart_bars_fit values :
  (0 <? SalesHistoryChart.maxValue values)%num = true
  ∧ (Forall (λ x, Num.isFinite x = true) values →
     ∀ value, value ∈ values →
       nonneg (SalesHistoryChart.barHeight value
                 (SalesHistoryChart.maxValue values))
       ∧ (SalesHistoryChart.barHeight value
            (SalesHistoryChart.maxValue values) <=? int 180)%num = true).
Proof.
  split; [apply maxValue_pos|].
  intros Hfin value Hin. unfold SalesHistoryChart.barHeight.
  destruct (value >? 0)%num eqn:Hpos; [|by split; [apply nonneg_0|]].
  destruct (mathMax_fold values NegInf Hfin eq_refl) as (Hr & _ & Hall).
  cbv zeta in Hr, Hall. fold (SalesHistoryChart.mathMax values) in Hr, Hall.
  pose proof (Hall _ Hin) as Hle.
  assert ((0 <? SalesHistoryChart.mathMax values)%num = true) as Hmax
    by by eapply num_lt_le_trans.
  unfold SalesHistoryChart.maxValue.
  rewrite decide_False by (destruct values; [by apply elem_of_nil in Hin|done]).
  change (SalesHistoryChart.mathMax values >? 0)%num
    with (0 <? SalesHistoryChart.mathMax values)%num.
  rewrite Hmax.
  destruct Hr as [Hr|Hr]; [by rewrite Hr in Hmax|].
  rewrite Forall_forall in Hfin.
  destruct (finite_inv _ (Hfin _ Hr)) as [m Hm].
  destruct (finite_inv _ (Hfin _ Hin)) as [v Hv].
  rewrite Hm, Hv in *. unfold Num.zero, Num.gt in *.
  apply num_lt_Fin in Hpos, Hmax. apply num_le_Fin in Hle.
  destruct (bar_bounds v m Hpos Hle) as [H0 H180].
  assert (Num.sgn m = Gt) as Hsgn by by apply Qcgt_alt.
  unfold int. cbn [Num.div Num.mul]. rewrite Hsgn.
  split; [by apply nonneg_Fin|by apply num_le_Fin].
Qed.

Lemma chart_bars_fit_witness :
  (Forall (λ x, Num.isFinite x = true) [int 10; int 20]
   ∧ int 10 ∈ [int 10; int 20])
  ∧ nonneg (SalesHistoryChart.barHeight (int 10)
              (SalesHistoryChart.maxValue [int 10; int 20]))
  ∧ (SalesHistoryChart.barHeight (int 10)
       (SalesHistoryChart.maxValue [int 10; int 20]) <=? int 180)%num = true.
Proof.
  assert (Forall (λ x, Num.isFinite x = true) [int 10; int 20]) as Hfin
    by repeat constructor.
  assert (int 10 ∈ [int 10; int 20]) as Hin by repeat constructor.
  split; [split; [exact Hfin|exact Hin]|].
  exact (proj2 (chart_bars_fit [int 10; int 20]) Hfin (int 10) Hin).
Defined.

(** ** The CSV export *)

Lemma doubleQuotes_inj (s s' : string) :
  SaleList.doubleQuotes s +:+ String SaleList.quote EmptyString
  = SaleList.doubleQuotes s' +:+ String SaleList.quote EmptyString →
  s = s'.
Proof.
  revert s'. induction s as [|c s IH]; intros [|c' s'];
    cbn [SaleList.doubleQuotes].
  - done.
  - destruct (decide (c' = SaleList.quote)) as [->|Hc']; cbn;
      intros Heq; by simplify_eq.
  - destruct (decide (c = SaleList.quote)) as [->|Hc]; cbn;
      intros Heq; by simplify_eq.
  - destruct (decide (c = SaleList.quote)) as [->|Hc],
      (decide (c' = SaleList.quote)) as [->|Hc']; cbn; intros Heq.
    + f_equal. apply IH. by simplify_eq.
    + by simplify_eq.
    + by simplify_eq.
    + simplify_eq. f_equal. by apply IH.
Qed.

(** [escapeCSV] never gives two different strings the same field. *)
Theorem escapeCSV_injective (str str' : string) :
  SaleList.escapeCSV str = SaleList.escapeCSV str' → str = str'.
Proof.
  unfold SaleList.escapeCSV. intros [= Heq]. by apply doubleQuotes_inj.
Qed.

Lemma escapeCSV_injective_witness :
  SaleList.escapeCSV "phone" = SaleList.escapeCSV "phone"
  ∧ "phone" = "phone".
Proof.
  split; [reflexivity|].
  exact (escapeCSV_injective "phone" "phone" eq_refl).
Defined.

(** * How the operations of the ledger compose *)

Section Composition.

Implicit Types (st : AppState) (k : string) (p : Partner).

Lemma initial_snoc k (partners : list Partner) p :
  k ≠ Partner.id p → initial k (partners ++ [p]) = initial k partners.
Proof.
  intros Hk. unfold initial. apply decide_ext.
  rewrite fmap_app, elem_of_app.
  change (Partner.id <$> [p]) with [Partner.id p].
  rewrite list_elem_of_singleton. tauto.
Qed.

Lemma shares_other k p sale : k ≠ Partner.id p → shares k [p] sale = [].
Proof.
  intros Hk. unfold shares. rewrite list_filter_filter.
  rewrite filter_none; [done|]. intros a ->%list_elem_of_singleton [? _].
  by apply Hk.
Qed.

Lemma deltas_snoc_partner k (partners : list Partner) p sales settlements :
  k ≠ Partner.id p →
  deltas k (partners ++ [p]) sales settlements
  = deltas k partners sales settlements.
Proof.
  intros Hk. unfold deltas. f_equal. apply list_bind_ext; [|done].
  intros sale. by rewrite shares_app, shares_other, app_nil_r.
Qed.

End Composition.

(** ** One action, one change of the balances *)

Section Ledger.

Implicit Types (st : AppState) (p : Partner) (k : string).

Lemma partner_entry partners sales settlements p :
  finite_amounts partners sales settlements → p ∈ partners →
  ∃ q, total (deltas (Partner.id p) partners sales settlements) = Fin q
       ∧ partnerBalances partners sales settlements !! Partner.id p
         = Some (Fin q).
Proof.
  intros Hfin Hp.
  destruct (finite_inv _ (total_finite _ (deltas_finite (Partner.id p) _ _ _ Hfin)))
    as [q Hq].
  exists q. split; [done|].
  rewrite partnerBalances_finite, decide_True, Hq; [done| |done].
  left. by apply list_elem_of_fmap_2.
Qed.

Lemma partnerBalances_None partners sales settlements k :
  k ∉ Partner.id <$> partners →
  k ∉ Settlement.partnerId <$> settlements →
  partnerBalances partners sales settlements !! k = None.
Proof.
  intros Hp Ht. rewrite partnerBalances_lookup. unfold deltas, initial.
  rewrite decide_False, shares_absent, payments_unsettled; [done| |done..].
  intros t Hin <-. apply Ht. by apply list_elem_of_fmap_2.
Qed.

Lemma handleSettle_entry partners sales settlements p a d :
  handleSettle partners sales settlements (Some p) a = Submitted d →
  is_Some (partnerBalances partners sales settlements !! Partner.id p)
  ∧ d = {| td_partnerId := Partner.id p; td_amount := a |}.
Proof.
  unfold handleSettle.
  destruct (partnerBalances _ _ _ !! Partner.id p) as [b|].
  - intros Hd. split; [by eexists|].
    destruct (_ || _); [done|]. destruct (_ >? _)%num; [done|].
    by simplify_eq.
  - change (Num.or_zero None) with 0%num.
    destruct (Num.isNaN a) eqn:Hnan; [done|].
    destruct (a <=? 0)%num eqn:Hle; [done|]. cbn [orb].
    by rewrite (num_gt_not_le a 0%num Hnan eq_refl), Hle.
Qed.

Lemma referenced_step st st' : step st st' → referenced st → referenced st'.
Proof.
  unfold referenced.
  intros [st0 env name description pPrice sPrice selected saleData _
         |st0 env name perc partnerData _
         |st0 d
         |st0 env partner amount settlementData Hsettle] Href.
  - done.
  - cbn [handleAddPartner partners settlements].
    eapply Forall_impl; [exact Href|]. intros t Ht.
    rewrite fmap_app. apply elem_of_app. by left.
  - cbn [handleDeletePartner partners settlements].
    apply Forall_forall. intros t [Hne Ht]%list_elem_of_filter.
    rewrite Forall_forall in Href.
    destruct (proj1 (list_elem_of_fmap _ _ _) (Href _ Ht)) as (p & Hid & Hp).
    rewrite Hid. apply list_elem_of_fmap_2. apply list_elem_of_filter.
    split; [congruence|done].
  - cbn [handleAddSettlement partners settlements].
    apply Forall_app. split; [done|]. apply Forall_singleton.
    destruct (handleSettle_entry _ _ _ _ _ _ Hsettle) as [Hsome ->].
    cbn [newSettlement Settlement.partnerId td_partnerId].
    destruct (decide (Partner.id partner ∈ Partner.id <$> partners st0))
      as [|Hout]; [done|].
    destruct (decide (Partner.id partner
                      ∈ Settlement.partnerId <$> settlements st0))
      as [Hin|Hout'].
    + apply list_elem_of_fmap in Hin as (t & Hid & Ht).
      rewrite Forall_forall in Href. rewrite Hid. by apply Href.
    + rewrite partnerBalances_None in Hsome by done. by destruct Hsome.
Qed.

Lemma reachable_referenced st : reachable st → referenced st.
Proof.
  unfold reachable. revert st. apply (rtc_ind_r (λ st, referenced st)).
  - by apply Forall_nil.
  - intros st st' _ Hstep IH. by eapply referenced_step.
Qed.

End Ledger.

(** Settling in full.  When the settle button of a partner is enabled, the
    owed amount itself passes [handleSettle], so recording it is a step of
    the ledger; afterwards the partner is owed exactly nothing and the
    button is disabled. *)
Theorem settle_in_full st p env :
  finite_amounts (partners st) (sales st) (settlements st) →
  p ∈ partners st →
  settleDisabled (partners st) (sales st) (settlements st) p = false →
  let owed := totalOwed (partners st) (sales st) (settlements st) p in
  let st' :=
    handleAddSettlement env
      {| td_partnerId := Partner.id p; td_amount := owed |} st in
  step st st'
  ∧ totalOwed (partners st') (sales st') (settlements st') p = 0%num
  ∧ settleDisabled (partners st') (sales st') (settlements st') p = true.
Proof.
  intros Hfin Hp Hon owed st'. subst owed st'.
  destruct (partner_entry _ _ _ p Hfin Hp) as (q & _ & Hentry).
  unfold settleDisabled in *. unfold totalOwed in *.
  rewrite Hentry in *. rewrite or_zero_Some in * by done.
  assert (totalOwed (partners st) (sales st)
            (settlements st ++
               [newSettlement env
                  {| td_partnerId := Partner.id p; td_amount := Fin q |}]) p
          = 0%num) as Hzero.
  { unfold totalOwed.
    rewrite partnerBalances_snoc, debitSettlement_lookup, decide_True by done.
    rewrite Hentry. unfold bump. rewrite (or_zero_Some (Fin q)) by done.
    cbn [newSettlement Settlement.amount td_amount Num.neg Num.add].
    change (Fin q + Fin (- q))%num with (Fin (q + - q)).
    by rewrite Qcplus_opp_r. }
  cbn [handleAddSettlement partners sales settlements].
  unfold totalOwed in Hzero. split_and!.
  - apply (step_settle st env p (Fin q)).
    apply (handleSettle_Submitted _ _ _ p (Fin q) (Fin q)); [done|].
    split; [|done]. split; [|by apply num_le_refl].
    destruct (0 <? Fin q)%num eqn:Hlt; [done|].
    apply (num_not_lt_le 0%num (Fin q)) in Hlt; [|done..]. congruence.
  - exact Hzero.
  - by rewrite Hzero.
Qed.

Lemma settle_in_full_witness :
  (finite_amounts (partners Demo.paid) (sales Demo.paid)
     (settlements Demo.paid)
   ∧ Example.A ∈ partners Demo.paid
   ∧ settleDisabled (partners Demo.paid) (sales Demo.paid)
       (settlements Demo.paid) Example.A = false)
  ∧ let owed := totalOwed (partners Demo.paid) (sales Demo.paid)
                  (settlements Demo.paid) Example.A in
    let st' :=
      handleAddSettlement Demo.env2
        {| td_partnerId := Partner.id Example.A; td_amount := owed |}
        Demo.paid in
    step Demo.paid st'
    ∧ totalOwed (partners st') (sales st') (settlements st') Example.A
      = 0%num
    ∧ settleDisabled (partners st') (sales st') (settlements st') Example.A
      = true.
Proof.
  assert (finite_amounts (partners Demo.paid) (sales Demo.paid)
            (settlements Demo.paid)) as Hfin
    by (split_and!; repeat constructor).
  assert (Example.A ∈ partners Demo.paid) as Hin by repeat constructor.
  assert (settleDisabled (partners Demo.paid) (sales Demo.paid)
            (settlements Demo.paid) Example.A = false) as Hon
    by (vm_compute; reflexivity).
  split; [split_and!; [exact Hfin|exact Hin|exact Hon]|].
  exact (settle_in_full Demo.paid Example.A Demo.env2 Hfin Hin Hon).
Defined.

(** Adding a partner changes no entry but the new partner's own: every
    other key holds after [handleAddPartner] what it held before; the new
    partner starts at zero when no sale lists the new id and no settlement
    names it. *)
Theorem add_partner_frame st env d :
  let st' := handleAddPartner env d st in
  (∀ k, k ≠ uuid env →
     partnerBalances (partners st') (sales st') (settlements st') !! k
     = partnerBalances (partners st) (sales st) (settlements st) !! k)
  ∧ ((∀ s, s ∈ sales st → uuid env ∉ Sale.partnerIds s) →
     (∀ t, t ∈ settlements st → Settlement.partnerId t ≠ uuid env) →
     partnerBalances (partners st') (sales st') (settlements st') !! uuid env
     = Some 0%num).
Proof.
  intros st'. subst st'. cbn [handleAddPartner partners sales settlements].
  split.
  - intros k Hk. rewrite !partnerBalances_lookup.
    by rewrite deltas_snoc_partner, initial_snoc.
  - intros Hsales Hsettle. rewrite partnerBalances_lookup. unfold deltas.
    rewrite shares_unassigned, payments_unsettled by done.
    unfold initial. rewrite decide_True; [done|].
    rewrite fmap_app. apply elem_of_app. right. by apply list_elem_of_singleton.
Qed.

Lemma add_partner_frame_witness :
  let env := {| uuid := "C"; now := 5 |} in
  let d := {| pd_name := "Cy"; pd_percentage := int 0 |} in
  let st' := handleAddPartner env d Demo.paid in
  ("A" ≠ uuid env
   ∧ (∀ s, s ∈ sales Demo.paid → uuid env ∉ Sale.partnerIds s)
   ∧ (∀ t, t ∈ settlements Demo.paid → Settlement.partnerId t ≠ uuid env))
  ∧ partnerBalances (partners st') (sales st') (settlements st') !! "A"
    = partnerBalances (partners Demo.paid) (sales Demo.paid)
        (settlements Demo.paid) !! "A"
  ∧ partnerBalances (partners st') (sales st') (settlements st') !! uuid env
    = Some 0%num.
Proof.
  intros env d st'.
  assert ("A" ≠ uuid env) as Hne by discriminate.
  assert (∀ s, s ∈ sales Demo.paid → uuid env ∉ Sale.partnerIds s) as Hs.
  { intros s ->%list_elem_of_singleton Hin.
    apply elem_of_cons in Hin as [Heq|Hin]; [discriminate|].
    apply list_elem_of_singleton in Hin. discriminate. }
  assert (∀ t, t ∈ settlements Demo.paid → Settlement.partnerId t ≠ uuid env)
    as Ht.
  { intros t ->%list_elem_of_singleton. discriminate. }
  split; [split_and!; [exact Hne|exact Hs|exact Ht]|].
  split.
  - exact (proj1 (add_partner_frame Demo.paid env d) "A" Hne).
  - exact (proj2 (add_partner_frame Demo.paid env d) Hs Ht).
Defined.

(** After a partner is deleted the balance map has no entry for the deleted
    id, whatever the ledger held before. *)
Theorem delete_removes_entry st d :
  let st' := handleDeletePartner d st in
  partnerBalances (partners st') (sales st') (settlements st') !! d = None.
Proof.
  intros st'. subst st'. cbn [handleDeletePartner partners sales settlements].
  rewrite partnerBalances_lookup, deltas_delete_self. unfold initial.
  rewrite decide_False; [done|].
  intros (p & Hid & [Hne _]%list_elem_of_filter)%list_elem_of_fmap.
  by apply Hne.
Qed.

(** Referential integrity.  In every state reached through the forms each
    settlement names a partner of the state, and the balance map has an
    entry for exactly the ids of the partners. *)
Theorem settlements_name_partners st :
  reachable st →
  referenced st
  ∧ ∀ k, is_Some (partnerBalances (partners st) (sales st) (settlements st)
                    !! k)
         ↔ k ∈ Partner.id <$> partners st.
Proof.
  intros Href%reachable_referenced. split; [done|]. intros k. split.
  - intros Hsome.
    destruct (decide (k ∈ Partner.id <$> partners st)) as [|Hout]; [done|].
    destruct (decide (k ∈ Settlement.partnerId <$> settlements st))
      as [Hin|Hout'].
    + apply list_elem_of_fmap in Hin as (t & Hid & Ht).
      unfold referenced in Href. rewrite Forall_forall in Href.
      rewrite Hid. by apply Href.
    + rewrite partnerBalances_None in Hsome by done. by destruct Hsome.
  - intros Hin. rewrite partnerBalances_lookup. apply bump_is_Some. left.
    unfold initial. by rewrite decide_True.
Qed.

Lemma settlements_name_partners_witness :
  reachable Demo.paid
  ∧ (referenced Demo.paid
     ∧ ∀ k, is_Some (partnerBalances (partners Demo.paid) (sales Demo.paid)
                       (settlements Demo.paid) !! k)
            ↔ k ∈ Partner.id <$> partners Demo.paid).
Proof.
  split; [exact paid_reachable|].
  exact (settlements_name_partners Demo.paid paid_reachable).
Defined.

(** * Rounding *)

Section RoundToNearest.

Local Open Scope Z_scope.

Lemma rne_div_bounds a b :
  0 < b → a / b ≤ Binary64.rne_div a b ≤ a / b + 1.
Proof.
  intros Hb. unfold Binary64.rne_div.
  destruct (2 * (a mod b) ?= b); [destruct (Z.even _)|..]; lia.
Qed.

Lemma rne_div_le a b g :
  0 < b → a ≤ g * b → Binary64.rne_div a b ≤ g.
Proof.
  intros Hb Hab.
  assert (a / b ≤ g) as Hf by (apply Z.div_le_upper_bound; lia).
  destruct (decide (a / b = g)) as [Heq|Hne].
  - pose proof (Z.div_mod a b ltac:(lia)) as Hdm.
    pose proof (Z.mod_pos_bound a b Hb) as Hr.
    assert (a mod b = 0) as Hzero by nia.
    unfold Binary64.rne_div. rewrite Hzero.
    assert ((2 * 0 ?= b) = Lt) as -> by (by apply Z.compare_lt_iff). lia.
  - pose proof (rne_div_bounds a b Hb). lia.
Qed.

Lemma rne_div_ge a b g :
  0 < b → g * b ≤ a → g ≤ Binary64.rne_div a b.
Proof.
  intros Hb Hab.
  assert (g ≤ a / b) as Hf by (apply Z.div_le_lower_bound; lia).
  pose proof (rne_div_bounds a b Hb). lia.
Qed.

Lemma div_le_cross a1 b1 a2 b2 :
  0 < b1 → 0 < b2 → a1 * b2 ≤ a2 * b1 → a1 / b1 ≤ a2 / b2.
Proof.
  intros Hb1 Hb2 Hcross.
  apply Z.div_le_lower_bound; [done|].
  pose proof (Z.div_mod a1 b1 ltac:(lia)) as Hdm.
  pose proof (Z.mod_pos_bound a1 b1 Hb1) as Hr.
  nia.
Qed.

Lemma rne_div_mono a1 b1 a2 b2 :
  0 < b1 → 0 < b2 → a1 * b2 ≤ a2 * b1 →
  Binary64.rne_div a1 b1 ≤ Binary64.rne_div a2 b2.
Proof.
  intros Hb1 Hb2 Hcross.
  pose proof (div_le_cross _ _ _ _ Hb1 Hb2 Hcross) as Hf.
  pose proof (rne_div_bounds a1 b1 Hb1) as H1.
  pose proof (rne_div_bounds a2 b2 Hb2) as H2.
  destruct (decide (a1 / b1 = a2 / b2)) as [Heq|Hne]; [|lia].
  pose proof (Z.div_mod a1 b1 ltac:(lia)) as Hdm1.
  pose proof (Z.div_mod a2 b2 ltac:(lia)) as Hdm2.
  pose proof (Z.mod_pos_bound a1 b1 Hb1) as Hr1.
  pose proof (Z.mod_pos_bound a2 b2 Hb2) as Hr2.
  assert (a1 mod b1 * b2 ≤ a2 mod b2 * b1) as Hr by nia.
  unfold Binary64.rne_div. rewrite <- Heq.
  destruct (Z.compare_spec (2 * (a1 mod b1)) b1) as [E1|L1|G1];
    destruct (Z.compare_spec (2 * (a2 mod b2)) b2) as [E2|L2|G2];
    try destruct (Z.even (a1 / b1)); try lia; nia.
Qed.

Lemma rne_div_exact a b : 0 < b → Binary64.rne_div (a * b) b = a.
Proof.
  intros Hb. unfold Binary64.rne_div.
  rewrite Z.div_mul, Z.mod_mul by lia.
  by assert ((2 * 0 ?= b) = Lt) as -> by (by apply Z.compare_lt_iff).
Qed.

Lemma ulp_exp_nonneg F : 0 ≤ Binary64.ulp_exp F.
Proof. unfold Binary64.ulp_exp. lia. Qed.

Lemma ulp_exp_mono F1 F2 : F1 ≤ F2 → Binary64.ulp_exp F1 ≤ Binary64.ulp_exp F2.
Proof.
  intros HF. unfold Binary64.ulp_exp.
  pose proof (Z.log2_le_mono _ _ HF). lia.
Qed.

(** Below the last place there are less than 53 bits. *)
Lemma ulp_exp_upper F : F < 2 ^ (53 + Binary64.ulp_exp F).
Proof.
  unfold Binary64.ulp_exp.
  destruct (decide (0 < F)) as [Hpos|Hneg].
  - destruct (Z.log2_spec F Hpos) as [_ Hlt].
    eapply Z.lt_le_trans; [exact Hlt|].
    apply Z.pow_le_mono_r; lia.
  - pose proof (Z.pow_pos_nonneg 2 (53 + Z.max (Z.log2 F - 52) 0)). lia.
Qed.

(** Above the least exponent there are 53 bits. *)
Lemma ulp_exp_lower F :
  0 < Binary64.ulp_exp F → 2 ^ (52 + Binary64.ulp_exp F) ≤ F.
Proof.
  unfold Binary64.ulp_exp. intros He.
  assert (0 < F) as Hpos.
  { destruct (decide (0 < F)); [done|].
    rewrite Z.log2_nonpos in He by lia. lia. }
  destruct (Z.log2_spec F Hpos) as [Hle _].
  replace (52 + Z.max (Z.log2 F - 52) 0) with (Z.log2 F) by lia. done.
Qed.

Lemma round_units_mono n1 d1 n2 d2 :
  0 < d1 → 0 < d2 → n1 * d2 ≤ n2 * d1 →
  Binary64.round_units n1 d1 ≤ Binary64.round_units n2 d2.
Proof.
  intros Hd1 Hd2 Hcross. unfold Binary64.round_units.
  set (N1 := n1 * 2 ^ 1074). set (N2 := n2 * 2 ^ 1074).
  assert (0 < 2 ^ 1074) as Hu by (by apply Z.pow_pos_nonneg).
  assert (N1 * d2 ≤ N2 * d1) as HN by (unfold N1, N2; nia).
  pose proof (div_le_cross _ _ _ _ Hd1 Hd2 HN) as HF.
  pose proof (ulp_exp_mono _ _ HF) as He.
  set (e1 := Binary64.ulp_exp (N1 / d1)) in *.
  set (e2 := Binary64.ulp_exp (N2 / d2)) in *.
  pose proof (ulp_exp_nonneg (N1 / d1)) as He1. fold e1 in He1.
  assert (0 < 2 ^ e1) as Hp1 by (apply Z.pow_pos_nonneg; lia).
  assert (0 < 2 ^ e2) as Hp2 by (apply Z.pow_pos_nonneg; lia).
  destruct (decide (e1 = e2)) as [Heq|Hne].
  - rewrite <- Heq. apply Z.mul_le_mono_nonneg_r; [lia|].
    apply rne_div_mono; nia.
  - assert (e1 + 1 ≤ e2) as Hlt by lia.
    (* the first value is at most [2^(53+e1)], the second at least
       [2^(52+e2)] *)
    transitivity (2 ^ 53 * 2 ^ e1).
    + apply Z.mul_le_mono_nonneg_r; [lia|].
      apply rne_div_le; [nia|].
      pose proof (ulp_exp_upper (N1 / d1)) as Hup. fold e1 in Hup.
      rewrite Z.pow_add_r in Hup by lia.
      pose proof (Z.div_mod N1 d1 ltac:(lia)) as Hdm.
      pose proof (Z.mod_pos_bound N1 d1 Hd1) as Hr.
      nia.
    + transitivity (2 ^ 52 * 2 ^ e2).
      * rewrite <- !Z.pow_add_r by lia. apply Z.pow_le_mono_r; lia.
      * apply Z.mul_le_mono_nonneg_r; [lia|].
        apply rne_div_ge; [nia|].
        pose proof (ulp_exp_lower (N2 / d2) ltac:(fold e2; lia)) as Hlow.
        fold e2 in Hlow. rewrite Z.pow_add_r in Hlow by lia.
        pose proof (Z.div_mod N2 d2 ltac:(lia)) as Hdm.
        pose proof (Z.mod_pos_bound N2 d2 Hd2) as Hr.
        nia.
Qed.

End RoundToNearest.

Section RoundedValues.

Local Open Scope Z_scope.

Lemma round_units_nonneg n d : 0 ≤ n → 0 < d → 0 ≤ Binary64.round_units n d.
Proof.
  intros Hn Hd. unfold Binary64.round_units.
  set (e := Binary64.ulp_exp _).
  pose proof (ulp_exp_nonneg (n * 2 ^ 1074 / d)) as He. fold e in He.
  assert (0 < 2 ^ 1074) as Hu by (by apply Z.pow_pos_nonneg).
  assert (0 < 2 ^ e) as Hp by (apply Z.pow_pos_nonneg; lia).
  assert (0 ≤ Binary64.rne_div (n * 2 ^ 1074) (d * 2 ^ e));
    [apply rne_div_ge; nia|nia].
Qed.

(** What [round_units] returns is the count of a binary64 value. *)
Lemma round_units_exact n d :
  0 ≤ n → 0 < d → Binary64.exact_units (Binary64.round_units n d).
Proof.
  intros Hn Hd. unfold Binary64.exact_units, Binary64.round_units.
  set (N := n * 2 ^ 1074).
  assert (0 < 2 ^ 1074) as Hu by (by apply Z.pow_pos_nonneg).
  assert (0 ≤ N) as HN by (unfold N; nia).
  set (e := Binary64.ulp_exp (N / d)).
  pose proof (ulp_exp_nonneg (N / d)) as He. fold e in He.
  assert (0 < 2 ^ e) as Hp by (apply Z.pow_pos_nonneg; lia).
  set (m := Binary64.rne_div N (d * 2 ^ e)).
  assert (0 ≤ m) as Hm0 by (apply rne_div_ge; nia).
  assert (m ≤ 2 ^ 53) as Hm53.
  { apply rne_div_le; [nia|].
    pose proof (ulp_exp_upper (N / d)) as Hup. fold e in Hup.
    rewrite Z.pow_add_r in Hup by lia.
    pose proof (Z.div_mod N d ltac:(lia)) as Hdm.
    pose proof (Z.mod_pos_bound N d Hd) as Hr.
    nia. }
  destruct (decide (m = 0)) as [->|Hm]; [by rewrite Z.mul_0_l, Zmod_0_l|].
  assert (Z.log2 (m * 2 ^ e) = e + Z.log2 m) as Hlog
    by (apply Z.log2_mul_pow2; lia).
  unfold Binary64.ulp_exp. rewrite Hlog.
  destruct (decide (m = 2 ^ 53)) as [->|Hm'].
  - rewrite Z.log2_pow2 by lia.
    replace (Z.max (e + 53 - 52) 0) with (e + 1) by lia.
    replace (2 ^ 53 * 2 ^ e) with (2 ^ 52 * 2 ^ (e + 1))
      by (rewrite (Z.pow_add_r 2 e 1) by lia; lia).
    apply Z.mod_mul. lia.
  - assert (Z.log2 m < 53) as Hl by (apply Z.log2_lt_pow2; lia).
    set (u := Z.max (e + Z.log2 m - 52) 0).
    assert (0 ≤ u ≤ e) as Hu' by (unfold u; lia).
    replace (m * 2 ^ e) with (m * 2 ^ (e - u) * 2 ^ u).
    + apply Z.mod_mul. apply Z.pow_nonzero; lia.
    + rewrite <- Z.mul_assoc, <- Z.pow_add_r by lia. do 2 f_equal. lia.
Qed.

(** The count of a binary64 value is rounded to itself. *)
Lemma round_units_fix R n d :
  0 < d → Binary64.exact_units R → n * 2 ^ 1074 = R * d →
  Binary64.round_units n d = R.
Proof.
  intros Hd HR Hn. unfold Binary64.round_units. rewrite Hn.
  rewrite Z.div_mul by lia.
  unfold Binary64.exact_units in HR.
  set (e := Binary64.ulp_exp R) in *.
  pose proof (ulp_exp_nonneg R) as He. fold e in He.
  assert (0 < 2 ^ e) as Hp by (apply Z.pow_pos_nonneg; lia).
  pose proof (Z.div_mod R (2 ^ e) ltac:(lia)) as Hdm.
  rewrite HR, Z.add_0_r in Hdm.
  rewrite Hdm at 1.
  replace (2 ^ e * (R / 2 ^ e) * d) with (R / 2 ^ e * (d * 2 ^ e)) by lia.
  rewrite rne_div_exact by nia. lia.
Qed.

End RoundedValues.

Section RoundedNumbers.

Implicit Types (x y z : number) (q : Qc).

Lemma eqb_eq x y : Binary64.eqb x y = true ↔ x = y.
Proof.
  split.
  - destruct x as [| | |a], y as [| | |b]; try done. cbn [Binary64.eqb].
    by intros ->%Qc_eq_bool_correct.
  - intros <-. destruct x as [| | |a]; try done. cbn [Binary64.eqb].
    unfold Qc_eq_bool. destruct (Qcanon.Qc_eq_dec a a) as [|Hne]; [done|].
    by destruct Hne.
Qed.

Lemma Q2Qc_le (a b : Q) : (Q2Qc a ≤ Q2Qc b)%Qc ↔ (a <= b)%Q.
Proof. unfold Qcle. cbn [this Q2Qc]. by rewrite !Qred_correct. Qed.

Lemma units_le (R1 R2 : Z) :
  (R1 ≤ R2)%Z → (Q2Qc (R1 # 2 ^ 1074) ≤ Q2Qc (R2 # 2 ^ 1074))%Qc.
Proof.
  intros HR. apply Q2Qc_le. unfold Qle. cbn [Qnum Qden].
  apply Z.mul_le_mono_nonneg_r; [done|done].
Qed.

Lemma units_nonneg (R : Z) : (0 ≤ R)%Z → (0 ≤ Q2Qc (R # 2 ^ 1074))%Qc.
Proof.
  intros HR. change 0%Qc with (Q2Qc 0). apply Q2Qc_le.
  unfold Qle. cbn [Qnum Qden]. lia.
Qed.

Lemma units_nonpos (R : Z) : (R ≤ 0)%Z → (Q2Qc (R # 2 ^ 1074) ≤ 0)%Qc.
Proof.
  intros HR. change 0%Qc with (Q2Qc 0). apply Q2Qc_le.
  unfold Qle. cbn [Qnum Qden]. lia.
Qed.

Lemma of_units_le (R1 R2 : Z) :
  (R1 ≤ R2)%Z →
  (Binary64.of_units false R1 <=? Binary64.of_units false R2)%num = true.
Proof.
  intros HR. unfold Binary64.of_units.
  destruct (Z.leb_spec (2 ^ 2098) R1), (Z.leb_spec (2 ^ 2098) R2);
    try done; try lia.
  apply num_le_Fin. by apply units_le.
Qed.

Lemma of_units_neg_le (R1 R2 : Z) :
  (R2 ≤ R1)%Z →
  (Binary64.of_units true R1 <=? Binary64.of_units true R2)%num = true.
Proof.
  intros HR. unfold Binary64.of_units.
  destruct (Z.leb_spec (2 ^ 2098) R1), (Z.leb_spec (2 ^ 2098) R2);
    try done; try lia.
  apply num_le_Fin. apply units_le. lia.
Qed.

Lemma of_units_nonneg (R : Z) :
  (0 ≤ R)%Z → (0 <=? Binary64.of_units false R)%num = true.
Proof.
  intros HR. unfold Binary64.of_units.
  destruct (Z.leb_spec (2 ^ 2098) R); [done|].
  unfold Num.zero. apply num_le_Fin. by apply units_nonneg.
Qed.

Lemma of_units_nonpos (R : Z) :
  (0 ≤ R)%Z → (Binary64.of_units true R <=? 0)%num = true.
Proof.
  intros HR. unfold Binary64.of_units.
  destruct (Z.leb_spec (2 ^ 2098) R); [done|].
  unfold Num.zero. apply num_le_Fin. apply units_nonpos. lia.
Qed.

(** Rounding is monotone. *)
Lemma round_mono (a b : Qc) :
  (a ≤ b)%Qc → (Binary64.round a <=? Binary64.round b)%num = true.
Proof.
  unfold Qcle, Qle. intros Hab. unfold Binary64.round.
  destruct (Qnum a) as [|na|na] eqn:Ha, (Qnum b) as [|nb|nb] eqn:Hb;
    try (exfalso; lia).
  - done.
  - apply of_units_nonneg, round_units_nonneg; lia.
  - apply of_units_le, round_units_mono; lia.
  - apply of_units_nonpos, round_units_nonneg; lia.
  - eapply num_le_trans.
    + apply of_units_nonpos, round_units_nonneg; lia.
    + apply of_units_nonneg, round_units_nonneg; lia.
  - apply of_units_neg_le, round_units_mono; lia.
Qed.

(** Rounding a rounded value changes nothing. *)
Lemma round_of_units (s : bool) (R : Z) :
  (0 ≤ R)%Z → Binary64.exact_units R →
  Binary64.fl (Binary64.of_units s R) = Binary64.of_units s R.
Proof.
  intros HR Hex. unfold Binary64.of_units.
  destruct (Z.leb_spec (2 ^ 2098) R) as [|Hlt]; [by destruct s|].
  cbn [Binary64.fl]. unfold Binary64.round.
  set (q := Q2Qc _).
  assert (this q == (if s then - R else R)%Z # 2 ^ 1074)%Q as Hq
    by apply Qred_correct.
  unfold Qeq in Hq. cbn [Qnum Qden] in Hq.
  assert (0 < Z.pos (Qden q))%Z as Hd by done.
  assert (0 < 2 ^ 1074)%Z as Hu by done.
  change (Z.pos (2 ^ 1074)) with (2 ^ 1074)%Z in Hq.
  destruct (Qnum q) as [|n|n] eqn:Hn.
  - assert (R = 0%Z) as HR0 by (destruct s; nia).
    f_equal. apply Qc_is_canon. subst q R. cbn [this Q2Qc].
    rewrite Qred_correct. by destruct s.
  - assert (s = false) as -> by (destruct s; [nia|done]).
    rewrite (round_units_fix R); [|done..|lia].
    unfold Binary64.of_units.
    by destruct (Z.leb_spec (2 ^ 2098) R); [lia|].
  - assert (s = true) as -> by (destruct s; [done|nia]).
    rewrite (round_units_fix R); [|done..|lia].
    unfold Binary64.of_units.
    by destruct (Z.leb_spec (2 ^ 2098) R); [lia|].
Qed.

Lemma fl_round q : Binary64.fl (Binary64.round q) = Binary64.round q.
Proof.
  unfold Binary64.round.
  destruct (Qnum q) as [|n|n]; [done|..];
    apply round_of_units;
    auto using round_units_nonneg, round_units_exact with lia.
Qed.

Lemma fl_fl x : Binary64.fl (Binary64.fl x) = Binary64.fl x.
Proof. destruct x; try done. apply fl_round. Qed.

Lemma round_not_NaN q : Num.isNaN (Binary64.round q) = false.
Proof.
  unfold Binary64.round, Binary64.of_units.
  destruct (Qnum q); [done|..]; by destruct (_ <=? _)%Z.
Qed.

Lemma fl_mono x y :
  (x <=? y)%num = true → (Binary64.fl x <=? Binary64.fl y)%num = true.
Proof.
  destruct x as [| | |a], y as [| | |b]; try done; cbn [Binary64.fl].
  - intros _. pose proof (round_not_NaN b). by destruct (Binary64.round b).
  - intros _. pose proof (round_not_NaN a). by destruct (Binary64.round a).
  - intros Hab. apply round_mono. by apply num_le_Fin.
Qed.

End RoundedNumbers.

(** * The ledger in double precision *)

(** ** Sums of rounded numbers *)

Section RoundedSums.

Implicit Types (x y z a b : number) (l : list number).

Lemma fl_not_NaN x : Num.isNaN x = false → Num.isNaN (Binary64.fl x) = false.
Proof. destruct x; try done. intros _. apply round_not_NaN. Qed.

Lemma fl_0 : Binary64.fl 0 = 0%num.
Proof. reflexivity. Qed.

Lemma fl_nonneg x : (0 <=? x)%num = true → (0 <=? Binary64.fl x)%num = true.
Proof. intros Hx. rewrite <- fl_0. by apply fl_mono. Qed.

Lemma num_add_nonneg x y :
  (0 <=? x)%num = true → (0 <=? y)%num = true → (0 <=? x + y)%num = true.
Proof.
  destruct x as [| | |a], y as [| | |b]; try done.
  unfold Num.zero. change (Fin a + Fin b)%num with (Fin (a + b)).
  rewrite !num_le_Fin. intros Ha Hb.
  rewrite <- (Qcplus_0_l 0). by apply Qcplus_le_compat.
Qed.

Lemma num_add_le_mono_nonneg x x' y :
  (0 <=? x)%num = true → (0 <=? y)%num = true →
  (x <=? x')%num = true → (x + y <=? x' + y)%num = true.
Proof.
  destruct x as [| | |a], x' as [| | |a'], y as [| | |b]; try done.
  unfold Num.zero. change (Fin ?u + Fin ?v)%num with (Fin (u + v)).
  rewrite !num_le_Fin. intros _ _ Ha.
  apply Qcplus_le_compat; [done|apply Qcle_refl].
Qed.

Lemma num_le_add_nonneg x y :
  (0 <=? x)%num = true → (0 <=? y)%num = true → (x <=? x + y)%num = true.
Proof.
  destruct x as [| | |a], y as [| | |b]; try done.
  unfold Num.zero. change (Fin a + Fin b)%num with (Fin (a + b)).
  rewrite !num_le_Fin. intros _ Hb.
  rewrite <- (Qcplus_0_r a) at 1.
  apply Qcplus_le_compat; [apply Qcle_refl|done].
Qed.

Lemma rounded_add_nonneg x y :
  (0 <=? x)%num = true → (0 <=? y)%num = true →
  (0 <=? Binary64.add x y)%num = true.
Proof. intros Hx Hy. by apply fl_nonneg, num_add_nonneg. Qed.

(** Dropping terms that are not negative from a sum added up from the
    left does not raise the rounded sum. *)
Lemma rounded_sum_sublist l1 l2 a b :
  l1 `sublist_of` l2 →
  Forall (λ y, (0 <=? y)%num = true) l2 →
  (0 <=? a)%num = true → Binary64.fl a = a → (a <=? b)%num = true →
  (fold_left Binary64.add l1 a <=? fold_left Binary64.add l2 b)%num = true.
Proof.
  intros Hsub. revert a b.
  induction Hsub as [|y l1 l2 _ IH|y l1 l2 _ IH]; intros a b Hall Ha Hfl Hab.
  - done.
  - apply Forall_cons in Hall as [Hy Hall]. cbn [fold_left].
    apply IH; [done|by apply rounded_add_nonneg|apply fl_fl|].
    apply fl_mono. by apply num_add_le_mono_nonneg.
  - apply Forall_cons in Hall as [Hy Hall]. cbn [fold_left].
    apply IH; [done..|].
    rewrite <- Hfl. apply fl_mono.
    eapply num_le_trans; [exact Hab|].
    apply num_le_add_nonneg; [|done]. by eapply num_le_trans.
Qed.

End RoundedSums.

(** ** The balance map, one key at a time *)

Section RoundedEntries.

Import Rounded.PartnerManagement.

Implicit Types (k : string) (balances : gmap string number).
Implicit Types (partners : list Partner) (sales : list Sale).
Implicit Types (settlements : list Settlement) (p : Partner).

Lemma rounded_creditPartner_lookup sale balances p k :
  creditPartner sale balances p !! k
  = if decide (Partner.id p = k) then Rounded.bump (balances !! k) (cut sale p)
    else balances !! k.
Proof.
  unfold creditPartner. rewrite lookup_insert.
  case_decide; by subst.
Qed.

Lemma rounded_creditSale_lookup partners balances sale k :
  creditSale partners balances sale !! k
  = fold_left Rounded.bump (Rounded.shares k partners sale) (balances !! k).
Proof.
  assert (creditSale partners balances sale
          = fold_left (creditPartner sale)
              (filter (λ p, Partner.id p ∈ Sale.partnerIds sale) partners)
              balances) as ->.
  { unfold creditSale. by destruct (filter _ partners). }
  unfold Rounded.shares. rewrite fold_left_fmap.
  rewrite (fold_left_lookup _
    (λ o p, if decide (Partner.id p = k) then Rounded.bump o (cut sale p)
            else o))
    by (intros; apply rounded_creditPartner_lookup).
  apply fold_left_filter; intros; by case_decide.
Qed.

Lemma rounded_debitSettlement_lookup balances t k :
  debitSettlement balances t !! k
  = if decide (Settlement.partnerId t = k)
    then Rounded.bump (balances !! k) (Num.neg (Settlement.amount t))
    else balances !! k.
Proof.
  unfold debitSettlement. rewrite lookup_insert.
  case_decide; by subst.
Qed.

Lemma rounded_settlements_lookup settlements balances k :
  fold_left debitSettlement settlements balances !! k
  = fold_left Rounded.bump (payments k settlements) (balances !! k).
Proof.
  unfold payments. rewrite fold_left_fmap.
  rewrite (fold_left_lookup _
    (λ o t, if decide (Settlement.partnerId t = k)
            then Rounded.bump o (Num.neg (Settlement.amount t)) else o))
    by (intros; apply rounded_debitSettlement_lookup).
  apply fold_left_filter; intros; by case_decide.
Qed.

(** The entry of [k] in the computed balances. *)
Lemma rounded_partnerBalances_lookup partners sales settlements k :
  partnerBalances partners sales settlements !! k
  = fold_left Rounded.bump (Rounded.deltas k partners sales settlements)
      (initial k partners).
Proof.
  unfold partnerBalances, Rounded.deltas, initial.
  rewrite rounded_settlements_lookup, fold_left_app. f_equal.
  rewrite fold_left_bind.
  rewrite (fold_left_lookup _
    (λ o sale, fold_left Rounded.bump (Rounded.shares k partners sale) o))
    by (intros; apply rounded_creditSale_lookup).
  f_equal. rewrite initial_lookup. by rewrite lookup_empty.
Qed.

(** A sale that does not list [k] adds nothing to the entry of [k]. *)
Lemma rounded_shares_listed k partners sales :
  sales ≫= Rounded.shares k partners
  = filter (λ sale, k ∈ Sale.partnerIds sale) sales
      ≫= Rounded.shares k partners.
Proof.
  induction sales as [|s sales IH]; [done|].
  rewrite filter_cons, bind_cons, IH.
  destruct (decide (k ∈ Sale.partnerIds s)) as [Hin|Hout].
  - by rewrite bind_cons.
  - assert (Rounded.shares k partners s = []) as ->; [|done].
    unfold Rounded.shares. rewrite list_filter_filter.
    apply elem_of_nil_inv. intros x.
    rewrite list_elem_of_fmap.
    intros (p & _ & [[<- Hp] _]%list_elem_of_filter). done.
Qed.

Lemma rounded_shares_unique partners p sales :
  unique_ids partners → p ∈ partners →
  sales ≫= Rounded.shares (Partner.id p) partners
  = (λ sale, cut sale p) <$>
      filter (λ sale, Partner.id p ∈ Sale.partnerIds sale) sales.
Proof.
  intros Hnd Hp. induction sales as [|s sales IH]; [done|].
  rewrite bind_cons, IH, filter_cons. unfold Rounded.shares at 1.
  rewrite list_filter_filter, (filter_unique_id partners p) by done.
  by destruct (decide _).
Qed.

Lemma rounded_shares_nil k partners sales :
  k ∉ Partner.id <$> partners → sales ≫= Rounded.shares k partners = [].
Proof.
  intros Hk. induction sales as [|s sales IH]; [done|].
  rewrite bind_cons, IH, app_nil_r. unfold Rounded.shares.
  by rewrite list_filter_filter, filter_absent_id.
Qed.

(** A loop of updates on an entry that exists is a loop on its value. *)
Lemma fold_left_bump {A} (f : A → number) (l : list A) (a : number) :
  fold_left Rounded.bump (f <$> l) (Some a)
  = Some (fold_left
            (λ total x, Binary64.add (Num.or_zero (Some total)) (f x)) l a).
Proof.
  revert a. induction l as [|x l IH]; intros a; [done|].
  rewrite fmap_cons. cbn [fold_left]. unfold Rounded.bump at 2. apply IH.
Qed.

Lemma rounded_bump_is_Some (xs : list number) (entry : option number) :
  is_Some (fold_left Rounded.bump xs entry) ↔ is_Some entry ∨ xs ≠ [].
Proof.
  destruct xs as [|x xs].
  - cbn [fold_left]. split; [by left|]. by intros [?|?].
  - split; [by right|]. intros _. cbn [fold_left].
    unfold Rounded.bump at 2. generalize (Binary64.add (Num.or_zero entry) x).
    induction xs as [|y ys IH]; intros v; cbn [fold_left].
    + by eexists.
    + unfold Rounded.bump at 2. apply IH.
Qed.

(** The keys of the balance map: the partners, and whoever a settlement
    names. *)
Lemma rounded_partnerBalances_is_Some partners sales settlements k :
  is_Some (partnerBalances partners sales settlements !! k)
  ↔ k ∈ Partner.id <$> partners ∨ k ∈ Settlement.partnerId <$> settlements.
Proof.
  rewrite rounded_partnerBalances_lookup, rounded_bump_is_Some.
  unfold initial, Rounded.deltas, payments.
  destruct (decide (k ∈ Partner.id <$> partners)) as [Hin|Hout].
  - split; intros _; left; [done|by eexists].
  - rewrite rounded_shares_nil by done. cbn [app]. split.
    + intros [[? [=]]|Hne]. right.
      destruct (filter _ settlements) as [|t ts] eqn:Hf; [done|].
      assert (t ∈ filter (λ t, Settlement.partnerId t = k) settlements)
        as [<- Ht]%list_elem_of_filter by (rewrite Hf; apply list_elem_of_here).
      by apply list_elem_of_fmap_2.
    + intros [?|(t & -> & Ht)%list_elem_of_fmap]; [done|]. right.
      intros Hnil%fmap_nil_inv.
      assert (t ∈ filter (λ t', Settlement.partnerId t' = Settlement.partnerId t)
                settlements) as Hin by by apply list_elem_of_filter.
      rewrite Hnil in Hin. by apply elem_of_nil in Hin.
Qed.

End RoundedEntries.

(** ** The balance of a partner (C1) *)

(** C1.  For a snapshot in which the partner identities are unique, the
    balance computation gives each partner [p] of the partner list the
    running total of [p]: from [0], the share [profit * percentage / 100] of
    every sale that lists [p] is added in the order of the sales, then the
    amount of every settlement that names [p] is subtracted in the order of
    the settlements, every operation in double precision and every step
    reading the total it continues with [|| 0].  And a partner of the list
    that no sale lists and no settlement names has the entry [0]. *)
Theorem partnerBalances_running_balance partners sales settlements p :
  p ∈ partners →
  (unique_ids partners →
   Rounded.PartnerManagement.partnerBalances partners sales settlements
     !! Partner.id p
   = Some (Rounded.running_balance p sales settlements))
  ∧ ((∀ s, s ∈ sales → Partner.id p ∉ Sale.partnerIds s) →
     (∀ t, t ∈ settlements → Settlement.partnerId t ≠ Partner.id p) →
     Rounded.PartnerManagement.partnerBalances partners sales settlements
       !! Partner.id p
     = Some 0%num).
Proof.
  intros Hp. rewrite rounded_partnerBalances_lookup, initial_member by done.
  unfold Rounded.deltas. split.
  - intros Hnd. rewrite rounded_shares_unique by done.
    unfold payments.
    by rewrite fold_left_app, !fold_left_bump.
  - intros Hs Ht. rewrite rounded_shares_listed, payments_unsettled by done.
    assert (filter (λ sale, Partner.id p ∈ Sale.partnerIds sale) sales = [])
      as ->; [|done].
    apply elem_of_nil_inv. intros s [Hin Hs']%list_elem_of_filter.
    by apply (Hs s).
Qed.

Lemma partnerBalances_running_balance_witness :
  (Rounded.P ∈ [Rounded.P] ∧ unique_ids [Rounded.P])
  ∧ Rounded.PartnerManagement.partnerBalances [Rounded.P] Rounded.sales1
      Rounded.settlements1 !! Partner.id Rounded.P
    = Some (Rounded.running_balance Rounded.P Rounded.sales1
              Rounded.settlements1).
Proof.
  assert (Rounded.P ∈ [Rounded.P]) as HP by apply list_elem_of_here.
  assert (unique_ids [Rounded.P]) as Hnd by apply NoDup_singleton.
  split; [by split|].
  exact (proj1 (partnerBalances_running_balance [Rounded.P] Rounded.sales1
                  Rounded.settlements1 Rounded.P HP) Hnd).
Defined.

(** The running total is not the closed formula.  For one partner with the
    whole profit, a sale of 18.40 and payments of 3.54 and 3.79, the
    computed balance is [(18.4 - 3.54) - 3.79 = 11.07]; the sum of the
    shares minus the sum of the amounts is [18.4 - (3.54 + 3.79) =
    11.069999999999999], in double precision and in exact arithmetic
    alike. *)
Lemma balance_formula_rounds :
  Rounded.PartnerManagement.partnerBalances [Rounded.P] Rounded.sales1
    Rounded.settlements1 !! "P"
  = Some (Binary64.decimal 1107 2)
  ∧ Rounded.balance Rounded.P Rounded.sales1 Rounded.settlements1
    = Binary64.decimal 11069999999999999 15
  ∧ balance Rounded.P Rounded.sales1 Rounded.settlements1
    = Binary64.decimal 11069999999999999 15
  ∧ Binary64.decimal 1107 2 ≠ Binary64.decimal 11069999999999999 15.
Proof.
  split_and!; [num_eq..|].
  intros Heq%eqb_eq. vm_compute in Heq. discriminate.
Qed.

(** ** Order of the input (C6) *)

(** C6.  For two snapshots with the same partners whose sales and whose
    settlements are permutations of each other, the balance map has an
    entry for the same keys; and a partner has the same balance in both
    whenever the sales that list the partner come in the same order in both
    sales lists and the settlements that name the partner come in the same
    order in both settlement lists.  Records of other partners may be moved
    at will. *)
Theorem partnerBalances_reordered partners sales sales'
    settlements settlements' :
  sales ≡ₚ sales' → settlements ≡ₚ settlements' →
  (∀ k,
     is_Some (Rounded.PartnerManagement.partnerBalances partners sales'
                settlements' !! k)
     ↔ is_Some (Rounded.PartnerManagement.partnerBalances partners sales
                  settlements !! k))
  ∧ (∀ p,
       filter (λ sale, Partner.id p ∈ Sale.partnerIds sale) sales'
       = filter (λ sale, Partner.id p ∈ Sale.partnerIds sale) sales →
       filter (λ t, Settlement.partnerId t = Partner.id p) settlements'
       = filter (λ t, Settlement.partnerId t = Partner.id p) settlements →
       Rounded.PartnerManagement.partnerBalances partners sales' settlements'
         !! Partner.id p
       = Rounded.PartnerManagement.partnerBalances partners sales settlements
           !! Partner.id p).
Proof.
  intros Hsales Hsettlements. split.
  - intros k. rewrite !rounded_partnerBalances_is_Some.
    by rewrite Hsettlements.
  - intros p Hs Ht. rewrite !rounded_partnerBalances_lookup.
    unfold Rounded.deltas, payments.
    by rewrite (rounded_shares_listed _ _ sales'),
      (rounded_shares_listed _ _ sales), Hs, Ht.
Qed.

Lemma partnerBalances_reordered_witness :
  ([Example.sale1; Example.sale2] ≡ₚ [Example.sale2; Example.sale1]
   ∧ [Example.pay "A" (int 30); Example.pay "B" (int 10)]
     ≡ₚ [Example.pay "B" (int 10); Example.pay "A" (int 30)])
  ∧ Rounded.PartnerManagement.partnerBalances [Example.A; Example.B]
      [Example.sale2; Example.sale1]
      [Example.pay "B" (int 10); Example.pay "A" (int 30)]
      !! Partner.id Example.B
    = Rounded.PartnerManagement.partnerBalances [Example.A; Example.B]
        [Example.sale1; Example.sale2]
        [Example.pay "A" (int 30); Example.pay "B" (int 10)]
        !! Partner.id Example.B.
Proof.
  assert ([Example.sale1; Example.sale2] ≡ₚ [Example.sale2; Example.sale1])
    as Hsales by apply perm_swap.
  assert ([Example.pay "A" (int 30); Example.pay "B" (int 10)]
          ≡ₚ [Example.pay "B" (int 10); Example.pay "A" (int 30)])
    as Hsettlements by apply perm_swap.
  split; [by split|].
  exact (proj2 (partnerBalances_reordered [Example.A; Example.B] _ _ _ _
                  Hsales Hsettlements) Example.B eq_refl eq_refl).
Defined.

(** The sum of a partner's own sales depends on their order.  One partner
    with the whole profit and three sales, of 0.10, 0.20 and 0.30: in this
    order the balance is [0.6000000000000001], in the opposite order it is
    [0.6]. *)
Lemma reordered_sales_round_differently :
  Rounded.sales2 ≡ₚ Rounded.sales2'
  ∧ Rounded.PartnerManagement.partnerBalances [Rounded.P] Rounded.sales2 []
      !! "P"
    = Some (Binary64.decimal 6000000000000001 16)
  ∧ Rounded.PartnerManagement.partnerBalances [Rounded.P] Rounded.sales2' []
      !! "P"
    = Some (Binary64.decimal 6 1)
  ∧ Binary64.decimal 6000000000000001 16 ≠ Binary64.decimal 6 1.
Proof.
  split_and!; [|num_eq..|].
  - unfold Rounded.sales2, Rounded.sales2'.
    etransitivity; [apply Permutation_cons_append|].
    apply (Permutation_app (l := [_; _]) (m := [_]) (l' := [_; _])
             (m' := [_])); [apply perm_swap|done].
  - intros Heq%eqb_eq. vm_compute in Heq. discriminate.
Qed.

(** ** The allocation ceiling (C3, C8) *)

Section RoundedAllocation.

Import Rounded.PartnerManagement.

Implicit Types (x y : number) (partners : list Partner).

Lemma rounded_totalPercentage_sum partners :
  totalPercentage partners = Rounded.percentage_sum partners.
Proof.
  unfold totalPercentage, Rounded.percentage_sum. by rewrite fold_left_fmap.
Qed.

Lemma percentage_sum_snoc partners p :
  Rounded.percentage_sum (partners ++ [p])
  = Binary64.add (Rounded.percentage_sum partners) (Partner.percentage p).
Proof.
  unfold Rounded.percentage_sum. by rewrite fmap_app, fold_left_app.
Qed.

(** Removing partners does not raise the rounded sum. *)
Lemma percentage_sum_filter (Q : Partner → Prop) `{!∀ p, Decision (Q p)}
    partners :
  Forall (λ p, (0 <=? Partner.percentage p)%num = true) partners →
  (Rounded.percentage_sum (filter Q partners)
   <=? Rounded.percentage_sum partners)%num = true.
Proof.
  intros Hall. unfold Rounded.percentage_sum.
  apply rounded_sum_sublist; [|by apply Forall_fmap|done..].
  apply fmap_sublist, sublist_filter.
Qed.

Lemma rounded_sum_not_NaN x y :
  (x <=? 100)%num = true → (0 <? y)%num = true → (y <=? 100)%num = true →
  Num.isNaN (Binary64.add x y) = false.
Proof. intros Hx H0 H100. apply fl_not_NaN. by destruct x, y. Qed.

Lemma rounded_handleSubmit_Submitted partners name perc d :
  handleSubmit partners name perc = Submitted d ↔
  is_empty (trim name) = false
  ∧ ((0 <? perc)%num = true ∧ (perc <=? 100)%num = true)
  ∧ (Binary64.add (Rounded.percentage_sum partners) perc >? 100)%num = false
  ∧ d = {| pd_name := name; pd_percentage := perc |}.
Proof.
  unfold handleSubmit. rewrite <- percentage_guard, rounded_totalPercentage_sum.
  destruct (is_empty (trim name)).
  { split; [done|]. by intros [? _]. }
  destruct (_ || _ || _).
  { split; [done|]. by intros (_ & ? & _). }
  destruct (_ >? _)%num.
  - split; [done|]. by intros (_ & _ & ? & _).
  - split; [by intros [= <-]|by intros (_ & _ & _ & ->)].
Qed.

(** What holds of the partner list in every reachable state. *)
Lemma rounded_reachable_allocated st :
  Rounded.reachable st →
  Forall (λ p, (0 <=? Partner.percentage p)%num = true) (partners st)
  ∧ (Rounded.percentage_sum (partners st) <=? 100)%num = true.
Proof.
  unfold Rounded.reachable. revert st.
  apply (rtc_ind_r (λ st,
    Forall (λ p, (0 <=? Partner.percentage p)%num = true) (partners st)
    ∧ (Rounded.percentage_sum (partners st) <=? 100)%num = true)).
  - by split; [constructor|].
  - intros st st' _ Hstep [Hall Hle].
    destruct Hstep as [st|st env name perc d Hd|st id|st]; cbn [partners
      Rounded.handleAddSale handleAddPartner handleDeletePartner
      handleAddSettlement]; try done.
    + apply rounded_handleSubmit_Submitted in Hd
        as (_ & [H0 H100] & Hsum & ->).
      split.
      * apply Forall_app. split; [done|]. apply Forall_singleton.
        cbn [newPartner Partner.percentage pd_percentage].
        by apply num_lt_le.
      * rewrite percentage_sum_snoc.
        cbn [newPartner Partner.percentage pd_percentage].
        rewrite num_gt_not_le in Hsum;
          [by apply negb_false_iff in Hsum|by apply rounded_sum_not_NaN|done].
    + split; [by apply Forall_filter_keep|].
      eapply num_le_trans; [|exact Hle]. by apply percentage_sum_filter.
Qed.

End RoundedAllocation.

(** C3.  In every state reachable from the empty ledger by committed
    actions (a partner is added only when [PartnerManagement.handleSubmit]
    accepted the form; partners are deleted at will; sales and settlements
    may be added in between), the percentages of the partners, added up in
    double precision in the order of the list, sum to at most 100. *)
Theorem allocation_never_exceeds_100 st :
  Rounded.reachable st →
  (Rounded.percentage_sum (partners st) <=? 100)%num = true.
Proof. intros H. by apply rounded_reachable_allocated in H as [_ ?]. Qed.

Lemma allocation_never_exceeds_100_witness :
  Rounded.reachable Rounded.fractions
  ∧ (Rounded.percentage_sum (partners Rounded.fractions) <=? 100)%num = true.
Proof.
  assert (Rounded.reachable Rounded.fractions) as Hreach.
  { unfold Rounded.reachable, Rounded.fractions, Rounded.three, Rounded.two.
    eapply rtc_r; [eapply rtc_r; [eapply rtc_r; [eapply rtc_r;
      [apply rtc_refl|]|]|]|].
    - apply (Rounded.step_add_partner initialState {| uuid := "a"; now := 1 |}
               "Al" (Binary64.decimal 1 1)).
      vm_compute. reflexivity.
    - apply (Rounded.step_add_partner _ {| uuid := "b"; now := 2 |}
               "Bo" (Binary64.decimal 2 1)).
      vm_compute. reflexivity.
    - apply (Rounded.step_add_partner _ {| uuid := "c"; now := 3 |}
               "Cy" (Binary64.decimal 997 1)).
      vm_compute. reflexivity.
    - apply Rounded.step_delete_partner. }
  split; [exact Hreach|].
  exact (allocation_never_exceeds_100 Rounded.fractions Hreach).
Defined.

(** C8.  For a partner list whose percentages sum to [S <= 100] and a
    request that passes the name and percentage checks (the name is not
    blank, [0 < p <= 100]), [PartnerManagement.handleSubmit] submits the
    new partner if and only if [S + p <= 100]; otherwise it rejects with
    [AllocationExceeded], and the message of that rejection interpolates
    the current total [S].  [S] is the sum of the percentage fields added up
    from the left, and [S] and [S + p] are sums in double precision. *)
Theorem handleSubmit_allocation partners name p :
  (Rounded.percentage_sum partners <=? 100)%num = true →
  is_empty (trim name) = false →
  (0 <? p)%num = true → (p <=? 100)%num = true →
  (Rounded.PartnerManagement.handleSubmit partners name p
     = Submitted {| pd_name := name; pd_percentage := p |}
   ↔ (Binary64.add (Rounded.percentage_sum partners) p <=? 100)%num = true)
  ∧ ((∃ d, Rounded.PartnerManagement.handleSubmit partners name p
           = Submitted d)
     ↔ (Binary64.add (Rounded.percentage_sum partners) p <=? 100)%num = true)
  ∧ ((Binary64.add (Rounded.percentage_sum partners) p <=? 100)%num = false →
     Rounded.PartnerManagement.handleSubmit partners name p
       = Rejected (AllocationExceeded (Rounded.percentage_sum partners))
     ∧ Value (Rounded.percentage_sum partners)
         ∈ message (AllocationExceeded (Rounded.percentage_sum partners))).
Proof.
  intros HS Hname H0 H100.
  pose proof (rounded_sum_not_NaN _ _ HS H0 H100) as Hsum.
  assert (∀ d, Rounded.PartnerManagement.handleSubmit partners name p
               = Submitted d ↔
               (Binary64.add (Rounded.percentage_sum partners) p <=? 100)%num
               = true
               ∧ d = {| pd_name := name; pd_percentage := p |}) as Hiff.
  { intros d.
    rewrite rounded_handleSubmit_Submitted, num_gt_not_le, negb_false_iff
      by done.
    split; [by intros (_ & _ & ? & ?)|by intros [? ?]]. }
  split; [|split].
  - rewrite Hiff. split; [by intros [? _]|done].
  - split; [intros [d Hd]; by apply Hiff in Hd as [? _]|].
    intros Hle. eexists. by apply Hiff.
  - intros Hle. split.
    + unfold Rounded.PartnerManagement.handleSubmit.
      rewrite Hname, rounded_totalPercentage_sum.
      assert (Num.isNaN p || (p <=? 0)%num || (p >? 100)%num = false) as ->
        by by apply percentage_guard.
      by rewrite num_gt_not_le, Hle.
    + cbn [message]. apply list_elem_of_further, list_elem_of_here.
Qed.

Lemma handleSubmit_allocation_witness :
  let partners := partners Rounded.two in
  let p := Binary64.decimal 997 1 in
  ((Rounded.percentage_sum partners <=? 100)%num = true
   ∧ is_empty (trim "Cy") = false
   ∧ (0 <? p)%num = true ∧ (p <=? 100)%num = true)
  ∧ (Rounded.PartnerManagement.handleSubmit partners "Cy" p
       = Submitted {| pd_name := "Cy"; pd_percentage := p |}
     ↔ (Binary64.add (Rounded.percentage_sum partners) p <=? 100)%num = true).
Proof.
  intros partners p.
  assert ((Rounded.percentage_sum partners <=? 100)%num = true) as HS
    by (vm_compute; reflexivity).
  assert (is_empty (trim "Cy") = false) as Hname by reflexivity.
  assert ((0 <? p)%num = true) as H0 by (vm_compute; reflexivity).
  assert ((p <=? 100)%num = true) as H100 by (vm_compute; reflexivity).
  split; [split_and!; [exact HS|exact Hname|exact H0|exact H100]|].
  exact (proj1 (handleSubmit_allocation partners "Cy" p HS Hname H0 H100)).
Defined.

(** The percentages 0.1, 0.2 and 99.7: the sum of the first two is
    [0.30000000000000004], with the third it is [100], and the form accepts
    the third. *)
Example example_fractions :
  Rounded.percentage_sum (partners Rounded.two)
  = Binary64.decimal 30000000000000004 17
  ∧ Rounded.percentage_sum (partners Rounded.three) = int 100
  ∧ Rounded.PartnerManagement.handleSubmit (partners Rounded.two) "Cy"
      (Binary64.decimal 997 1)
    = Submitted {| pd_name := "Cy";
                   pd_percentage := Binary64.decimal 997 1 |}.
Proof. split_and!; num_eq. Qed.

(** ** A new sale *)

(** A new sale leaves the balance of every key it does not list as it
    was. *)
Theorem sale_touches_its_partners st env d k :
  k ∉ sd_partnerIds d →
  let st' := Rounded.handleAddSale env d st in
  Rounded.PartnerManagement.partnerBalances (partners st') (sales st')
    (settlements st') !! k
  = Rounded.PartnerManagement.partnerBalances (partners st) (sales st)
      (settlements st) !! k.
Proof.
  intros Hk st'. subst st'.
  cbn [Rounded.handleAddSale partners sales settlements].
  rewrite !rounded_partnerBalances_lookup. unfold Rounded.deltas.
  rewrite (rounded_shares_listed _ _ (_ :: _)), filter_cons, decide_False
    by done.
  by rewrite <- rounded_shares_listed.
Qed.

Lemma sale_touches_its_partners_witness :
  let d := {| sd_name := "item"; sd_description := Some "";
              sd_purchasePrice := int 0;
              sd_soldPrice := Binary64.decimal 1840 2;
              sd_partnerIds := ["b"] |} in
  let env := {| uuid := "s"; now := 4 |} in
  let st' := Rounded.handleAddSale env d Rounded.fractions in
  ("c" ∉ sd_partnerIds d)
  ∧ Rounded.PartnerManagement.partnerBalances (partners st') (sales st')
      (settlements st') !! "c"
    = Rounded.PartnerManagement.partnerBalances (partners Rounded.fractions)
        (sales Rounded.fractions) (settlements Rounded.fractions) !! "c".
Proof.
  intros d env st'.
  assert ("c" ∉ sd_partnerIds d) as Hout
    by (intros ?%list_elem_of_singleton; discriminate).
  split; [exact Hout|].
  exact (sale_touches_its_partners Rounded.fractions env d "c" Hout).
Defined.

(** ** Agreement with the hardware

    On the operations of the worked ledgers, and where a sum is a tie, is
    subnormal or overflows, [Binary64] gives what the binary64 unit of the
    machine gives. *)

Section Hardware.

Local Open Scope float_scope.

Lemma binary64_agrees_with_hardware :
  Binary64.of_float (184 / 10) = Binary64.decimal 184 1
  ∧ Binary64.of_float (184 / 10 - 354 / 100)
    = Binary64.sub (Binary64.decimal 184 1) (Binary64.decimal 354 2)
  ∧ Binary64.of_float (184 / 10 - 354 / 100 - 379 / 100)
    = Binary64.sub
        (Binary64.sub (Binary64.decimal 184 1) (Binary64.decimal 354 2))
        (Binary64.decimal 379 2)
  ∧ Binary64.of_float (184 / 10 - (354 / 100 + 379 / 100))
    = Binary64.sub (Binary64.decimal 184 1)
        (Binary64.add (Binary64.decimal 354 2) (Binary64.decimal 379 2))
  ∧ Binary64.of_float (1 / 10 * 100 / 100)
    = Binary64.div (Binary64.mul (Binary64.decimal 1 1) (int 100)) (int 100)
  ∧ Binary64.of_float (1 / 10 + 2 / 10 + 3 / 10)
    = Binary64.add
        (Binary64.add (Binary64.decimal 1 1) (Binary64.decimal 2 1))
        (Binary64.decimal 3 1)
  ∧ Binary64.of_float (3 / 10 + 2 / 10 + 1 / 10)
    = Binary64.add
        (Binary64.add (Binary64.decimal 3 1) (Binary64.decimal 2 1))
        (Binary64.decimal 1 1)
  ∧ Binary64.of_float (1 / 10 + 2 / 10 + 997 / 10)
    = Binary64.add
        (Binary64.add (Binary64.decimal 1 1) (Binary64.decimal 2 1))
        (Binary64.decimal 997 1).
Proof. split_and!; apply eqb_eq; vm_compute; reflexivity. Qed.

(** Ties go to the even significand, below [2^-1022] the spacing stays
    [2^-1074], and half a place above the largest value is infinite. *)
Lemma binary64_agrees_at_the_edges :
  Binary64.of_float (9007199254740992 + 1)
    = Binary64.add (int 9007199254740992) (int 1)
  ∧ Binary64.of_float (9007199254740994 + 1)
    = Binary64.add (int 9007199254740994) (int 1)
  ∧ Binary64.of_float (1 / 3) = Binary64.div (int 1) (int 3)
  ∧ Binary64.of_float (2 / 3) = Binary64.div (int 2) (int 3)
  ∧ Binary64.of_float (0x1p-1074 / 2)
    = Binary64.div (Binary64.of_float 0x1p-1074) (int 2)
  ∧ Binary64.of_float (0x1p-1074 * 3 / 2)
    = Binary64.div (Binary64.mul (Binary64.of_float 0x1p-1074) (int 3))
        (int 2)
  ∧ Binary64.of_float (0x1p-1074 * 5 / 2)
    = Binary64.div (Binary64.mul (Binary64.of_float 0x1p-1074) (int 5))
        (int 2)
  ∧ Binary64.of_float (0x1.0000000000001p-1022 / 2)
    = Binary64.div (Binary64.of_float 0x1.0000000000001p-1022) (int 2)
  ∧ Binary64.of_float (0x1.fffffffffffffp+1023 + 0x1p+969)
    = Binary64.add (Binary64.of_float 0x1.fffffffffffffp+1023)
        (Binary64.of_float 0x1p+969)
  ∧ Binary64.of_float (0x1.fffffffffffffp+1023 + 0x1p+970)
    = Binary64.add (Binary64.of_float 0x1.fffffffffffffp+1023)
        (Binary64.of_float 0x1p+970)
  ∧ Binary64.of_float (0x1.fffffffffffffp+1023 + 0x1p+970) = PosInf
  ∧ Binary64.of_float (0x1.1ccf385ebc8ap+1023 * 50 / 100)
    = Binary64.div (Binary64.mul (Binary64.of_float 0x1.1ccf385ebc8ap+1023) (int 50))
        (int 100)
  ∧ Binary64.of_float (0 - 1 / 3) = Binary64.sub (int 0) (Binary64.div (int 1) (int 3)).
Proof. split_and!; apply eqb_eq; vm_compute; reflexivity. Qed.

End Hardware.
